(** * Sampling-based planners: RRT and Informed RRT*

    A shallow embedding of [Planner/RRT/RRT.cpp] and
    [Planner/InformedRRTStar/InformedRRTStar.cpp].

    - The C++ [double] is an abstract type [D] with the operations the two
      files use ([Arith]); the order laws theorems rely on are stated
      separately ([ArithLaws]) and hold of NaN-free arithmetic.
    - [State] and the constraint object are the collaborators the planners
      receive ([base.StateOps], [base.Constraint]).
    - A [std::vector<std::shared_ptr<Node>>] is a [list Node]; a
      [shared_ptr<Node>] into it is the index of the node, so that a write
      through one alias is seen through all of them.
    - Random numbers are an explicit list of draws, one per loop round. *)

From Stdlib Require Import List ZArith Bool Lia QArith PrimFloat Sorted.
Import ListNotations.
Local Open Scope nat_scope.

Set Implicit Arguments.

(** ** Results of a call *)

Inductive exn := invalid_argument | runtime_error.

(** A call returns ([Ok]), throws, indexes a vector out of range ([UB]),
    asks for a random draw the list no longer has ([NeedDraw]: the loop is
    still running), or exhausts the fuel of an inner loop ([OutOfFuel]). *)
Inductive res (A : Type) :=
| Ok (a : A)
| Throw (e : exn)
| UB
| NeedDraw
| OutOfFuel.

Arguments Ok {A} a.
Arguments Throw {A} e.
Arguments UB {A}.
Arguments NeedDraw {A}.
Arguments OutOfFuel {A}.

Definition bind {A B} (m : res A) (f : A -> res B) : res B :=
  match m with
  | Ok a => f a
  | Throw e => Throw e
  | UB => UB
  | NeedDraw => NeedDraw
  | OutOfFuel => OutOfFuel
  end.

Notation "x <- m ;; k" := (bind m (fun x => k))
  (at level 61, m at next level, right associativity).

(** [v[i]] on a [std::vector]: undefined out of range. *)
Definition at_index {A} (v : list A) (i : nat) : res A :=
  match nth_error v i with
  | Some a => Ok a
  | None => UB
  end.

(** [v[i] = a] for [i] in range (the callers look [v[i]] up first). *)
Fixpoint set_index {A} (v : list A) (i : nat) (a : A) : list A :=
  match v, i with
  | [], _ => []
  | _ :: v', O => a :: v'
  | x :: v', S i' => x :: set_index v' i' a
  end.

(** [P] holds of every two consecutive elements. *)
Fixpoint all_adjacent {A} (P : A -> A -> Prop) (l : list A) : Prop :=
  match l with
  | a :: l' =>
      match l' with
      | b :: _ => P a b /\ all_adjacent P l'
      | [] => True
      end
  | [] => True
  end.

(** ** The arithmetic of [double] *)

Class Arith (D : Type) := {
  dzero : D;                  (* 0.0 *)
  done : D;                   (* 1.0 *)
  dtenth : D;                 (* 0.1 *)
  dmax : D;                   (* std::numeric_limits<double>::max() *)
  dadd : D -> D -> D;         (* + *)
  dltb : D -> D -> bool;      (* < *)
  dleb : D -> D -> bool;      (* <= *)
  deqb : D -> D -> bool       (* == *)
}.

(** [std::min(a, b)]: [b] when [b < a], else [a]. *)
Definition dmin {D} `{Arith D} (a b : D) : D := if dltb b a then b else a.

(** ** Collaborators declared outside the two files *)

Module base.

(** Modelled from the spec: the [ConstraintType] enumeration, of which the
    planners only test membership in [NOENTRY]. *)
Inductive ConstraintType := FREE | NOENTRY.

Definition is_NOENTRY (c : ConstraintType) : bool :=
  match c with NOENTRY => true | FREE => false end.

(** The operations of [State] the planners call. *)
Class StateOps (State D : Type) := {
  getDim : State -> nat;
  distanceFrom : State -> State -> D;      (* a.distanceFrom(b) *)
  state_eqb : State -> State -> bool;      (* a == b; a != b is its negation *)
  state_add : State -> State -> State;     (* a + b *)
  state_sub : State -> State -> State;     (* a - b *)
  state_mul : State -> D -> State          (* a * s *)
}.

(** The constraint object [constraint_]. *)
Class Constraint (State : Type) := {
  space_getDim : nat;                               (* space.getDim() *)
  checkConstraintType : State -> ConstraintType;
  checkCollision : State -> State -> bool
}.

(** The two closed-form computations on [double] that the planners make
    with [atan2], [sin], [cos], [pow] and [log]. *)
Class Numerics (State D : Type) := {
  (* the state reached by the angular loop of generateSteerNode *)
  steer_advance : nat -> State -> State -> D -> State;
  (* R * pow(log(num_node) / num_node, 1.0 / dim) *)
  near_radius : D -> nat -> nat -> D
}.

End base.

Import base.

(** ** Informed RRT* *)

Module InformedRRTStar.
Section Planner.

Context {D State : Type} {AD : Arith D} {SO : StateOps State D}
        {CN : Constraint State} {NM : Numerics State D}.

(** [Node(state, parent, cost)]; [parent] is an index into the node list
  ([None] for [nullptr]). *)
Record Node := mkNode {
  state : State;
  parent : option nat;
  cost : D
}.

Record t := mk {
  max_sampling_num_ : nat;
  goal_sampling_rate_ : D;
  expand_dist_ : D;
  R_ : D;
  goal_region_radius_ : D;
  result_ : list State;
  result_cost_ : D;
  node_list_ : list Node
}.

Definition setMaxSamplingNum (p : t) (n : nat) : t :=
  mk n (goal_sampling_rate_ p) (expand_dist_ p) (R_ p)
     (goal_region_radius_ p) (result_ p) (result_cost_ p) (node_list_ p).

Definition setGoalSamplingRate (p : t) (goal_sampling_rate : D) : res t :=
  if negb (dleb dzero goal_sampling_rate && dleb goal_sampling_rate done)
  then Throw invalid_argument
  else Ok (mk (max_sampling_num_ p) goal_sampling_rate (expand_dist_ p)
              (R_ p) (goal_region_radius_ p) (result_ p) (result_cost_ p)
              (node_list_ p)).

Definition setExpandDist (p : t) (d : D) : t :=
  mk (max_sampling_num_ p) (goal_sampling_rate_ p) d (R_ p)
     (goal_region_radius_ p) (result_ p) (result_cost_ p) (node_list_ p).

Definition setR (p : t) (r : D) : t :=
  mk (max_sampling_num_ p) (goal_sampling_rate_ p) (expand_dist_ p) r
     (goal_region_radius_ p) (result_ p) (result_cost_ p) (node_list_ p).

Definition setGoalRegionRadius (p : t) (r : D) : t :=
  mk (max_sampling_num_ p) (goal_sampling_rate_ p) (expand_dist_ p) (R_ p)
     r (result_ p) (result_cost_ p) (node_list_ p).

(** The constructor: the members are set, then the rate goes through the
  setter.  [result_cost_] has no initialiser in the file and is given
  as [c0]. *)
Definition new (max_sampling_num : nat) (goal_sampling_rate expand_dist R
                goal_region_radius c0 : D) : res t :=
  setGoalSamplingRate
    (mk max_sampling_num dzero expand_dist R goal_region_radius [] c0 [])
    goal_sampling_rate.

(** *** Tree operations *)

Fixpoint getNearestNodeIndex_from (target_node : Node) (l : list Node)
         (i min_dist_index : nat) (min_dist : D) : nat :=
  match l with
  | [] => min_dist_index
  | n :: l' =>
      let dist := distanceFrom (state n) (state target_node) in
      if dltb dist min_dist
      then getNearestNodeIndex_from target_node l' (S i) i dist
      else getNearestNodeIndex_from target_node l' (S i) min_dist_index min_dist
  end.

Definition getNearestNodeIndex (target_node : Node) (node_list : list Node)
  : nat :=
  getNearestNodeIndex_from target_node node_list 0 0 dmax.

(** [src_ptr] is the pointer [src_node], [src_node] what it points to. *)
Definition generateSteerNode (src_ptr : nat) (src_node dst_node : Node)
           (expand_dist : D) : Node :=
  if dltb (distanceFrom (state src_node) (state dst_node)) expand_dist
  then mkNode (state dst_node) (Some src_ptr)
              (dadd (cost src_node)
                    (distanceFrom (state src_node) (state dst_node)))
  else mkNode (steer_advance space_getDim (state src_node) (state dst_node)
                             expand_dist)
              (Some src_ptr)
              (dadd (cost src_node) expand_dist).

Fixpoint findNearNodes_from (target_node : Node) (l : list Node) (i : nat)
         (radius : D) : list nat :=
  match l with
  | [] => []
  | n :: l' =>
      let dist := distanceFrom (state n) (state target_node) in
      if dltb dist radius
      then i :: findNearNodes_from target_node l' (S i) radius
      else findNearNodes_from target_node l' (S i) radius
  end.

Definition findNearNodes (R : D) (target_node : Node)
           (node_list : list Node) : list nat :=
  let num_node := length node_list in
  if Nat.eqb num_node 0 then []
  else findNearNodes_from target_node node_list 0
                          (near_radius R num_node space_getDim).

(** The loop of chooseParentNode over the near indexes, on the pair
  [(min_cost_parent_node, min_cost)]. *)
Fixpoint chooseParentNode_loop (target_node : Node) (node_list : list Node)
         (near_node_indexes : list nat) (acc : option nat * D)
  : res (option nat * D) :=
  match near_node_indexes with
  | [] => Ok acc
  | near_node_index :: rest =>
      near <- at_index node_list near_node_index ;;
      let dist := distanceFrom (state target_node) (state near) in
      let cost' := dadd (cost near) dist in
      if dltb cost' (snd acc)
      then if checkCollision (state target_node) (state near)
           then chooseParentNode_loop target_node node_list rest
                                      (Some near_node_index, cost')
           else chooseParentNode_loop target_node node_list rest acc
      else chooseParentNode_loop target_node node_list rest acc
  end.

Definition chooseParentNode (target_node : Node) (node_list : list Node)
           (near_node_indexes : list nat) : res Node :=
  acc <- chooseParentNode_loop target_node node_list near_node_indexes
                               (parent target_node, dmax) ;;
  if negb (deqb (snd acc) dmax)
  then Ok (mkNode (state target_node) (fst acc) (snd acc))
  else Ok target_node.

(** One round of the loop of rewireNearNodes; [new_ptr] is
  [node_list.back()], read again at every round since [near_node] may
  alias it. *)
Definition rewire_step (node_list : list Node) (new_ptr near_node_index : nat)
  : res (list Node) :=
  near_node <- at_index node_list near_node_index ;;
  new_node <- at_index node_list new_ptr ;;
  let new_cost :=
    dadd (cost new_node) (distanceFrom (state near_node) (state new_node)) in
  if dltb new_cost (cost near_node)
  then if checkCollision (state new_node) (state near_node)
       then Ok (set_index node_list near_node_index
                          (mkNode (state near_node) (Some new_ptr) new_cost))
       else Ok node_list
  else Ok node_list.

Fixpoint rewire_loop (node_list : list Node) (new_ptr : nat)
         (near_node_indexes : list nat) : res (list Node) :=
  match near_node_indexes with
  | [] => Ok node_list
  | i :: rest =>
      node_list' <- rewire_step node_list new_ptr i ;;
      rewire_loop node_list' new_ptr rest
  end.

Definition rewireNearNodes (node_list : list Node)
           (near_node_indexes : list nat) : res (list Node) :=
  match node_list with
  | [] => UB                                   (* back() of an empty vector *)
  | _ => rewire_loop node_list (length node_list - 1) near_node_indexes
  end.

Fixpoint getBestNodeIndex_from (target_state : State) (radius : D)
         (l : list Node) (i : nat) (best_index : Z) (min_cost : D) : Z :=
  match l with
  | [] => best_index
  | n :: l' =>
      let dist_from_target := distanceFrom target_state (state n) in
      if dltb dist_from_target radius
      then if dltb (cost n) min_cost
           then getBestNodeIndex_from target_state radius l' (S i)
                                      (Z.of_nat i) (cost n)
           else getBestNodeIndex_from target_state radius l' (S i)
                                      best_index min_cost
      else getBestNodeIndex_from target_state radius l' (S i)
                                 best_index min_cost
  end.

Definition getBestNodeIndex (target_state : State) (radius : D)
           (node_list : list Node) : Z :=
  getBestNodeIndex_from target_state radius node_list 0 (-1)%Z dmax.

(** [calcRotationToWorldFlame]: only its argument check is observable
  here; the matrix it returns feeds the informed sample, which is a
  draw. *)
Definition calcRotationToWorldFlame (start goal : State) : res unit :=
  if negb (Nat.eqb (getDim start) (getDim goal)) || Nat.ltb (getDim start) 2
  then Throw invalid_argument
  else Ok tt.

(** [sampleUnitNBall]: the argument check; the sample is a draw. *)
Definition sampleUnitNBall (dim : nat) : res unit :=
  if Nat.eqb dim 0 then Throw invalid_argument else Ok tt.

(** *** solve *)

(** What one round draws: the value of [sample_restriction(rand)], the
  state sampled in the bounds, and the state sampled on the heuristic
  domain. *)
Record Draw := mkDraw {
  sample_restriction : D;
  uniform_state : State;
  informed_state : State
}.

(** The best cost among the nodes of the goal region. *)
Fixpoint best_cost_loop (node_list : list Node) (goal_node_indexes : list nat)
         (best_cost : D) : res D :=
  match goal_node_indexes with
  | [] => Ok best_cost
  | goal_node_index :: rest =>
      n <- at_index node_list goal_node_index ;;
      best_cost_loop node_list rest (dmin best_cost (cost n))
  end.

(** The sampled node of a round: [None] is [continue]. *)
Definition sample_node (p : t) (goal : State) (best_cost : D) (d : Draw)
  : res (option Node) :=
  if dltb (goal_sampling_rate_ p) (sample_restriction d)
  then
    st <- (if deqb best_cost dmax
           then Ok (uniform_state d)
           else (_ <- sampleUnitNBall space_getDim ;; Ok (informed_state d))) ;;
    if is_NOENTRY (checkConstraintType st)
    then Ok None
    else Ok (Some (mkNode st None dzero))
  else Ok (Some (mkNode goal None dzero)).

(** The body of the sampling loop, on [(node_list, goal_node_indexes)]. *)
Definition sampling_round (p : t) (goal : State) (d : Draw)
           (s : list Node * list nat) : res (list Node * list nat) :=
  let (node_list, goal_node_indexes) := s in
  best_cost <- best_cost_loop node_list goal_node_indexes dmax ;;
  sampled <- sample_node p goal best_cost d ;;
  match sampled with
  | None => Ok s
  | Some rand_node =>
      let nearest_node_index := getNearestNodeIndex rand_node node_list in
      nearest <- at_index node_list nearest_node_index ;;
      let new_node :=
        generateSteerNode nearest_node_index nearest rand_node
                          (expand_dist_ p) in
      if checkCollision (state nearest) (state new_node)
      then
        let near_node_indexes := findNearNodes (R_ p) new_node node_list in
        new_node' <- chooseParentNode new_node node_list near_node_indexes ;;
        node_list' <- rewireNearNodes (node_list ++ [new_node'])
                                      near_node_indexes ;;
        if dltb (distanceFrom (state new_node') goal) (goal_region_radius_ p)
        then Ok (node_list', goal_node_indexes ++ [length node_list' - 1])
        else Ok (node_list', goal_node_indexes)
      else Ok s
  end.

(** [for(size_t i = 0; i < max_sampling_num_; i++)]: [n] rounds to go. *)
Fixpoint sampling (p : t) (goal : State) (n : nat) (draws : list Draw)
         (s : list Node * list nat) : res (list Node * list nat) :=
  match n with
  | O => Ok s
  | S n' =>
      match draws with
      | [] => NeedDraw
      | d :: draws' =>
          s' <- sampling_round p goal d s ;;
          sampling p goal n' draws' s'
      end
  end.

(** The [while(true)] that walks the parents and inserts at the front of
  [result_].  A walk of more rounds than there are nodes is on a cycle
  and never ends: the fuel is the number of nodes. *)
Fixpoint walk_parents (fuel : nat) (node_list : list Node) (ptr : nat)
         (result : list State) : res (list State) :=
  match fuel with
  | O => OutOfFuel
  | S fuel' =>
      result_node <- at_index node_list ptr ;;
      let result' := state result_node :: result in
      match parent result_node with
      | None => Ok result'
      | Some ptr' => walk_parents fuel' node_list ptr' result'
      end
  end.

Definition solve (p : t) (start goal : State) (draws : list Draw)
  : res (bool * t) :=
  _ <- calcRotationToWorldFlame start goal ;;
  s <- sampling p goal (max_sampling_num_ p) draws
                ([mkNode start None dzero], []) ;;
  let node_list := fst s in
  let best_last_index := getBestNodeIndex goal (expand_dist_ p) node_list in
  if (best_last_index <? 0)%Z
  then Ok (false, mk (max_sampling_num_ p) (goal_sampling_rate_ p)
                     (expand_dist_ p) (R_ p) (goal_region_radius_ p)
                     [] (result_cost_ p) (node_list_ p))
  else
    result_node <- at_index node_list (Z.to_nat best_last_index) ;;
    let result_cost :=
      dadd (cost result_node) (distanceFrom (state result_node) goal) in
    let result0 :=
      if negb (state_eqb (state result_node) goal) then [goal] else [] in
    result <- walk_parents (length node_list) node_list
                           (Z.to_nat best_last_index) result0 ;;
    Ok (true, mk (max_sampling_num_ p) (goal_sampling_rate_ p)
                 (expand_dist_ p) (R_ p) (goal_region_radius_ p)
                 result result_cost node_list).

End Planner.

Arguments Node : clear implicits.
Arguments t : clear implicits.
Arguments Draw : clear implicits.

End InformedRRTStar.

(** ** RRT *)

Module RRT.
Section Planner.

Context {D State : Type} {AD : Arith D} {SO : StateOps State D}
        {CN : Constraint State} {NM : Numerics State D}.

(** [Node{state, parent}]: the nodes of RRT carry no cost. *)
Record Node := mkNode {
  state : State;
  parent : option nat
}.

(** [uint32_t] arithmetic. *)
Definition uint32 (z : Z) : Z := (z mod 2 ^ 32)%Z.

Record t := mk {
  max_sampling_num_ : Z;          (* uint32_t *)
  goal_sampling_rate_ : D;
  expand_dist_ : D;
  result_ : list State
}.

Definition setMaxSamplingNum (p : t) (max_sampling_num : Z) : t :=
  mk (uint32 max_sampling_num) (goal_sampling_rate_ p) (expand_dist_ p)
     (result_ p).

Definition setGoalSamplingRate (p : t) (goal_sampling_rate : D) : res t :=
  if negb (dleb dzero goal_sampling_rate && dleb goal_sampling_rate done)
  then Throw runtime_error
  else Ok (mk (max_sampling_num_ p) goal_sampling_rate (expand_dist_ p)
              (result_ p)).

Definition setExpandDist (p : t) (expand_dist : D) : t :=
  mk (max_sampling_num_ p) (goal_sampling_rate_ p) expand_dist (result_ p).

Definition new (max_sampling_num : Z) (goal_sampling_rate expand_dist : D)
  : res t :=
  setGoalSamplingRate (mk (uint32 max_sampling_num) dzero expand_dist [])
                      goal_sampling_rate.

Fixpoint getNearestNodeIndex_from (target_node : Node) (l : list Node)
         (i min_dist_index : nat) (min_dist : D) : nat :=
  match l with
  | [] => min_dist_index
  | n :: l' =>
      let dist := distanceFrom (state n) (state target_node) in
      if dltb dist min_dist
      then getNearestNodeIndex_from target_node l' (S i) i dist
      else getNearestNodeIndex_from target_node l' (S i) min_dist_index min_dist
  end.

Definition getNearestNodeIndex (target_node : Node) (node_list : list Node)
  : nat :=
  getNearestNodeIndex_from target_node node_list 0 0 dmax.

Definition generateSteerNode (src_ptr : nat) (src_node dst_node : Node)
           (expand_dist : D) : Node :=
  if dltb (distanceFrom (state src_node) (state dst_node)) expand_dist
  then mkNode (state dst_node) (Some src_ptr)
  else mkNode (steer_advance space_getDim (state src_node) (state dst_node)
                             expand_dist)
              (Some src_ptr).

(** [for(double ratio_i = 0; ratio_i < 1.0; ratio_i += 0.1)]: ten rounds
  in exact arithmetic, eleven in binary64; the loop is given
  [ratio_fuel] rounds. *)
Definition ratio_fuel : nat := 16.

Fixpoint checkCollision_from (fuel : nat) (src vec : State) (ratio_i : D)
  : res bool :=
  if dltb ratio_i done
  then match fuel with
       | O => OutOfFuel
       | S fuel' =>
           let target := state_add src (state_mul vec ratio_i) in
           if is_NOENTRY (checkConstraintType target)
           then Ok false
           else checkCollision_from fuel' src vec (dadd ratio_i dtenth)
       end
  else Ok true.

Definition checkCollision (src_node dst_node : Node) : res bool :=
  let vec := state_sub (state dst_node) (state src_node) in
  checkCollision_from ratio_fuel (state src_node) vec dzero.

Record Draw := mkDraw {
  sample_restriction : D;
  uniform_state : State
}.

(** The sampled node of a round: [None] is [continue]. *)
Definition sample_node (p : t) (goal : State) (d : Draw) : option Node :=
  if dltb (goal_sampling_rate_ p) (sample_restriction d)
  then if is_NOENTRY (checkConstraintType (uniform_state d))
       then None
       else Some (mkNode (uniform_state d) None)
  else Some (mkNode goal None).

(** The [while(true)] of solve.  It leaves by [break] with the node list
  ([Some]) or by [return false] ([None]); the second component is
  [sampling_cnt] on leaving. *)
Fixpoint sampling (p : t) (goal : State) (draws : list Draw)
         (node_list : list Node) (sampling_cnt : Z)
  : res (option (list Node) * Z) :=
  match draws with
  | [] => NeedDraw
  | d :: draws' =>
      match sample_node p goal d with
      | None => sampling p goal draws' node_list sampling_cnt
      | Some rand_node =>
          let nearest_node_index := getNearestNodeIndex rand_node node_list in
          nearest <- at_index node_list nearest_node_index ;;
          let new_node :=
            generateSteerNode nearest_node_index nearest rand_node
                              (expand_dist_ p) in
          free <- checkCollision nearest new_node ;;
          let node_list1 :=
            if free then node_list ++ [new_node] else node_list in
          if free && dleb (distanceFrom (state new_node) goal) (expand_dist_ p)
          then Ok (Some (node_list1
                           ++ [mkNode goal (Some (length node_list1 - 1))]),
                   sampling_cnt)
          else
            let sampling_cnt' := uint32 (sampling_cnt + 1) in
            if (max_sampling_num_ p =? sampling_cnt')%Z
            then Ok (None, sampling_cnt')
            else sampling p goal draws' node_list1 sampling_cnt'
      end
  end.

Fixpoint walk_parents (fuel : nat) (node_list : list Node) (ptr : nat)
         (result : list State) : res (list State) :=
  match fuel with
  | O => OutOfFuel
  | S fuel' =>
      result_node <- at_index node_list ptr ;;
      let result' := state result_node :: result in
      match parent result_node with
      | None => Ok result'
      | Some ptr' => walk_parents fuel' node_list ptr' result'
      end
  end.

Definition solve (p : t) (start goal : State) (draws : list Draw)
  : res (bool * t) :=
  r <- sampling p goal draws [mkNode start None] 0%Z ;;
  match fst r with
  | None => Ok (false, p)
  | Some node_list =>
      result <- walk_parents (length node_list) node_list
                             (length node_list - 1) [] ;;
      Ok (true, mk (max_sampling_num_ p) (goal_sampling_rate_ p)
                   (expand_dist_ p) result)
  end.

End Planner.

Arguments Node : clear implicits.
Arguments t : clear implicits.
Arguments Draw : clear implicits.

End RRT.

(** ** Binary64: the planners on IEEE 754 doubles

    The arithmetic the compiled planners run on, with Rocq's primitive
    floats.  Runs of the planners on concrete inputs are evaluated here. *)

Module Binary64.

Local Open Scope float_scope.

#[export] Instance arith : Arith float := {|
  dzero := 0;
  done := 1;
  dtenth := 0x1.999999999999ap-4;         (* the double written 0.1 *)
  dmax := 0x1.fffffffffffffp+1023;
  dadd := PrimFloat.add;
  dltb := PrimFloat.ltb;
  dleb := PrimFloat.leb;
  deqb := PrimFloat.eqb
|}.

(** Modelled from the spec: [State], an ordered sequence of coordinates
    with coordinate-wise arithmetic, exact equality and the Euclidean
    distance [dist(a,b) = ||a - b||_2]. *)
Definition State := list float.

Fixpoint zip_with (f : float -> float -> float) (a b : State) : State :=
  match a, b with
  | x :: a', y :: b' => f x y :: zip_with f a' b'
  | _, _ => []
  end.

Definition norm (a : State) : float :=
  PrimFloat.sqrt (fold_left (fun s x => s + x * x) a 0).

Fixpoint eqb (a b : State) : bool :=
  match a, b with
  | [], [] => true
  | x :: a', y :: b' => PrimFloat.eqb x y && eqb a' b'
  | _, _ => false
  end.

#[export] Instance state_ops : StateOps State float := {|
  getDim := @length float;
  distanceFrom := fun a b => norm (zip_with PrimFloat.sub a b);
  state_eqb := eqb;
  state_add := zip_with PrimFloat.add;
  state_sub := zip_with PrimFloat.sub;
  state_mul := fun a s => map (fun x => x * s) a
|}.

(** A planar world with a wall: the states with [0.75 <= x <= 1.25] are
    NOENTRY, and a segment is admitted when both its ends lie on the same
    side of the wall. *)
Definition xcoord (a : State) : float := hd 0 a.

Definition in_wall (a : State) : bool :=
  PrimFloat.leb 0.75 (xcoord a) && PrimFloat.leb (xcoord a) 1.25.

Definition same_side (a b : State) : bool :=
  (PrimFloat.ltb (xcoord a) 0.75 && PrimFloat.ltb (xcoord b) 0.75)
  || (PrimFloat.ltb 1.25 (xcoord a) && PrimFloat.ltb 1.25 (xcoord b)).

#[export] Instance wall : Constraint State := {|
  space_getDim := 2;
  checkConstraintType := fun a => if in_wall a then NOENTRY else FREE;
  checkCollision := same_side
|}.

(** [atan2], [sin], [cos], [pow] and [log] are not operations of the
    primitive floats.  The runs below steer to targets nearer than
    [expand_dist] and look for near nodes in a tree of one node, where
    the radius is [R * pow(log(1) / 1, 1.0 / dim) = R * 0]; elsewhere the
    straight-line step and the bound [R] of the radius stand in. *)
#[export] Instance numerics : Numerics State float := {|
  steer_advance := fun _ src dst expand_dist =>
    let vec := zip_with PrimFloat.sub dst src in
    zip_with PrimFloat.add src
             (map (fun x => x * (expand_dist / norm vec)) vec);
  near_radius := fun R num_node _ =>
    if Nat.eqb num_node 1 then R * 0 else R
|}.

End Binary64.

(** ** Laws of NaN-free arithmetic

    What the theorems on costs and distances assume of [double]: [<] is a
    strict order, [<=] its complement in the other direction and
    transitive, [==] agrees with [<], and adding a non-negative number does
    not decrease. *)

Class ArithLaws (D : Type) {AD : Arith D} : Prop := {
  dltb_irrefl : forall a, dltb a a = false;
  dltb_trans : forall a b c,
      dltb a b = true -> dltb b c = true -> dltb a c = true;
  dleb_ltb : forall a b, dleb a b = negb (dltb b a);
  dleb_trans : forall a b c,
      dleb a b = true -> dleb b c = true -> dleb a c = true;
  deqb_refl : forall a, deqb a a = true;
  dltb_neq : forall a b, dltb a b = true -> deqb a b = false;
  dadd_increases : forall a d, dleb dzero d = true -> dleb a (dadd a d) = true
}.

Arguments ArithLaws D {AD}.

(** What they assume of [State]: a distance is non-negative and symmetric,
    and [==] is equality of states. *)
Class StateLaws (State D : Type) {AD : Arith D} {SO : StateOps State D}
  : Prop := {
  distanceFrom_nonneg : forall a b, dleb dzero (distanceFrom a b) = true;
  distanceFrom_sym : forall a b, distanceFrom a b = distanceFrom b a;
  state_eqb_eq : forall a b, state_eqb a b = true -> a = b
}.

Arguments StateLaws State D {AD SO}.

(** ** Exact: the planners on rational numbers

    Arithmetic without rounding, in which the laws above hold; numbers are
    kept in lowest terms. *)

Module Exact.

Local Open Scope Q_scope.

#[export] Instance arith : Arith Q := {|
  dzero := 0;
  done := 1;
  dtenth := 1 # 10;
  dmax := inject_Z (2 ^ 1024 - 2 ^ 971);
  dadd := fun a b => Qred (a + b);
  dltb := fun a b => negb (Qle_bool b a);
  dleb := Qle_bool;
  deqb := Qeq_bool
|}.

(** Modelled from the spec: [State], as in [Binary64.State]. *)
Definition State := list Q.

Fixpoint zip_with (f : Q -> Q -> Q) (a b : State) : State :=
  match a, b with
  | x :: a', y :: b' => Qred (f x y) :: zip_with f a' b'
  | _, _ => []
  end.

Fixpoint sqdist (a b : State) : Q :=
  match a, b with
  | x :: a', y :: b' => (x - y) * (x - y) + sqdist a' b'
  | _, _ => 0
  end.

(** The square root of a rational square (rounded down otherwise). *)
Definition Qsqrt (q : Q) : Q :=
  Qred (Z.sqrt (Qnum q * Zpos (Qden q)) # Qden q).

Definition Q_eqb (x y : Q) : bool :=
  Z.eqb (Qnum x) (Qnum y) && Pos.eqb (Qden x) (Qden y).

Fixpoint eqb (a b : State) : bool :=
  match a, b with
  | [], [] => true
  | x :: a', y :: b' => Q_eqb x y && eqb a' b'
  | _, _ => false
  end.

#[export] Instance state_ops : StateOps State Q := {|
  getDim := @length Q;
  distanceFrom := fun a b => Qsqrt (Qred (sqdist a b));
  state_eqb := eqb;
  state_add := zip_with Qplus;
  state_sub := zip_with Qminus;
  state_mul := fun a s => map (fun x => Qred (x * s)) a
|}.

(** The world of [Binary64.wall]. *)
Definition xcoord (a : State) : Q := hd 0 a.

Definition in_wall (a : State) : bool :=
  Qle_bool (3 # 4) (xcoord a) && Qle_bool (xcoord a) (5 # 4).

Definition same_side (a b : State) : bool :=
  (negb (Qle_bool (3 # 4) (xcoord a)) && negb (Qle_bool (3 # 4) (xcoord b)))
  || (negb (Qle_bool (xcoord a) (5 # 4)) && negb (Qle_bool (xcoord b) (5 # 4))).

#[export] Instance wall : Constraint State := {|
  space_getDim := 2;
  checkConstraintType := fun a => if in_wall a then NOENTRY else FREE;
  checkCollision := same_side
|}.

(** The straight-line step that the angular loop computes, and [R / 2]
    for the radius of a tree of several nodes (zero for one node), which
    is irrational. *)
#[export] Instance numerics : Numerics State Q := {|
  steer_advance := fun _ src dst expand_dist =>
    let vec := zip_with Qminus dst src in
    zip_with Qplus src
             (map (fun x => Qred (x * (expand_dist / Qsqrt (Qred (sqdist dst src)))))
                  vec);
  near_radius := fun R num_node _ =>
    if Nat.eqb num_node 1 then 0 else Qred (R / 2)
|}.

End Exact.

(** ** Reference definitions

    The naive choice of a parent that [chooseParentNode] is compared with,
    and the predicates on a node list that the invariants speak of. *)

Section Reference.

Context {D State : Type} {AD : Arith D} {SO : StateOps State D}
        {CN : Constraint State}.

(** The first element of least key: an element replaces the current
    choice only when its key is strictly less. *)
Fixpoint argmin_first {A} (key : A -> D) (l : list A) : option A :=
  match l with
  | [] => None
  | x :: l' =>
      match argmin_first key l' with
      | None => Some x
      | Some y => if dltb (key y) (key x) then Some y else Some x
      end
  end.

(** [node_list[i]] for every near index, in order. *)
Fixpoint lookup_all (node_list : list (InformedRRTStar.Node D State))
         (near_node_indexes : list nat)
  : res (list (nat * InformedRRTStar.Node D State)) :=
  match near_node_indexes with
  | [] => Ok []
  | i :: rest =>
      n <- at_index node_list i ;;
      ns <- lookup_all node_list rest ;;
      Ok ((i, n) :: ns)
  end.

(** The cost of reaching [target_node] through the node [n]. *)
Definition cost_via (target_node n : InformedRRTStar.Node D State) : D :=
  dadd (InformedRRTStar.cost n)
       (distanceFrom (InformedRRTStar.state target_node)
                     (InformedRRTStar.state n)).

(** One round of the loop of chooseParentNode, on a near node already
    looked up. *)
Definition chooseParentNode_round
           (target_node : InformedRRTStar.Node D State)
           (acc : option nat * D) (x : nat * InformedRRTStar.Node D State)
  : option nat * D :=
  if dltb (cost_via target_node (snd x)) (snd acc)
  then if checkCollision (InformedRRTStar.state target_node)
                         (InformedRRTStar.state (snd x))
       then (Some (fst x), cost_via target_node (snd x))
       else acc
  else acc.

(** The naive reference: keep the near nodes that pass checkCollision,
    then take the one of least cost (the first on ties); with none, the
    node is returned unchanged. *)
Definition chooseParentNode_naive
           (target_node : InformedRRTStar.Node D State)
           (node_list : list (InformedRRTStar.Node D State))
           (near_node_indexes : list nat)
  : res (InformedRRTStar.Node D State) :=
  near <- lookup_all node_list near_node_indexes ;;
  let admitted :=
    filter (fun x => checkCollision (InformedRRTStar.state target_node)
                                    (InformedRRTStar.state (snd x)))
           near in
  match argmin_first (fun x => cost_via target_node (snd x)) admitted with
  | Some (i, n) =>
      Ok (InformedRRTStar.mkNode (InformedRRTStar.state target_node)
                                 (Some i) (cost_via target_node n))
  | None => Ok target_node
  end.

(** The node reached from [i] after [k] parent links, if the walk does
    not stop before. *)
Fixpoint ancestor (node_list : list (InformedRRTStar.Node D State))
         (k i : nat) : option nat :=
  match k with
  | O => Some i
  | S k' =>
      match nth_error node_list i with
      | Some n =>
          match InformedRRTStar.parent n with
          | Some p => ancestor node_list k' p
          | None => None
          end
      | None => None
      end
  end.

(** Exactly one node has a null parent, the one at index 0. *)
Definition one_root (node_list : list (InformedRRTStar.Node D State))
  : Prop :=
  (exists r, nth_error node_list 0 = Some r
             /\ InformedRRTStar.parent r = None)
  /\ (forall i n, nth_error node_list i = Some n -> i <> 0 ->
                  InformedRRTStar.parent n <> None).

(** From every node the parent links lead to the root in at most as many
    steps as there are nodes. *)
Definition reaches_root (node_list : list (InformedRRTStar.Node D State))
  : Prop :=
  forall i, i < length node_list ->
            exists k, k <= length node_list
                      /\ ancestor node_list k i = Some 0.

(** Every parent is a node of the list and costs no more than its
    child. *)
Definition cost_ordered (node_list : list (InformedRRTStar.Node D State))
  : Prop :=
  forall i n p,
    nth_error node_list i = Some n -> InformedRRTStar.parent n = Some p ->
    exists m, nth_error node_list p = Some m
              /\ dleb (InformedRRTStar.cost m) (InformedRRTStar.cost n)
                 = true.

(** From every node the parent links lead to the root. *)
Definition rooted (node_list : list (InformedRRTStar.Node D State)) : Prop :=
  forall i, i < length node_list ->
            exists k, ancestor node_list k i = Some 0.

(** The segment between two states passed checkCollision, called with
    its ends in one order or the other. *)
Definition segment_checked (a b : State) : Prop :=
  checkCollision a b = true \/ checkCollision b a = true.

(** Every parent is a node of the list, and the segment to its child was
    checked. *)
Definition edges_checked (node_list : list (InformedRRTStar.Node D State))
  : Prop :=
  forall i n q,
    nth_error node_list i = Some n -> InformedRRTStar.parent n = Some q ->
    exists m, nth_error node_list q = Some m
              /\ segment_checked (InformedRRTStar.state m)
                                 (InformedRRTStar.state n).

(** The invariant of the sampling loop. *)
Definition tree_inv (node_list : list (InformedRRTStar.Node D State))
  : Prop :=
  one_root node_list /\ cost_ordered node_list /\ rooted node_list.

End Reference.

(** ** Reference definitions for RRT *)

Section ReferenceRRT.

Context {D State : Type} {AD : Arith D} {SO : StateOps State D}
        {CN : Constraint State}.

(** A round counts against [max_sampling_num_] when its sample is not
    sent back by [continue]. *)
Definition counted (p : RRT.t D State) (goal : State)
           (d : RRT.Draw D State) : bool :=
  match RRT.sample_node p goal d with
  | Some _ => true
  | None => false
  end.

(** The counter [ratio_i] of checkCollision leaves [[0, 1)] within
    [fuel] rounds. *)
Fixpoint ratio_leaves (fuel : nat) (ratio_i : D) : bool :=
  if dltb ratio_i done
  then match fuel with
       | O => false
       | S fuel' => ratio_leaves fuel' (dadd ratio_i dtenth)
       end
  else true.

(** In the node list of RRT every parent was appended before its
    child. *)
Definition parents_below (node_list : list (RRT.Node State)) : Prop :=
  forall i n q, nth_error node_list i = Some n -> RRT.parent n = Some q ->
                q < i.

(** The sampled check of RRT on the segment between two states. *)
Definition rrt_segment_checked (a b : State) : Prop :=
  RRT.checkCollision (RRT.mkNode a None) (RRT.mkNode b None) = Ok true.

(** Every parent is a node of the list, and the segment to its child
    passed RRT::checkCollision. *)
Definition rrt_edges_checked (node_list : list (RRT.Node State)) : Prop :=
  forall i n q,
    nth_error node_list i = Some n -> RRT.parent n = Some q ->
    exists m, nth_error node_list q = Some m
              /\ rrt_segment_checked (RRT.state m) (RRT.state n).

End ReferenceRRT.

(** ** Runs on binary64 *)

Module Runs64.

Import Binary64.
Local Open Scope float_scope.

Definition origin : State := [0; 0].

(** RRT with a budget of one round and [expand_dist = 1]. *)
Definition rrt1 : RRT.t float State := RRT.mk 1%Z 0 1 [].


(** A sample on the near side of the wall, half-way to it. *)
Definition near_wall : RRT.Draw float State := RRT.mkDraw 0.5 [0.5; 0].

Definition quarter : RRT.Draw float State := RRT.mkDraw 0.5 [0.25; 0].


(** A sample inside the wall. *)
Definition in_the_wall : RRT.Draw float State := RRT.mkDraw 0.5 [1; 0].

(** A goal behind the wall, and goals before it. *)
Definition behind_wall : State := [1.5; 0].
Definition before_wall : State := [0.5; 0].
Definition far_away : State := [10; 0].

(** Informed RRT* with one round, [expand_dist = 1.5], [R = 10] and
    [goal_region_radius = 0.125]. *)
Definition star1 : InformedRRTStar.t float State :=
  InformedRRTStar.mk 1%nat 0 1.5 10 0.125 [] 0 [].

Definition star_near_wall : InformedRRTStar.Draw float State :=
  InformedRRTStar.mkDraw 0.5 [0.5; 0] [0; 0].

(** [rrt1] after a solve from [origin] to [before_wall]. *)
Definition rrt1_solved : RRT.t float State :=
  RRT.mk 1%Z 0 1 [origin; [0.25; 0]; before_wall].

End Runs64.

(** ** Runs on rational numbers *)

Module RunsExact.

Import Exact.
Local Open Scope Q_scope.

(** Behind the wall: a 3-4-5 triangle [a], [b], [c] and the middle [e]
    of its long side. *)
Definition a : State := [2; 0].
Definition b : State := [2; 4].
Definition c : State := [5; 4].
Definition e : State := [7 # 2; 2].

(** Informed RRT* with three rounds, [expand_dist = 9/2], [R = 9] and
    [goal_region_radius = 1/10]. *)
Definition star3 : InformedRRTStar.t Q State :=
  InformedRRTStar.mk 3%nat 0 (9 # 2) 9 (1 # 10) [] 0 [].

(** The draws: [b], then [c], then (a goal node being known) the
    informed sample [e]. *)
Definition star_draws : list (InformedRRTStar.Draw Q State) :=
  [InformedRRTStar.mkDraw (1 # 2) b a;
   InformedRRTStar.mkDraw (1 # 2) c a;
   InformedRRTStar.mkDraw (1 # 2) a e].

(** The tree of the three rounds: [c] first hangs under [b] and is
    rewired under [e], appended after it. *)
Definition star_tree : list (InformedRRTStar.Node Q State) :=
  [InformedRRTStar.mkNode a None 0;
   InformedRRTStar.mkNode b (Some 0%nat) 4;
   InformedRRTStar.mkNode c (Some 3%nat) 5;
   InformedRRTStar.mkNode e (Some 0%nat) (5 # 2)].

(** The tree after two rounds with [c] still under [b], the candidate
    [c] as steered from [b], and the tree of three rounds before [c] is
    rewired. *)
Definition tree_ab : list (InformedRRTStar.Node Q State) :=
  [InformedRRTStar.mkNode a None 0;
   InformedRRTStar.mkNode b (Some 0%nat) 4].

Definition steered_c : InformedRRTStar.Node Q State :=
  InformedRRTStar.mkNode c (Some 1%nat) 7.

Definition tree_before_rewire : list (InformedRRTStar.Node Q State) :=
  [InformedRRTStar.mkNode a None 0;
   InformedRRTStar.mkNode b (Some 0%nat) 4;
   InformedRRTStar.mkNode c (Some 1%nat) 7;
   InformedRRTStar.mkNode e (Some 0%nat) (5 # 2)].

(** The planner after the solve from [a] to [c]. *)
Definition star3_solved : InformedRRTStar.t Q State :=
  InformedRRTStar.mk 3%nat 0 (9 # 2) 9 (1 # 10) [a; e; c] 5 star_tree.

(** Informed RRT* without a round, holding the path of an earlier solve,
    and the same after a failed solve. *)
Definition star0 : InformedRRTStar.t Q State :=
  InformedRRTStar.mk 0%nat 0 (9 # 2) 9 (1 # 10) [a; e; c] 5 star_tree.

Definition star0_failed : InformedRRTStar.t Q State :=
  InformedRRTStar.mk 0%nat 0 (9 # 2) 9 (1 # 10) [] 5 star_tree.

(** RRT with a budget of two rounds and [expand_dist = 1]. *)
Definition rrt2 : RRT.t Q State := RRT.mk 2%Z 0 1 [].

Definition rrt_goal : State := [7 # 2; 0].
Definition rrt_far : State := [10; 0].

Definition step_half : RRT.Draw Q State := RRT.mkDraw (1 # 2) [5 # 2; 0].
Definition step_one : RRT.Draw Q State := RRT.mkDraw (1 # 2) [3; 0].
Definition in_the_wall : RRT.Draw Q State := RRT.mkDraw (1 # 2) [1; 0].

Definition rrt2_solved : RRT.t Q State :=
  RRT.mk 2%Z 0 1 [a; [5 # 2; 0]; rrt_goal].

End RunsExact.

(** ** Reference definitions for the scans *)

Section ReferenceScans.

Context {D State : Type} {AD : Arith D} {SO : StateOps State D}
        {CN : Constraint State}.

(** The scan of getNearestNodeIndex on the distances of the nodes: the
    index of the first distance strictly below all before it and below
    [min_dist]. *)
Fixpoint nearest_scan (ds : list D) (i min_dist_index : nat) (min_dist : D)
  : nat :=
  match ds with
  | [] => min_dist_index
  | dist :: ds' =>
      if dltb dist min_dist
      then nearest_scan ds' (S i) i dist
      else nearest_scan ds' (S i) min_dist_index min_dist
  end.

(** The values that [ratio_i] takes in the loop of RRT::checkCollision. *)
Fixpoint ratio_points (fuel : nat) (ratio_i : D) : list D :=
  if dltb ratio_i done
  then match fuel with
       | O => []
       | S fuel' => ratio_i :: ratio_points fuel' (dadd ratio_i dtenth)
       end
  else [].

(** The point of the segment from [src] along [vec] at [ratio_i] is not
    NOENTRY. *)
Definition point_free (src vec : State) (ratio_i : D) : bool :=
  negb (is_NOENTRY (checkConstraintType
                      (state_add src (state_mul vec ratio_i)))).

End ReferenceScans.

(** ** Reference definitions for sequences of calls

    The calls of the public interface that write members of a planner,
    and the planner after a sequence of them.  A call that throws leaves
    the object as it was: the setters throw before they assign, and
    solve writes its members after the last call that can throw. *)

Section ReferenceCalls.

Context {D State : Type} {AD : Arith D} {SO : StateOps State D}
        {CN : Constraint State} {NM : Numerics State D}.

Inductive rrt_call :=
| rrt_setMaxSamplingNum (max_sampling_num : Z)
| rrt_setGoalSamplingRate (goal_sampling_rate : D)
| rrt_setExpandDist (expand_dist : D)
| rrt_solve (start goal : State) (draws : list (RRT.Draw D State)).

Definition rrt_run (p : RRT.t D State) (c : rrt_call)
  : res (RRT.t D State) :=
  match c with
  | rrt_setMaxSamplingNum max_sampling_num =>
      Ok (RRT.setMaxSamplingNum p max_sampling_num)
  | rrt_setGoalSamplingRate goal_sampling_rate =>
      RRT.setGoalSamplingRate p goal_sampling_rate
  | rrt_setExpandDist expand_dist => Ok (RRT.setExpandDist p expand_dist)
  | rrt_solve start goal draws =>
      r <- RRT.solve p start goal draws ;; Ok (snd r)
  end.

(** The planner after a call that returned or threw; [None] for a call
    that does not come back. *)
Definition rrt_after (p : RRT.t D State) (c : rrt_call)
  : option (RRT.t D State) :=
  match rrt_run p c with
  | Ok p' => Some p'
  | Throw _ => Some p
  | _ => None
  end.

Fixpoint rrt_after_calls (p : RRT.t D State) (cs : list rrt_call)
  : option (RRT.t D State) :=
  match cs with
  | [] => Some p
  | c :: cs' =>
      match rrt_after p c with
      | Some p' => rrt_after_calls p' cs'
      | None => None
      end
  end.

Inductive star_call :=
| star_setMaxSamplingNum (max_sampling_num : nat)
| star_setGoalSamplingRate (goal_sampling_rate : D)
| star_setExpandDist (expand_dist : D)
| star_setR (R : D)
| star_setGoalRegionRadius (goal_region_radius : D)
| star_solve (start goal : State)
             (draws : list (InformedRRTStar.Draw D State)).

Definition star_run (p : InformedRRTStar.t D State) (c : star_call)
  : res (InformedRRTStar.t D State) :=
  match c with
  | star_setMaxSamplingNum max_sampling_num =>
      Ok (InformedRRTStar.setMaxSamplingNum p max_sampling_num)
  | star_setGoalSamplingRate goal_sampling_rate =>
      InformedRRTStar.setGoalSamplingRate p goal_sampling_rate
  | star_setExpandDist expand_dist =>
      Ok (InformedRRTStar.setExpandDist p expand_dist)
  | star_setR R => Ok (InformedRRTStar.setR p R)
  | star_setGoalRegionRadius goal_region_radius =>
      Ok (InformedRRTStar.setGoalRegionRadius p goal_region_radius)
  | star_solve start goal draws =>
      r <- InformedRRTStar.solve p start goal draws ;; Ok (snd r)
  end.

Definition star_after (p : InformedRRTStar.t D State) (c : star_call)
  : option (InformedRRTStar.t D State) :=
  match star_run p c with
  | Ok p' => Some p'
  | Throw _ => Some p
  | _ => None
  end.

Fixpoint star_after_calls (p : InformedRRTStar.t D State)
         (cs : list star_call) : option (InformedRRTStar.t D State) :=
  match cs with
  | [] => Some p
  | c :: cs' =>
      match star_after p c with
      | Some p' => star_after_calls p' cs'
      | None => None
      end
  end.

(** [0.0 <= goal_sampling_rate && goal_sampling_rate <= 1.0]. *)
Definition rate_in_range (goal_sampling_rate : D) : bool :=
  dleb dzero goal_sampling_rate && dleb goal_sampling_rate done.

End ReferenceCalls.

Arguments rrt_call : clear implicits.
Arguments star_call : clear implicits.

(** * Theorems *)

Unset Implicit Arguments.

(** ** Order facts *)

Section Order.

Context {D : Type} {AD : Arith D} {AL : ArithLaws D}.

Lemma dleb_refl (a : D) : dleb a a = true.
Proof. rewrite dleb_ltb, dltb_irrefl. reflexivity. Qed.

Lemma dltb_asym (a b : D) : dltb a b = true -> dltb b a = false.
Proof.
  intros Hab. destruct (dltb b a) eqn:Hba; [|reflexivity].
  rewrite <- (dltb_irrefl a). symmetry. exact (dltb_trans _ _ _ Hab Hba).
Qed.

Lemma dltb_dleb (a b : D) : dltb a b = true -> dleb a b = true.
Proof. intros H. rewrite dleb_ltb, (dltb_asym _ _ H). reflexivity. Qed.

Lemma dleb_false (a b : D) : dleb a b = false -> dltb b a = true.
Proof. rewrite dleb_ltb. destruct (dltb b a); simpl; congruence. Qed.

Lemma dltb_false (a b : D) : dltb a b = false -> dleb b a = true.
Proof. intros H. rewrite dleb_ltb, H. reflexivity. Qed.

Lemma dleb_dltb_false (a b : D) : dleb a b = true -> dltb b a = false.
Proof. rewrite dleb_ltb. destruct (dltb b a); simpl; congruence. Qed.

Lemma dltb_dleb_trans (a b c : D) :
  dltb a b = true -> dleb b c = true -> dltb a c = true.
Proof.
  intros Hab Hbc. destruct (dltb a c) eqn:Hac; [reflexivity|].
  apply dltb_false in Hac.
  pose proof (dleb_trans _ _ _ Hbc Hac) as Hba.
  apply dleb_dltb_false in Hba. congruence.
Qed.

Lemma dleb_dltb_trans (a b c : D) :
  dleb a b = true -> dltb b c = true -> dltb a c = true.
Proof.
  intros Hab Hbc. destruct (dltb a c) eqn:Hac; [reflexivity|].
  apply dltb_false in Hac.
  pose proof (dleb_trans _ _ _ Hac Hab) as Hcb.
  apply dleb_dltb_false in Hcb. congruence.
Qed.

Lemma dadd_nonneg (a d : D) :
  dleb dzero a = true -> dleb dzero d = true -> dleb dzero (dadd a d) = true.
Proof.
  intros Ha Hd. exact (dleb_trans _ _ _ Ha (dadd_increases a d Hd)).
Qed.

End Order.

(** ** Vectors *)

Section Vectors.

Context {A : Type}.

Lemma at_index_Ok (v : list A) (i : nat) (a : A) :
  at_index v i = Ok a <-> nth_error v i = Some a.
Proof.
  unfold at_index. destruct (nth_error v i); split; intros H;
    inversion H; reflexivity.
Qed.

Lemma at_index_lt (v : list A) (i : nat) :
  i < length v -> exists a, at_index v i = Ok a.
Proof.
  intros H. unfold at_index.
  destruct (nth_error v i) eqn:E; [eauto|].
  apply nth_error_None in E. lia.
Qed.

Lemma set_index_length (v : list A) (i : nat) (a : A) :
  length (set_index v i a) = length v.
Proof.
  revert i. induction v as [|x v IH]; intros [|i]; simpl; auto.
Qed.

Lemma set_index_same (v : list A) (i : nat) (a : A) :
  i < length v -> nth_error (set_index v i a) i = Some a.
Proof.
  revert i. induction v as [|x v IH]; intros [|i]; simpl; intros H;
    try lia; auto. apply IH. lia.
Qed.

Lemma set_index_other (v : list A) (i j : nat) (a : A) :
  j <> i -> nth_error (set_index v i a) j = nth_error v j.
Proof.
  revert i j. induction v as [|x v IH]; intros [|i] [|j]; simpl; intros H;
    try congruence; auto.
Qed.

End Vectors.

(** Inversion of a [bind] that returned. *)
Lemma bind_Ok {A B} (m : res A) (f : A -> res B) (b : B) :
  bind m f = Ok b -> exists a, m = Ok a /\ f a = Ok b.
Proof. destruct m; simpl; intros H; try discriminate. eauto. Qed.

Ltac inv_bind H :=
  let a := fresh "a" in
  let Ha := fresh "Ha" in
  apply bind_Ok in H; destruct H as (a & Ha & H).

Tactic Notation "bind_inv" hyp(H) "as" ident(a) ident(Ha) :=
  apply bind_Ok in H; destruct H as (a & Ha & H).

(** ** Steering *)

Section Steering.

Context {D State : Type} {AD : Arith D} {SO : StateOps State D}
        {CN : Constraint State} {NM : Numerics State D}.

(** C5: a target nearer than [expand_dist] is reached and costs its
    distance more than the source; otherwise the cost grows by
    [expand_dist]; the parent of the steered node is the source, in
    Informed RRT* and (for state and parent, its nodes having no cost) in
    RRT. *)
Theorem generateSteerNode_spec :
  forall (src_ptr : nat) (src_node dst_node : InformedRRTStar.Node D State)
         (rsrc_node rdst_node : RRT.Node State) (expand_dist : D),
    let dist := distanceFrom (InformedRRTStar.state src_node)
                             (InformedRRTStar.state dst_node) in
    let steered :=
      InformedRRTStar.generateSteerNode src_ptr src_node dst_node
                                        expand_dist in
    let rsteered :=
      RRT.generateSteerNode src_ptr rsrc_node rdst_node expand_dist in
    (dltb dist expand_dist = true ->
     InformedRRTStar.state steered = InformedRRTStar.state dst_node
     /\ InformedRRTStar.cost steered
        = dadd (InformedRRTStar.cost src_node) dist)
    /\ (dltb dist expand_dist = false ->
        InformedRRTStar.cost steered
        = dadd (InformedRRTStar.cost src_node) expand_dist)
    /\ InformedRRTStar.parent steered = Some src_ptr
    /\ (dltb (distanceFrom (RRT.state rsrc_node) (RRT.state rdst_node))
             expand_dist = true ->
        RRT.state rsteered = RRT.state rdst_node)
    /\ RRT.parent rsteered = Some src_ptr.
Proof.
  intros src_ptr src_node dst_node rsrc_node rdst_node expand_dist.
  cbv zeta.
  unfold InformedRRTStar.generateSteerNode, RRT.generateSteerNode.
  split; [|split; [|split; [|split]]].
  - intros H. rewrite H. split; reflexivity.
  - intros H. rewrite H. reflexivity.
  - destruct (dltb _ expand_dist); reflexivity.
  - intros H. rewrite H. reflexivity.
  - destruct (dltb _ expand_dist); reflexivity.
Qed.

End Steering.

(** ** Choosing a parent *)

Section ChooseParent.

Context {D State : Type} {AD : Arith D} {SO : StateOps State D}
        {CN : Constraint State} {AL : ArithLaws D}.

Local Abbreviation Node := (InformedRRTStar.Node D State).
Local Abbreviation state := InformedRRTStar.state.
Local Abbreviation cost := InformedRRTStar.cost.
Local Abbreviation parent := InformedRRTStar.parent.

Variable target_node : Node.
Variable node_list : list Node.

(** The loop keeps its pair, which then bounds every admitted cost from
    below, or ends on an admitted near node of least cost, strictly below
    the cost it started from. *)
Lemma chooseParentNode_loop_spec (near : list nat) :
  forall p0 c0 p c,
    InformedRRTStar.chooseParentNode_loop target_node node_list near (p0, c0)
    = Ok (p, c) ->
    ((p, c) = (p0, c0)
     /\ forall j m, In j near -> nth_error node_list j = Some m ->
                    checkCollision (state target_node) (state m) = true ->
                    dleb c0 (cost_via target_node m) = true)
    \/ (exists i n,
           In i near /\ nth_error node_list i = Some n
           /\ checkCollision (state target_node) (state n) = true
           /\ p = Some i /\ c = cost_via target_node n
           /\ dltb c c0 = true
           /\ forall j m, In j near -> nth_error node_list j = Some m ->
                          checkCollision (state target_node) (state m) = true ->
                          dleb c (cost_via target_node m) = true).
Proof.
  induction near as [|i rest IH]; intros p0 c0 p c H; simpl in H.
  - inversion H; subst. left. split; [reflexivity|]. intros j m [].
  - inv_bind H. apply at_index_Ok in Ha. cbv zeta in H. simpl snd in H.
    fold (cost_via target_node a) in H.
    destruct (dltb (cost_via target_node a) c0) eqn:Hlt;
      [destruct (checkCollision (state target_node) (state a)) eqn:Hcc|].
    + (* the head improves the pair *)
      apply IH in H. destruct H as [[Heq Hmin] | (i' & n' & Hin & Hn & Hc & Hp & Hcost & Hlt' & Hmin)].
      * inversion Heq; subst. right. exists i, a.
        repeat (split; [solve [auto | left; reflexivity]|]).
        intros j m [Hj | Hj] Hm Hcm.
        -- subst j. rewrite Ha in Hm. inversion Hm; subst. apply dleb_refl.
        -- eauto.
      * right. exists i', n'.
        split; [right; exact Hin|].
        repeat (split; [assumption|]).
        split; [subst c; exact (dltb_trans _ _ _ Hlt' Hlt)|].
        intros j m [Hj | Hj] Hm Hcm.
        -- subst j. rewrite Ha in Hm. inversion Hm; subst m.
           apply dltb_dleb. subst c. exact Hlt'.
        -- eauto.
    + (* the head fails checkCollision *)
      apply IH in H. destruct H as [[Heq Hmin] | (i' & n' & Hin & Hn & Hc & Hp & Hcost & Hlt' & Hmin)].
      * left. split; [assumption|].
        intros j m [Hj | Hj] Hm Hcm.
        -- subst j. rewrite Ha in Hm. inversion Hm; subst m. congruence.
        -- eauto.
      * right. exists i', n'.
        split; [right; exact Hin|].
        repeat (split; [assumption|]).
        intros j m [Hj | Hj] Hm Hcm.
        -- subst j. rewrite Ha in Hm. inversion Hm; subst m. congruence.
        -- eauto.
    + (* the head does not improve the cost *)
      apply IH in H. destruct H as [[Heq Hmin] | (i' & n' & Hin & Hn & Hc & Hp & Hcost & Hlt' & Hmin)].
      * left. split; [assumption|].
        intros j m [Hj | Hj] Hm Hcm.
        -- subst j. rewrite Ha in Hm. inversion Hm; subst m.
           apply dltb_false. exact Hlt.
        -- eauto.
      * right. exists i', n'.
        split; [right; exact Hin|].
        repeat (split; [assumption|]).
        intros j m [Hj | Hj] Hm Hcm.
        -- subst j. rewrite Ha in Hm. inversion Hm; subst m.
           apply dltb_dleb.
           apply dltb_dleb_trans with (b := c0); [assumption|].
           apply dltb_false. exact Hlt.
        -- eauto.
Qed.

(** C6: chooseParentNode gives the candidate the parent and cost of a
    near node of least [cost + dist] among those that pass
    checkCollision, and returns it unchanged when none passes or there is
    no near index.  Costs are finite: below the [max()] the loop starts
    from. *)
Theorem chooseParentNode_spec {SL : StateLaws State D}
        (near : list nat) (chosen : Node) :
  (forall i n, In i near -> nth_error node_list i = Some n ->
               dltb (dadd (cost n)
                          (distanceFrom (state n) (state target_node)))
                    dmax = true) ->
  InformedRRTStar.chooseParentNode target_node node_list near = Ok chosen ->
  state chosen = state target_node
  /\ ((forall i n, In i near -> nth_error node_list i = Some n ->
                   checkCollision (state target_node) (state n) = false) ->
      chosen = target_node)
  /\ ((exists i n, In i near /\ nth_error node_list i = Some n
                   /\ checkCollision (state target_node) (state n) = true) ->
      exists i n,
        In i near /\ nth_error node_list i = Some n
        /\ checkCollision (state target_node) (state n) = true
        /\ parent chosen = Some i
        /\ cost chosen
           = dadd (cost n) (distanceFrom (state n) (state target_node))
        /\ forall j m,
            In j near -> nth_error node_list j = Some m ->
            checkCollision (state target_node) (state m) = true ->
            dleb (cost chosen)
                 (dadd (cost m)
                       (distanceFrom (state m) (state target_node)))
            = true).
Proof.
  intros Hfin H. unfold InformedRRTStar.chooseParentNode in H.
  inv_bind H. destruct a as [p c]. simpl fst in H. simpl snd in H.
  assert (Hvia : forall m, dadd (cost m)
                                (distanceFrom (state m) (state target_node))
                           = cost_via target_node m).
  { intros m. unfold cost_via. rewrite distanceFrom_sym. reflexivity. }
  apply chooseParentNode_loop_spec in Ha.
  destruct Ha as [[Heq Hmin] | (i & n & Hin & Hn & Hc & Hp & Hcost & Hlt & Hmin)].
  - inversion Heq; subst p c. rewrite deqb_refl in H. simpl in H.
    inversion H; subst chosen. split; [reflexivity|]. split; [auto|].
    intros (i & n & Hin & Hn & Hc). exfalso.
    specialize (Hmin i n Hin Hn Hc). specialize (Hfin i n Hin Hn).
    rewrite Hvia in Hfin. apply dleb_dltb_false in Hmin. congruence.
  - rewrite (dltb_neq _ _ Hlt) in H. simpl in H.
    inversion H; subst chosen. simpl. split; [reflexivity|]. split.
    + intros Hnone. specialize (Hnone i n Hin Hn). congruence.
    + intros _. exists i, n. rewrite Hvia.
      repeat (split; [assumption|]).
      intros j m Hj Hm Hcm. rewrite Hvia. subst c. eauto.
Qed.

(** *** The lazy loop and the naive reference *)

Lemma lookup_all_In (near : list nat) :
  forall ns i n, lookup_all node_list near = Ok ns -> In (i, n) ns ->
                 In i near /\ nth_error node_list i = Some n.
Proof.
  induction near as [|j rest IH]; intros ns i n H Hin; simpl in H.
  - inversion H; subst. destruct Hin.
  - inv_bind H. inv_bind H. inversion H; subst ns.
    apply at_index_Ok in Ha. destruct Hin as [Heq | Hin].
    + inversion Heq; subst. split; [left; reflexivity|assumption].
    + destruct (IH _ _ _ Ha0 Hin). split; [right|]; assumption.
Qed.

Lemma argmin_first_In {A} (key : A -> D) (l : list A) (x : A) :
  argmin_first key l = Some x -> In x l.
Proof.
  revert x. induction l as [|y l IH]; intros x H; simpl in H;
    [discriminate|].
  destruct (argmin_first key l) as [z|].
  - destruct (dltb (key z) (key y)); inversion H; subst;
      [right; apply IH; reflexivity | left; reflexivity].
  - inversion H. left. reflexivity.
Qed.

(** The reference choice is an element of least key. *)
Lemma argmin_first_least {A} (key : A -> D) (l : list A) (x : A) :
  argmin_first key l = Some x ->
  forall y, In y l -> dleb (key x) (key y) = true.
Proof.
  revert x. induction l as [|z l IH]; intros x H y Hy; simpl in H;
    [discriminate|].
  destruct (argmin_first key l) as [w|] eqn:Hw.
  - destruct (dltb (key w) (key z)) eqn:Hlt; inversion H; subst x.
    + destruct Hy as [<-|Hy]; [apply dltb_dleb; assumption|].
      apply (IH w eq_refl). assumption.
    + destruct Hy as [<-|Hy]; [apply dleb_refl|].
      apply dleb_trans with (b := key w);
        [apply dltb_false; assumption|].
      apply (IH w eq_refl). assumption.
  - inversion H; subst x. destruct l as [|w l'].
    + destruct Hy as [<-|[]]. apply dleb_refl.
    + simpl in Hw. destruct (argmin_first key l');
        [destruct (dltb _ _)|]; discriminate.
Qed.

Local Abbreviation round := (chooseParentNode_round target_node).

Lemma chooseParentNode_loop_fold (near : list nat) :
  forall acc,
    InformedRRTStar.chooseParentNode_loop target_node node_list near acc
    = (ns <- lookup_all node_list near ;; Ok (fold_left round ns acc)).
Proof.
  induction near as [|i rest IH]; intros acc; simpl; [reflexivity|].
  destruct (at_index node_list i) as [n| | | |]; simpl; try reflexivity.
  fold (cost_via target_node n).
  assert (E : forall acc',
             (ns <- (ns0 <- lookup_all node_list rest ;; Ok ((i, n) :: ns0)) ;;
              Ok (fold_left round ns acc'))
             = (ns <- lookup_all node_list rest ;;
                Ok (fold_left round ns (round acc' (i, n))))).
  { intros acc'. destruct (lookup_all node_list rest); reflexivity. }
  rewrite E. unfold chooseParentNode_round at 2. simpl fst. simpl snd.
  destruct (dltb (cost_via target_node n) (snd acc));
    [destruct (checkCollision (state target_node) (state n))|];
    apply IH.
Qed.

Lemma fold_round_argmin (ns : list (nat * Node)) :
  forall p0 c0,
    fold_left round ns (p0, c0)
    = match argmin_first (fun x => cost_via target_node (snd x))
              (filter (fun x => checkCollision (state target_node)
                                               (state (snd x))) ns) with
      | Some (i, n) =>
          if dltb (cost_via target_node n) c0
          then (Some i, cost_via target_node n)
          else (p0, c0)
      | None => (p0, c0)
      end.
Proof.
  induction ns as [|[i n] ns IH]; intros p0 c0; simpl; [reflexivity|].
  unfold chooseParentNode_round at 2. simpl fst. simpl snd.
  destruct (checkCollision (state target_node) (state n)) eqn:Hc; simpl.
  - destruct (dltb (cost_via target_node n) c0) eqn:Hlt; rewrite IH;
      destruct (argmin_first _ _) as [[j m]|]; simpl;
      try rewrite Hlt; try reflexivity.
    + destruct (dltb (cost_via target_node m) (cost_via target_node n))
        eqn:Hmn; simpl.
      * rewrite (dltb_trans _ _ _ Hmn Hlt). reflexivity.
      * rewrite Hlt. reflexivity.
    + destruct (dltb (cost_via target_node m) (cost_via target_node n))
        eqn:Hmn; simpl.
      * reflexivity.
      * rewrite Hlt.
        destruct (dltb (cost_via target_node m) c0) eqn:Hm0;
          [|reflexivity].
        apply dltb_false in Hlt. apply dltb_false in Hmn.
        pose proof (dleb_trans _ _ _ Hlt Hmn) as Hle.
        apply dleb_dltb_false in Hle. congruence.
  - destruct (dltb (cost_via target_node n) c0); apply IH.
Qed.

(** C10: with checkCollision a function of its arguments and costs
    finite, the loop that calls checkCollision only on near nodes that
    improve the running minimum returns what the naive reference does:
    filter every near node by checkCollision, then take the one of least
    cost, the first on ties. *)
Theorem chooseParentNode_lazy_is_naive (near : list nat) :
  (forall i n, In i near -> nth_error node_list i = Some n ->
               dltb (cost_via target_node n) dmax = true) ->
  InformedRRTStar.chooseParentNode target_node node_list near
  = chooseParentNode_naive target_node node_list near.
Proof.
  intros Hfin.
  unfold InformedRRTStar.chooseParentNode, chooseParentNode_naive.
  rewrite chooseParentNode_loop_fold.
  destruct (lookup_all node_list near) as [ns| | | |] eqn:Hns; simpl;
    try reflexivity.
  rewrite fold_round_argmin.
  destruct (argmin_first _ _) as [[i n]|] eqn:Hmin.
  - apply argmin_first_In in Hmin. apply filter_In in Hmin.
    destruct Hmin as [Hin _].
    destruct (lookup_all_In _ _ _ _ Hns Hin) as [Hi Hn].
    specialize (Hfin i n Hi Hn). rewrite Hfin. simpl.
    rewrite (dltb_neq _ _ Hfin). reflexivity.
  - simpl. rewrite deqb_refl. reflexivity.
Qed.

End ChooseParent.

(** ** Rewiring *)

Section Rewire.

Context {D State : Type} {AD : Arith D} {SO : StateOps State D}
        {CN : Constraint State} {AL : ArithLaws D}.

Local Abbreviation Node := (InformedRRTStar.Node D State).
Local Abbreviation state := InformedRRTStar.state.
Local Abbreviation cost := InformedRRTStar.cost.
Local Abbreviation parent := InformedRRTStar.parent.
Local Abbreviation mkNode := InformedRRTStar.mkNode.

(** A round rewires the near node exactly when the cost through the new
    node is strictly less and checkCollision holds, and touches no other
    node. *)
Lemma rewire_step_spec (nl nl' : list Node) (new_ptr i : nat) :
  InformedRRTStar.rewire_step nl new_ptr i = Ok nl' ->
  exists near_node new_node,
    nth_error nl i = Some near_node
    /\ nth_error nl new_ptr = Some new_node
    /\ nl' = if dltb (dadd (cost new_node)
                           (distanceFrom (state near_node) (state new_node)))
                     (cost near_node)
                && checkCollision (state new_node) (state near_node)
             then set_index nl i
                    (mkNode (state near_node) (Some new_ptr)
                       (dadd (cost new_node)
                             (distanceFrom (state near_node)
                                           (state new_node))))
             else nl.
Proof.
  unfold InformedRRTStar.rewire_step. intros H.
  inv_bind H. inv_bind H. apply at_index_Ok in Ha, Ha0.
  exists a, a0. repeat (split; [assumption|]). cbv zeta in H.
  destruct (dltb _ (cost a));
    [destruct (checkCollision (state a0) (state a))|];
    simpl; inversion H; reflexivity.
Qed.

Lemma rewire_step_length (nl nl' : list Node) (new_ptr i : nat) :
  InformedRRTStar.rewire_step nl new_ptr i = Ok nl' ->
  length nl' = length nl.
Proof.
  intros H. apply rewire_step_spec in H.
  destruct H as (a & b & _ & _ & ->).
  destruct (_ && _); [apply set_index_length|reflexivity].
Qed.

Lemma rewire_loop_length (near : list nat) :
  forall (nl nl' : list Node) (new_ptr : nat),
    InformedRRTStar.rewire_loop nl new_ptr near = Ok nl' ->
    length nl' = length nl.
Proof.
  induction near as [|i rest IH]; intros nl nl' new_ptr H; simpl in H.
  - inversion H. reflexivity.
  - inv_bind H. apply IH in H. apply rewire_step_length in Ha. congruence.
Qed.

(** A node after a round is the node before, or one of the same state
    and of strictly smaller cost. *)
Lemma rewire_step_decreases (nl nl' : list Node) (new_ptr i j : nat)
      (n n' : Node) :
  InformedRRTStar.rewire_step nl new_ptr i = Ok nl' ->
  nth_error nl j = Some n -> nth_error nl' j = Some n' ->
  state n' = state n /\ (n' = n \/ dltb (cost n') (cost n) = true).
Proof.
  intros H Hn Hn'. apply rewire_step_spec in H.
  destruct H as (a & b & Ha & Hb & ->).
  destruct (dltb _ (cost a)) eqn:Hlt;
    [destruct (checkCollision (state b) (state a))|]; simpl in Hn';
    try (rewrite Hn in Hn'; inversion Hn'; subst; auto).
  destruct (Nat.eq_dec j i) as [->|Hji].
  - rewrite set_index_same in Hn'
      by (apply nth_error_Some; congruence).
    rewrite Ha in Hn. inversion Hn; inversion Hn'; subst. simpl. auto.
  - rewrite set_index_other in Hn' by assumption.
    rewrite Hn in Hn'. inversion Hn'; subst. auto.
Qed.

Lemma rewire_loop_decreases (near : list nat) :
  forall (nl nl' : list Node) (new_ptr j : nat) (n n' : Node),
    InformedRRTStar.rewire_loop nl new_ptr near = Ok nl' ->
    nth_error nl j = Some n -> nth_error nl' j = Some n' ->
    state n' = state n /\ (n' = n \/ dltb (cost n') (cost n) = true).
Proof.
  induction near as [|i rest IH]; intros nl nl' new_ptr j n n' H Hn Hn';
    simpl in H.
  - inversion H; subst. rewrite Hn in Hn'. inversion Hn'. auto.
  - inv_bind H.
    assert (Hlen : length a = length nl)
      by (eapply rewire_step_length; eassumption).
    destruct (nth_error a j) as [m|] eqn:Hm.
    + destruct (rewire_step_decreases _ _ _ _ _ _ _ Ha Hn Hm) as [Hs1 Hc1].
      destruct (IH _ _ _ _ _ _ H Hm Hn') as [Hs2 Hc2].
      split; [congruence|].
      destruct Hc1 as [->|Hc1]; [assumption|].
      destruct Hc2 as [->|Hc2]; [right; assumption|].
      right. exact (dltb_trans _ _ _ Hc2 Hc1).
    + apply nth_error_None in Hm.
      assert (j < length nl) by (apply nth_error_Some; congruence). lia.
Qed.

Lemma rewire_loop_spec (new_node : Node) (new_ptr : nat) (near : list nat) :
  forall (nl nl' : list Node),
    InformedRRTStar.rewire_loop nl new_ptr near = Ok nl' ->
    NoDup near -> ~ In new_ptr near ->
    nth_error nl new_ptr = Some new_node ->
    forall j n,
      nth_error nl j = Some n ->
      nth_error nl' j
      = Some (if existsb (Nat.eqb j) near
                 && dltb (dadd (cost new_node)
                               (distanceFrom (state n) (state new_node)))
                         (cost n)
                 && checkCollision (state new_node) (state n)
              then mkNode (state n) (Some new_ptr)
                          (dadd (cost new_node)
                                (distanceFrom (state n) (state new_node)))
              else n).
Proof.
  induction near as [|i rest IH]; intros nl nl' H Hnd Hnew Hb j n Hn;
    simpl in H.
  - inversion H; subst. simpl. assumption.
  - inv_bind H. apply rewire_step_spec in Ha.
    destruct Ha as (near_node & new' & Hi & Hb' & Ha).
    rewrite Hb in Hb'. inversion Hb'; subst new'. clear Hb'.
    apply NoDup_cons_iff in Hnd. destruct Hnd as [Hnotin Hnd'].
    assert (Hne : new_ptr <> i) by (intros ->; apply Hnew; left; reflexivity).
    assert (Hnew' : ~ In new_ptr rest) by (intros ?; apply Hnew; right; assumption).
    assert (Hb1 : nth_error a new_ptr = Some new_node).
    { rewrite Ha. destruct (_ && _); [|assumption].
      rewrite set_index_other; assumption. }
    simpl existsb. destruct (Nat.eqb j i) eqn:Hji.
    + apply Nat.eqb_eq in Hji. subst j.
      rewrite Hi in Hn. inversion Hn; subst near_node. simpl orb.
      assert (Hex : existsb (Nat.eqb i) rest = false).
      { destruct (existsb (Nat.eqb i) rest) eqn:E; [|reflexivity].
        apply existsb_exists in E. destruct E as (x & Hx & E).
        apply Nat.eqb_eq in E. subst x. contradiction. }
      assert (Hi1 : nth_error a i
                    = Some (if true
                               && dltb (dadd (cost new_node)
                                         (distanceFrom (state n) (state new_node)))
                                       (cost n)
                               && checkCollision (state new_node) (state n)
                            then mkNode (state n) (Some new_ptr)
                                   (dadd (cost new_node)
                                      (distanceFrom (state n) (state new_node)))
                            else n)).
      { rewrite Ha. simpl andb. destruct (_ && _); [|assumption].
        apply set_index_same. apply nth_error_Some. congruence. }
      rewrite (IH _ _ H Hnd' Hnew' Hb1 _ _ Hi1). rewrite Hex. reflexivity.
    + apply Nat.eqb_neq in Hji. simpl orb.
      apply (IH _ _ H Hnd' Hnew' Hb1).
      rewrite Ha. destruct (_ && _); [|assumption].
      rewrite set_index_other; assumption.
Qed.

(** C7: rewireNearNodes reassigns a near node [i] to [parent = new],
    [cost = new.cost + dist(new.state, tree[i].state)] exactly when that
    cost is strictly less than [tree[i].cost] and checkCollision holds
    (near indexes distinct and below the new node, as findNearNodes gives
    them); and whatever the indexes, a node keeps its state, and keeps
    its cost and parent or gets a strictly smaller cost: no cost
    increases. *)
Theorem rewireNearNodes_spec {SL : StateLaws State D}
        (nl nl' : list Node) (near : list nat) :
  InformedRRTStar.rewireNearNodes nl near = Ok nl' ->
  length nl' = length nl
  /\ (forall j n n',
         nth_error nl j = Some n -> nth_error nl' j = Some n' ->
         state n' = state n
         /\ (n' = n \/ dltb (cost n') (cost n) = true)
         /\ dltb (cost n) (cost n') = false)
  /\ (NoDup near -> ~ In (length nl - 1) near ->
      forall new_node j n,
        nth_error nl (length nl - 1) = Some new_node ->
        nth_error nl j = Some n ->
        let new_cost :=
          dadd (cost new_node)
               (distanceFrom (state new_node) (state n)) in
        nth_error nl' j
        = Some (if existsb (Nat.eqb j) near
                   && dltb new_cost (cost n)
                   && checkCollision (state new_node) (state n)
                then mkNode (state n) (Some (length nl - 1)) new_cost
                else n)).
Proof.
  unfold InformedRRTStar.rewireNearNodes. intros H.
  destruct nl as [|n0 nl0] eqn:Hnl; [discriminate|]. rewrite <- Hnl in *.
  split; [eapply rewire_loop_length; eassumption|]. split.
  - intros j n n' Hn Hn'.
    destruct (rewire_loop_decreases _ _ _ _ _ _ _ H Hn Hn') as [Hs Hc].
    split; [assumption|]. split; [assumption|].
    destruct Hc as [->|Hc]; [apply dltb_irrefl|apply dltb_asym; assumption].
  - intros Hnd Hnew new_node j n Hb Hn. cbv zeta.
    rewrite (distanceFrom_sym (state new_node) (state n)).
    eapply rewire_loop_spec; eassumption.
Qed.

End Rewire.

(** ** The node list is a tree *)

Section Tree.

Context {D State : Type} {AD : Arith D} {SO : StateOps State D}
        {CN : Constraint State} {NM : Numerics State D}
        {AL : ArithLaws D} {SL : StateLaws State D}.

Local Abbreviation Node := (InformedRRTStar.Node D State).
Local Abbreviation state := InformedRRTStar.state.
Local Abbreviation cost := InformedRRTStar.cost.
Local Abbreviation parent := InformedRRTStar.parent.
Local Abbreviation mkNode := InformedRRTStar.mkNode.

(** *** Walks along parent links *)

Lemma ancestor_S (nl : list Node) (k i : nat) (n : Node) (p : nat) :
  nth_error nl i = Some n -> parent n = Some p ->
  ancestor nl (S k) i = ancestor nl k p.
Proof. intros Hn Hp. simpl. rewrite Hn, Hp. reflexivity. Qed.

Lemma ancestor_S_inv (nl : list Node) (k i a : nat) :
  ancestor nl (S k) i = Some a ->
  exists n p, nth_error nl i = Some n /\ parent n = Some p
              /\ ancestor nl k p = Some a.
Proof.
  simpl. destruct (nth_error nl i) as [n|]; [|discriminate].
  destruct (parent n) as [p|] eqn:Hp; [|discriminate].
  intros H. exists n, p. auto.
Qed.

(** An ancestor costs no more than its descendant. *)
Lemma ancestor_cost (nl : list Node) :
  cost_ordered nl ->
  forall k i a n, ancestor nl k i = Some a -> nth_error nl i = Some n ->
                  exists m, nth_error nl a = Some m
                            /\ dleb (cost m) (cost n) = true.
Proof.
  intros Hord. induction k as [|k IH]; intros i a n Ha Hn.
  - inversion Ha; subst a. exists n. split; [assumption|apply dleb_refl].
  - apply ancestor_S_inv in Ha. destruct Ha as (n' & p & Hn' & Hp & Ha).
    rewrite Hn in Hn'. inversion Hn'; subst n'.
    destruct (Hord _ _ _ Hn Hp) as (m & Hm & Hle).
    destruct (IH _ _ _ Ha Hm) as (m' & Hm' & Hle').
    exists m'. split; [assumption|]. exact (dleb_trans _ _ _ Hle' Hle).
Qed.

(** The root is reached after one number of steps only. *)
Lemma depth_unique (nl : list Node) :
  one_root nl ->
  forall k1 k2 i, ancestor nl k1 i = Some 0 -> ancestor nl k2 i = Some 0 ->
                  k1 = k2.
Proof.
  intros [(r & Hr & Hrp) _].
  induction k1 as [|k1 IH]; intros k2 i H1 H2.
  - inversion H1; subst i. destruct k2 as [|k2]; [reflexivity|].
    apply ancestor_S_inv in H2. destruct H2 as (n & p & Hn & Hp & _).
    congruence.
  - apply ancestor_S_inv in H1. destruct H1 as (n & p & Hn & Hp & H1).
    destruct k2 as [|k2].
    + inversion H2; subst i. congruence.
    + apply ancestor_S_inv in H2. destruct H2 as (n' & p' & Hn' & Hp' & H2).
      f_equal. apply (IH k2 p); congruence.
Qed.

(** The nodes on the way to the root are distinct nodes of the list. *)
Lemma chain_to_root (nl : list Node) :
  one_root nl ->
  forall k i, ancestor nl k i = Some 0 ->
    exists l : list nat,
      length l = S k /\ NoDup l
      /\ forall x, In x l ->
                   x < length nl
                   /\ exists d, d <= k /\ ancestor nl d x = Some 0.
Proof.
  intros Hroot. induction k as [|k IH]; intros i H.
  - inversion H; subst i. exists [0]. split; [reflexivity|].
    split; [repeat constructor; intros []|].
    intros x [<-|[]]. split.
    + destruct Hroot as [(r & Hr & _) _]. apply nth_error_Some. congruence.
    + exists 0. split; [lia|reflexivity].
  - pose proof H as H'. apply ancestor_S_inv in H'.
    destruct H' as (n & p & Hn & Hp & Hk).
    destruct (IH _ Hk) as (l & Hlen & Hnd & Hl).
    exists (i :: l). split; [simpl; congruence|]. split.
    + constructor; [|assumption]. intros Hin.
      destruct (Hl _ Hin) as [_ (d & Hd & Hanc)].
      pose proof (depth_unique nl Hroot _ _ _ H Hanc). lia.
    + intros x [<-|Hin].
      * split; [apply nth_error_Some; congruence|].
        exists (S k). split; [lia|assumption].
      * destruct (Hl _ Hin) as [Hx (d & Hd & Hanc)].
        split; [assumption|]. exists d. split; [lia|assumption].
Qed.

Lemma depth_bound (nl : list Node) (k i : nat) :
  one_root nl -> ancestor nl k i = Some 0 -> k < length nl.
Proof.
  intros Hroot H.
  destruct (chain_to_root nl Hroot k i H) as (l & Hlen & Hnd & Hl).
  assert (Hincl : incl l (seq 0 (length nl))).
  { intros x Hx. apply in_seq. destruct (Hl x Hx). lia. }
  pose proof (NoDup_incl_length Hnd Hincl) as Hle.
  rewrite length_seq in Hle. lia.
Qed.

Lemma tree_inv_reaches_root (nl : list Node) :
  tree_inv nl -> reaches_root nl.
Proof.
  intros (Hroot & _ & Hrooted) i Hi.
  destruct (Hrooted i Hi) as (k & Hk). exists k. split; [|assumption].
  pose proof (depth_bound nl k i Hroot Hk). lia.
Qed.

(** *** The invariant is kept *)

Lemma tree_inv_init (start : State) :
  tree_inv [mkNode start None dzero].
Proof.
  split; [split|split].
  - exists (mkNode start None dzero). split; reflexivity.
  - intros [|i] n Hn Hi; [congruence|].
    destruct i; discriminate.
  - intros [|i] n p Hn Hp.
    + inversion Hn; subst n. discriminate.
    + destruct i; discriminate.
  - intros i Hi. simpl in Hi. exists 0.
    destruct i; [reflexivity|lia].
Qed.

Lemma ancestor_app (nl : list Node) (x : Node) :
  forall k i a, ancestor nl k i = Some a ->
                ancestor (nl ++ [x]) k i = Some a.
Proof.
  induction k as [|k IH]; intros i a H; [assumption|].
  apply ancestor_S_inv in H. destruct H as (n & p & Hn & Hp & H).
  rewrite (ancestor_S (nl ++ [x]) k i n p); auto.
  rewrite nth_error_app1; [assumption|].
  apply nth_error_Some. congruence.
Qed.

Lemma tree_inv_push (nl : list Node) (new_node m : Node) (p : nat) :
  tree_inv nl ->
  parent new_node = Some p -> nth_error nl p = Some m ->
  dleb (cost m) (cost new_node) = true ->
  tree_inv (nl ++ [new_node]).
Proof.
  intros (Hroot & Hord & Hrooted) Hp Hm Hle.
  assert (Hlast : nth_error (nl ++ [new_node]) (length nl) = Some new_node).
  { rewrite nth_error_app2 by lia. rewrite Nat.sub_diag. reflexivity. }
  assert (Hold : forall i, i < length nl ->
                           nth_error (nl ++ [new_node]) i = nth_error nl i).
  { intros i Hi. apply nth_error_app1. assumption. }
  assert (Hcases : forall i n, nth_error (nl ++ [new_node]) i = Some n ->
                               (i < length nl /\ nth_error nl i = Some n)
                               \/ (i = length nl /\ n = new_node)).
  { intros i n Hn.
    assert (i < length (nl ++ [new_node])) by (apply nth_error_Some; congruence).
    rewrite length_app in H. simpl in H.
    destruct (Nat.eq_dec i (length nl)) as [->|Hne].
    - right. split; [reflexivity|congruence].
    - left. assert (i < length nl) by lia. rewrite Hold in Hn; auto. }
  split; [split|split].
  - destruct Hroot as [(r & Hr & Hrp) _]. exists r. split; [|assumption].
    rewrite Hold; [assumption|]. apply nth_error_Some. congruence.
  - intros i n Hn Hi. destruct (Hcases _ _ Hn) as [[Hlt Hn']|[-> ->]].
    + destruct Hroot as [_ Hnon]. eauto.
    + congruence.
  - intros i n q Hn Hq. destruct (Hcases _ _ Hn) as [[Hlt Hn']|[-> ->]].
    + destruct (Hord _ _ _ Hn' Hq) as (m' & Hm' & Hle'). exists m'.
      split; [|assumption]. rewrite Hold; [assumption|].
      apply nth_error_Some. congruence.
    + rewrite Hp in Hq. inversion Hq; subst q. exists m.
      split; [|assumption]. rewrite Hold; [assumption|].
      apply nth_error_Some. congruence.
  - intros i Hi. rewrite length_app in Hi. simpl in Hi.
    destruct (Nat.eq_dec i (length nl)) as [->|Hne].
    + assert (Hplt : p < length nl) by (apply nth_error_Some; congruence).
      destruct (Hrooted p Hplt) as (k & Hk). exists (S k).
      rewrite (ancestor_S _ k _ new_node p Hlast Hp).
      apply ancestor_app. assumption.
    + assert (Hlt : i < length nl) by lia.
      destruct (Hrooted i Hlt) as (k & Hk). exists k.
      apply ancestor_app. assumption.
Qed.

(** A walk that does not meet the rewired node is not changed. *)
Lemma ancestor_set_index (nl : list Node) (i : nat) (x : Node) :
  forall k j,
    (forall k', k' < k -> ancestor nl k' j <> Some i) ->
    ancestor (set_index nl i x) k j = ancestor nl k j.
Proof.
  induction k as [|k IH]; intros j H; [reflexivity|].
  assert (Hji : j <> i).
  { intros ->. apply (H 0); [lia|reflexivity]. }
  simpl. rewrite set_index_other by assumption.
  destruct (nth_error nl j) as [n|] eqn:Hn; [|reflexivity].
  destruct (parent n) as [p|] eqn:Hp; [|reflexivity].
  apply IH. intros k' Hk'.
  rewrite <- (ancestor_S nl k' j n p Hn Hp). apply H. lia.
Qed.

Lemma tree_inv_rewire_step (nl nl' : list Node) (new_ptr i : nat) :
  tree_inv nl -> new_ptr < length nl ->
  InformedRRTStar.rewire_step nl new_ptr i = Ok nl' ->
  tree_inv nl'.
Proof.
  intros Hinv Hnew H. apply rewire_step_spec in H.
  destruct H as (near_node & new_node & Hi & Hb & ->).
  destruct (dltb _ (cost near_node)) eqn:Hlt; [|assumption].
  destruct (checkCollision (state new_node) (state near_node));
    [|assumption].
  simpl. destruct Hinv as (Hroot & Hord & Hrooted).
  set (new_cost := dadd (cost new_node)
                        (distanceFrom (state near_node) (state new_node)))
    in *.
  set (x := mkNode (state near_node) (Some new_ptr) new_cost).
  assert (Hnc : dleb (cost new_node) new_cost = true).
  { apply dadd_increases. apply distanceFrom_nonneg. }
  assert (Hilt : i < length nl) by (apply nth_error_Some; congruence).
  (* the new node is not below the rewired one *)
  assert (F1 : forall k, ancestor nl k new_ptr <> Some i).
  { intros k Hk.
    destruct (ancestor_cost nl Hord _ _ _ _ Hk Hb) as (m & Hm & Hle).
    rewrite Hi in Hm. inversion Hm; subst m.
    pose proof (dleb_trans _ _ _ Hle Hnc) as Hle'.
    apply dleb_dltb_false in Hle'. congruence. }
  assert (Hne : new_ptr <> i).
  { intros ->. apply (F1 0). reflexivity. }
  destruct (Hrooted new_ptr Hnew) as (k0 & Hk0).
  assert (Hi0 : i <> 0).
  { intros ->. exact (F1 _ Hk0). }
  assert (Hk0' : ancestor (set_index nl i x) k0 new_ptr = Some 0).
  { rewrite ancestor_set_index; [assumption|]. intros; apply F1. }
  assert (Hix : nth_error (set_index nl i x) i = Some x)
    by (apply set_index_same; assumption).
  split; [split|split].
  - destruct Hroot as [(r & Hr & Hrp) _]. exists r.
    rewrite set_index_other by auto. auto.
  - intros j n Hn Hj. destruct (Nat.eq_dec j i) as [->|Hji].
    + rewrite Hix in Hn. inversion Hn; subst n. discriminate.
    + rewrite set_index_other in Hn by assumption.
      destruct Hroot as [_ Hnon]. eauto.
  - intros j n p Hn Hp. destruct (Nat.eq_dec j i) as [->|Hji].
    + rewrite Hix in Hn. inversion Hn; subst n. simpl in Hp.
      inversion Hp; subst p. exists new_node.
      rewrite set_index_other by assumption. auto.
    + rewrite set_index_other in Hn by assumption.
      destruct (Hord _ _ _ Hn Hp) as (m & Hm & Hle).
      destruct (Nat.eq_dec p i) as [->|Hpi].
      * exists x. split; [assumption|]. simpl.
        rewrite Hi in Hm. inversion Hm; subst m.
        apply dltb_dleb.
        exact (dltb_dleb_trans _ _ _ Hlt Hle).
      * exists m. rewrite set_index_other by assumption. auto.
  - intros j Hj. rewrite set_index_length in Hj.
    destruct (Hrooted j Hj) as (k & Hk). clear Hj.
    revert j Hk. induction k as [|k IH]; intros j Hk.
    + exists 0. assumption.
    + destruct (Nat.eq_dec j i) as [->|Hji].
      * exists (S k0).
        rewrite (ancestor_S _ k0 i x new_ptr Hix eq_refl). assumption.
      * apply ancestor_S_inv in Hk. destruct Hk as (n & p & Hn & Hp & Hk).
        destruct (IH _ Hk) as (k' & Hk'). exists (S k').
        rewrite (ancestor_S _ k' j n p); auto.
        rewrite set_index_other by assumption. assumption.
Qed.

Lemma tree_inv_rewire_loop (near : list nat) :
  forall (nl nl' : list Node) (new_ptr : nat),
    tree_inv nl -> new_ptr < length nl ->
    InformedRRTStar.rewire_loop nl new_ptr near = Ok nl' ->
    tree_inv nl'.
Proof.
  induction near as [|i rest IH]; intros nl nl' new_ptr Hinv Hnew H;
    simpl in H.
  - inversion H; subst. assumption.
  - inv_bind H. apply (IH a nl' new_ptr); [| |assumption].
    + eapply tree_inv_rewire_step; eassumption.
    + erewrite rewire_step_length; eassumption.
Qed.

(** The node that chooseParentNode returns is the candidate or the
    candidate under a node of the list. *)
Lemma chooseParentNode_cases (target_node chosen : Node) (nl : list Node)
      (near : list nat) :
  InformedRRTStar.chooseParentNode target_node nl near = Ok chosen ->
  state chosen = state target_node
  /\ (chosen = target_node
      \/ exists i n, nth_error nl i = Some n /\ parent chosen = Some i
                     /\ cost chosen = cost_via target_node n).
Proof.
  unfold InformedRRTStar.chooseParentNode. intros H. inv_bind H.
  destruct a as [p c]. simpl fst in H. simpl snd in H.
  apply chooseParentNode_loop_spec in Ha.
  destruct Ha as [[Heq _] | (i & n & _ & Hn & _ & Hp & Hcost & Hlt & _)].
  - inversion Heq; subst p c. rewrite deqb_refl in H. simpl in H.
    inversion H. auto.
  - rewrite (dltb_neq _ _ Hlt) in H. simpl in H. inversion H; subst chosen.
    simpl. split; [reflexivity|]. right. exists i, n. auto.
Qed.

Lemma generateSteerNode_cost (src_ptr : nat) (src_node dst_node : Node)
      (expand_dist : D) :
  dleb dzero expand_dist = true ->
  dleb (cost src_node)
       (cost (InformedRRTStar.generateSteerNode src_ptr src_node dst_node
                                                expand_dist)) = true.
Proof.
  intros He. unfold InformedRRTStar.generateSteerNode.
  destruct (dltb _ expand_dist); simpl; apply dadd_increases;
    [apply distanceFrom_nonneg|assumption].
Qed.

Lemma generateSteerNode_parent (src_ptr : nat) (src_node dst_node : Node)
      (expand_dist : D) :
  parent (InformedRRTStar.generateSteerNode src_ptr src_node dst_node
                                            expand_dist) = Some src_ptr.
Proof.
  unfold InformedRRTStar.generateSteerNode.
  destruct (dltb _ expand_dist); reflexivity.
Qed.

Lemma tree_inv_round (p : InformedRRTStar.t D State) (goal : State)
      (d : InformedRRTStar.Draw D State) (nl nl' : list Node)
      (gi gi' : list nat) :
  tree_inv nl -> dleb dzero (InformedRRTStar.expand_dist_ p) = true ->
  InformedRRTStar.sampling_round p goal d (nl, gi) = Ok (nl', gi') ->
  tree_inv nl'.
Proof.
  intros Hinv He H. unfold InformedRRTStar.sampling_round in H.
  bind_inv H as best_cost Hbest. bind_inv H as sampled Hsampled.
  destruct sampled as [rand_node|]; [|inversion H; subst; assumption].
  cbv zeta in H. bind_inv H as nearest Hnearest.
  apply at_index_Ok in Hnearest.
  destruct (checkCollision _ _); [|inversion H; subst; assumption].
  bind_inv H as chosen Hchosen. bind_inv H as nl1 Hrewire.
  assert (Hnl1 : tree_inv nl1).
  { unfold InformedRRTStar.rewireNearNodes in Hrewire.
    destruct (nl ++ [chosen]) as [|n0 l0] eqn:E;
      [destruct nl; discriminate|].
    rewrite <- E in Hrewire.
    apply tree_inv_rewire_loop in Hrewire; [assumption| |].
    - apply chooseParentNode_cases in Hchosen.
      destruct Hchosen as [_ [->|(i & n & Hn & Hp & Hc)]].
      + eapply tree_inv_push; eauto using generateSteerNode_parent,
                              generateSteerNode_cost.
      + eapply tree_inv_push; eauto. rewrite Hc. unfold cost_via.
        apply dadd_increases. apply distanceFrom_nonneg.
    - rewrite length_app. simpl. lia. }
  destruct (dltb _ _); inversion H; subst; assumption.
Qed.

Lemma tree_inv_sampling (p : InformedRRTStar.t D State) (goal : State) :
  dleb dzero (InformedRRTStar.expand_dist_ p) = true ->
  forall n draws nl gi nl' gi',
    tree_inv nl ->
    InformedRRTStar.sampling p goal n draws (nl, gi) = Ok (nl', gi') ->
    tree_inv nl'.
Proof.
  intros He. induction n as [|n IH]; intros draws nl gi nl' gi' Hinv H;
    simpl in H.
  - inversion H; subst. assumption.
  - destruct draws as [|d draws]; [discriminate|].
    bind_inv H as s1 Hround. destruct s1 as [nl1 gi1].
    eapply IH; [|eassumption]. eapply tree_inv_round; eassumption.
Qed.

(** C9: after any number of rounds of the sampling loop of Informed RRT*,
    hence through every chooseParentNode and rewireNearNodes, and in the
    node list a solve stores, exactly one node has a null parent, and
    from every node the parent links reach it in at most as many steps
    as there are nodes.  Arithmetic is NaN-free and [expand_dist] is not
    negative. *)
Theorem node_list_is_tree (p : InformedRRTStar.t D State)
        (start goal : State) (draws : list (InformedRRTStar.Draw D State)) :
  dleb dzero (InformedRRTStar.expand_dist_ p) = true ->
  (forall n nl gi,
      InformedRRTStar.sampling p goal n draws
        ([mkNode start None dzero], []) = Ok (nl, gi) ->
      one_root nl /\ reaches_root nl)
  /\ (forall b p',
         InformedRRTStar.solve p start goal draws = Ok (b, p') ->
         b = true ->
         one_root (InformedRRTStar.node_list_ p')
         /\ reaches_root (InformedRRTStar.node_list_ p')).
Proof.
  intros He.
  assert (Hloop : forall n nl gi,
             InformedRRTStar.sampling p goal n draws
               ([mkNode start None dzero], []) = Ok (nl, gi) ->
             one_root nl /\ reaches_root nl).
  { intros n nl gi H.
    apply (tree_inv_sampling p goal He) in H; [|apply tree_inv_init].
    split; [apply H|apply tree_inv_reaches_root; assumption]. }
  split; [exact Hloop|].
  intros b p' H Hb. subst b. unfold InformedRRTStar.solve in H.
  bind_inv H as u Hrot. bind_inv H as s Hs. destruct s as [nl gi].
  cbv zeta in H. simpl fst in H.
  destruct (_ <? 0)%Z; [inversion H|].
  bind_inv H as result_node Hnode. bind_inv H as result Hwalk.
  inversion H; subst p'. simpl.
  eapply Hloop; eassumption.
Qed.

End Tree.

(** ** The ends of the result path *)

Section Endpoints.

Context {D State : Type} {AD : Arith D} {SO : StateOps State D}
        {CN : Constraint State} {NM : Numerics State D}.

Hypothesis state_eqb_true : forall a b : State, state_eqb a b = true -> a = b.

(** *** Informed RRT* *)

(** States are never rewritten and only the first node is made without a
    parent: a node without a parent carries [start]. *)
Local Abbreviation orphans_at start nl :=
  (forall i n, nth_error nl i = Some n -> InformedRRTStar.parent n = None ->
               InformedRRTStar.state n = start).

Lemma star_loop_parent (target_node : InformedRRTStar.Node D State)
      (nl : list (InformedRRTStar.Node D State)) (near : list nat) :
  forall p0 c0 p c,
    InformedRRTStar.chooseParentNode_loop target_node nl near (p0, c0)
    = Ok (p, c) ->
    p = p0 \/ p <> None.
Proof.
  induction near as [|i rest IH]; intros p0 c0 p c H; simpl in H.
  - inversion H. auto.
  - bind_inv H as n Hn. cbv zeta in H. simpl snd in H.
    destruct (dltb _ c0); [destruct (checkCollision _ _)|];
      apply IH in H; auto.
    destruct H as [->|H]; right; congruence.
Qed.

Lemma star_chosen_parent (target_node chosen : InformedRRTStar.Node D State)
      (nl : list (InformedRRTStar.Node D State)) (near : list nat) :
  InformedRRTStar.chooseParentNode target_node nl near = Ok chosen ->
  InformedRRTStar.parent target_node <> None ->
  InformedRRTStar.parent chosen <> None.
Proof.
  unfold InformedRRTStar.chooseParentNode. intros H Hp.
  bind_inv H as acc Hacc. destruct acc as [p c].
  apply star_loop_parent in Hacc. simpl fst in H. simpl snd in H.
  destruct (negb _); inversion H; subst chosen; simpl; [|assumption].
  destruct Hacc as [->|Hacc]; assumption.
Qed.

Lemma star_rewire_loop_orphans (start : State) (near : list nat) :
  forall nl nl' new_ptr,
    orphans_at start nl ->
    InformedRRTStar.rewire_loop nl new_ptr near = Ok nl' ->
    orphans_at start nl'.
Proof.
  induction near as [|i rest IH]; intros nl nl' new_ptr Hinv H; simpl in H.
  - inversion H; subst. assumption.
  - bind_inv H as nl1 Hstep. apply (IH nl1 nl' new_ptr); [|assumption].
    clear H IH. unfold InformedRRTStar.rewire_step in Hstep.
    bind_inv Hstep as near_node Hnear. bind_inv Hstep as new_node Hnew.
    cbv zeta in Hstep. apply at_index_Ok in Hnear.
    destruct (dltb _ _); [destruct (checkCollision _ _)|];
      inversion Hstep; subst nl1; try assumption.
    intros j n Hn Hp. destruct (Nat.eq_dec j i) as [->|Hji].
    + rewrite set_index_same in Hn by (apply nth_error_Some; congruence).
      inversion Hn; subst n. discriminate.
    + rewrite set_index_other in Hn by assumption. eauto.
Qed.

Lemma star_round_orphans (p : InformedRRTStar.t D State) (start goal : State)
      (d : InformedRRTStar.Draw D State) nl gi nl' gi' :
  orphans_at start nl ->
  InformedRRTStar.sampling_round p goal d (nl, gi) = Ok (nl', gi') ->
  orphans_at start nl'.
Proof.
  intros Hinv H. unfold InformedRRTStar.sampling_round in H.
  bind_inv H as best_cost Hbest. bind_inv H as sampled Hsampled.
  destruct sampled as [rand_node|]; [|inversion H; subst; assumption].
  cbv zeta in H. bind_inv H as nearest Hnearest.
  destruct (checkCollision _ _); [|inversion H; subst; assumption].
  bind_inv H as chosen Hchosen. bind_inv H as nl1 Hrewire.
  assert (Hnl1 : orphans_at start nl1).
  { unfold InformedRRTStar.rewireNearNodes in Hrewire.
    destruct (nl ++ [chosen]) as [|n0 l0] eqn:E;
      [destruct nl; discriminate|].
    rewrite <- E in Hrewire.
    eapply star_rewire_loop_orphans; [|eassumption].
    intros j n Hn Hp.
    destruct (Nat.lt_ge_cases j (length nl)) as [Hlt|Hge].
    - rewrite nth_error_app1 in Hn by assumption. eauto.
    - rewrite nth_error_app2 in Hn by assumption.
      destruct (j - length nl) as [|k]; simpl in Hn;
        [|destruct k; discriminate].
      inversion Hn; subst n. exfalso.
      apply (star_chosen_parent _ _ _ _ Hchosen); [|assumption].
      rewrite generateSteerNode_parent. discriminate. }
  destruct (dltb _ _); inversion H; subst; assumption.
Qed.

Lemma star_sampling_orphans (p : InformedRRTStar.t D State)
      (start goal : State) :
  forall n draws nl gi nl' gi',
    orphans_at start nl ->
    InformedRRTStar.sampling p goal n draws (nl, gi) = Ok (nl', gi') ->
    orphans_at start nl'.
Proof.
  induction n as [|n IH]; intros draws nl gi nl' gi' Hinv H; simpl in H.
  - inversion H; subst. assumption.
  - destruct draws as [|d draws]; [discriminate|].
    bind_inv H as s1 Hround. destruct s1 as [nl1 gi1].
    eapply IH; [|eassumption]. eapply star_round_orphans; eassumption.
Qed.

(** A walk that ends has put [start] at the front, above the state of
    the node it began with. *)
Lemma star_walk_parents_spec (start : State)
      (nl : list (InformedRRTStar.Node D State)) :
  orphans_at start nl ->
  forall fuel ptr acc path n,
    InformedRRTStar.walk_parents fuel nl ptr acc = Ok path ->
    nth_error nl ptr = Some n ->
    exists pre, path = pre ++ InformedRRTStar.state n :: acc
                /\ hd_error (pre ++ [InformedRRTStar.state n]) = Some start.
Proof.
  intros Hinv. induction fuel as [|fuel IH]; intros ptr acc path n H Hn;
    simpl in H; [discriminate|].
  bind_inv H as n' Hn'. apply at_index_Ok in Hn'.
  rewrite Hn in Hn'. inversion Hn'; subst n'. cbv zeta in H.
  destruct (InformedRRTStar.parent n) as [q|] eqn:Hq.
  - destruct fuel as [|fuel']; [discriminate|].
    pose proof H as H'. simpl in H'. bind_inv H' as m Hm.
    apply at_index_Ok in Hm. clear H'.
    destruct (IH _ _ _ _ H Hm) as (pre & -> & Hhd).
    exists (pre ++ [InformedRRTStar.state m]). split.
    + rewrite <- app_assoc. reflexivity.
    + destruct pre; simpl in *; assumption.
  - inversion H; subst path. exists []. split; [reflexivity|].
    simpl. f_equal. eauto.
Qed.

(** *** RRT *)

Local Abbreviation rrt_orphans_at start nl :=
  (forall i n, nth_error nl i = Some n -> RRT.parent n = None ->
               RRT.state n = start).

Lemma rrt_orphans_push (start : State) (nl : list (RRT.Node State))
      (x : RRT.Node State) :
  rrt_orphans_at start nl -> RRT.parent x <> None ->
  rrt_orphans_at start (nl ++ [x]).
Proof.
  intros Hinv Hx j n Hn Hp.
  destruct (Nat.lt_ge_cases j (length nl)) as [Hlt|Hge].
  - rewrite nth_error_app1 in Hn by assumption. eauto.
  - rewrite nth_error_app2 in Hn by assumption.
    destruct (j - length nl) as [|k]; simpl in Hn;
      [|destruct k; discriminate].
    inversion Hn; subst n. contradiction.
Qed.

Lemma rrt_steer_parent (src_ptr : nat) (src_node dst_node : RRT.Node State)
      (expand_dist : D) :
  RRT.parent (RRT.generateSteerNode src_ptr src_node dst_node expand_dist)
  = Some src_ptr.
Proof.
  unfold RRT.generateSteerNode. destruct (dltb _ expand_dist); reflexivity.
Qed.

(** Leaving the loop by [break], the list ends with the goal node. *)
Lemma rrt_sampling_break (p : RRT.t D State) (start goal : State) :
  forall draws nl cnt nl' cnt',
    rrt_orphans_at start nl ->
    RRT.sampling p goal draws nl cnt = Ok (Some nl', cnt') ->
    rrt_orphans_at start nl'
    /\ exists nl1 q, nl' = nl1 ++ [RRT.mkNode goal (Some q)].
Proof.
  induction draws as [|d draws IH]; intros nl cnt nl' cnt' Hinv H;
    simpl in H; [discriminate|].
  destruct (RRT.sample_node p goal d) as [rand_node|]; [|eauto].
  cbv zeta in H. bind_inv H as nearest Hnearest. bind_inv H as free Hfree.
  set (new_node := RRT.generateSteerNode
                     (RRT.getNearestNodeIndex rand_node nl) nearest
                     rand_node (RRT.expand_dist_ p)) in *.
  assert (Hnl1 : rrt_orphans_at start
                   (if free then nl ++ [new_node] else nl)).
  { destruct free; [|assumption]. apply rrt_orphans_push; [assumption|].
    unfold new_node. rewrite rrt_steer_parent. discriminate. }
  destruct (free && _).
  - inversion H; subst nl' cnt'. split.
    + apply rrt_orphans_push; [assumption|discriminate].
    + eauto.
  - destruct (_ =? _)%Z; [discriminate|]. eauto.
Qed.

Lemma rrt_walk_parents_spec (start : State) (nl : list (RRT.Node State)) :
  rrt_orphans_at start nl ->
  forall fuel ptr acc path n,
    RRT.walk_parents fuel nl ptr acc = Ok path ->
    nth_error nl ptr = Some n ->
    exists pre, path = pre ++ RRT.state n :: acc
                /\ hd_error (pre ++ [RRT.state n]) = Some start.
Proof.
  intros Hinv. induction fuel as [|fuel IH]; intros ptr acc path n H Hn;
    simpl in H; [discriminate|].
  bind_inv H as n' Hn'. apply at_index_Ok in Hn'.
  rewrite Hn in Hn'. inversion Hn'; subst n'. cbv zeta in H.
  destruct (RRT.parent n) as [q|] eqn:Hq.
  - destruct fuel as [|fuel']; [discriminate|].
    pose proof H as H'. simpl in H'. bind_inv H' as m Hm.
    apply at_index_Ok in Hm. clear H'.
    destruct (IH _ _ _ _ H Hm) as (pre & -> & Hhd).
    exists (pre ++ [RRT.state m]). split.
    + rewrite <- app_assoc. reflexivity.
    + destruct pre; simpl in *; assumption.
  - inversion H; subst path. exists []. split; [reflexivity|].
    simpl. f_equal. eauto.
Qed.

Lemma hd_error_app_cons (pre : list State) (x : State) (acc : list State) :
  hd_error (pre ++ x :: acc) = hd_error (pre ++ [x]).
Proof. destruct pre; reflexivity. Qed.

(** C4: the result path of a successful solve, of RRT and of Informed
    RRT*, is not empty, begins with [start] and ends with [goal]. *)
Theorem solve_endpoints :
  (forall (p p' : RRT.t D State) (start goal : State)
          (draws : list (RRT.Draw D State)),
      RRT.solve p start goal draws = Ok (true, p') ->
      RRT.result_ p' <> []
      /\ hd_error (RRT.result_ p') = Some start
      /\ hd_error (rev (RRT.result_ p')) = Some goal)
  /\ (forall (p p' : InformedRRTStar.t D State) (start goal : State)
             (draws : list (InformedRRTStar.Draw D State)),
         InformedRRTStar.solve p start goal draws = Ok (true, p') ->
         InformedRRTStar.result_ p' <> []
         /\ hd_error (InformedRRTStar.result_ p') = Some start
         /\ hd_error (rev (InformedRRTStar.result_ p')) = Some goal).
Proof.
  split.
  - intros p p' start goal draws H. unfold RRT.solve in H.
    bind_inv H as r Hr. destruct r as [[nl'|] cnt']; simpl fst in H;
      [|discriminate].
    bind_inv H as result Hwalk. inversion H; subst p'. simpl. clear H.
    apply (rrt_sampling_break p start) in Hr.
    + destruct Hr as [Hinv (nl1 & q & ->)].
      assert (Hlast : nth_error (nl1 ++ [RRT.mkNode goal (Some q)])
                        (length (nl1 ++ [RRT.mkNode goal (Some q)]) - 1)
                      = Some (RRT.mkNode goal (Some q))).
      { rewrite length_app. simpl.
        rewrite nth_error_app2 by lia.
        replace (length nl1 + 1 - 1 - length nl1) with 0 by lia.
        reflexivity. }
      destruct (rrt_walk_parents_spec start _ Hinv _ _ _ _ _ Hwalk Hlast)
        as (pre & -> & Hhd).
      simpl in *.
      split; [destruct pre; discriminate|]. split; [assumption|].
      rewrite rev_app_distr. reflexivity.
    + intros [|i] n Hn Hp; [inversion Hn; reflexivity|].
      destruct i; discriminate.
  - intros p p' start goal draws H. unfold InformedRRTStar.solve in H.
    bind_inv H as u Hrot. bind_inv H as s Hs. destruct s as [nl gi].
    cbv zeta in H. simpl fst in H.
    destruct (_ <? 0)%Z; [discriminate|].
    bind_inv H as result_node Hnode. bind_inv H as result Hwalk.
    inversion H; subst p'. simpl. clear H.
    apply at_index_Ok in Hnode.
    assert (Hinit : orphans_at start
                      [InformedRRTStar.mkNode start None dzero]).
    { intros [|i] n Hn Hp; [inversion Hn; reflexivity|].
      destruct i; discriminate. }
    pose proof (star_sampling_orphans p start goal _ _ _ _ _ _ Hinit Hs)
      as Hinv.
    destruct (star_walk_parents_spec start _ Hinv _ _ _ _ _ Hwalk Hnode)
      as (pre & -> & Hhd).
    split; [destruct pre; discriminate|].
    split; [rewrite hd_error_app_cons; assumption|].
    destruct (state_eqb (InformedRRTStar.state result_node) goal) eqn:E;
      simpl.
    + apply state_eqb_true in E. rewrite E.
      rewrite rev_app_distr. reflexivity.
    + rewrite rev_app_distr. reflexivity.
Qed.

End Endpoints.

(** ** Informed RRT* returns *)

Section Returns.

Context {D State : Type} {AD : Arith D} {SO : StateOps State D}
        {CN : Constraint State} {NM : Numerics State D}
        {AL : ArithLaws D} {SL : StateLaws State D}.

Local Abbreviation Node := (InformedRRTStar.Node D State).

Lemma star_nearest_from_range (target_node : Node) :
  forall l i idx md,
    let r := InformedRRTStar.getNearestNodeIndex_from target_node l i idx md in
    r = idx \/ (i <= r < i + length l).
Proof.
  induction l as [|n l IH]; intros i idx md; simpl; [auto|].
  destruct (dltb _ md).
  - destruct (IH (S i) i (distanceFrom (InformedRRTStar.state n)
                                       (InformedRRTStar.state target_node)))
      as [H|H]; simpl in H; right; lia.
  - destruct (IH (S i) idx md) as [H|H]; simpl in H; [auto|right; lia].
Qed.

Lemma star_nearest_lt (target_node : Node) (nl : list Node) :
  nl <> [] -> InformedRRTStar.getNearestNodeIndex target_node nl < length nl.
Proof.
  intros Hne. unfold InformedRRTStar.getNearestNodeIndex.
  destruct (star_nearest_from_range target_node nl 0 0 dmax) as [H|H];
    simpl in H; [|lia].
  rewrite H. destruct nl; [contradiction|simpl; lia].
Qed.

Lemma findNearNodes_from_range (target_node : Node) (radius : D) :
  forall l i j,
    In j (InformedRRTStar.findNearNodes_from target_node l i radius) ->
    i <= j < i + length l.
Proof.
  induction l as [|n l IH]; intros i j H; simpl in H; [contradiction|].
  destruct (dltb _ radius).
  - destruct H as [<-|H]; [simpl; lia|]. apply IH in H. simpl. lia.
  - apply IH in H. simpl. lia.
Qed.

Lemma findNearNodes_lt (R : D) (target_node : Node) (nl : list Node) (j : nat) :
  In j (InformedRRTStar.findNearNodes R target_node nl) -> j < length nl.
Proof.
  unfold InformedRRTStar.findNearNodes.
  destruct (Nat.eqb (length nl) 0); [contradiction|].
  intros H. apply findNearNodes_from_range in H. lia.
Qed.

Lemma chooseParentNode_loop_returns (target_node : Node) (nl : list Node) :
  forall near acc,
    (forall j, In j near -> j < length nl) ->
    exists acc',
      InformedRRTStar.chooseParentNode_loop target_node nl near acc = Ok acc'.
Proof.
  induction near as [|i rest IH]; intros acc Hin; simpl; [eauto|].
  destruct (at_index_lt nl i) as (n & Hn); [apply Hin; left; reflexivity|].
  rewrite Hn. simpl.
  destruct (dltb _ (snd acc)); [destruct (checkCollision _ _)|];
    apply IH; intros j Hj; apply Hin; right; assumption.
Qed.

Lemma rewire_loop_returns :
  forall near (nl : list Node) new_ptr,
    (forall j, In j near -> j < length nl) -> new_ptr < length nl ->
    exists nl', InformedRRTStar.rewire_loop nl new_ptr near = Ok nl'.
Proof.
  induction near as [|i rest IH]; intros nl new_ptr Hin Hnew; simpl;
    [eauto|].
  assert (Hstep : exists nl1,
             InformedRRTStar.rewire_step nl new_ptr i = Ok nl1).
  { unfold InformedRRTStar.rewire_step.
    destruct (at_index_lt nl i) as (n & Hn); [apply Hin; left; reflexivity|].
    destruct (at_index_lt nl new_ptr Hnew) as (m & Hm).
    rewrite Hn, Hm. simpl.
    destruct (dltb _ _); [destruct (checkCollision _ _)|]; eauto. }
  destruct Hstep as (nl1 & Hstep). rewrite Hstep. simpl.
  pose proof (rewire_step_length _ _ _ _ Hstep) as Hlen.
  apply IH; rewrite Hlen; [|assumption].
  intros j Hj. apply Hin. right. assumption.
Qed.

Lemma best_cost_loop_returns (nl : list Node) :
  forall gi best_cost,
    (forall j, In j gi -> j < length nl) ->
    exists c, InformedRRTStar.best_cost_loop nl gi best_cost = Ok c.
Proof.
  induction gi as [|g gi IH]; intros best_cost Hin; simpl; [eauto|].
  destruct (at_index_lt nl g) as (n & Hn); [apply Hin; left; reflexivity|].
  rewrite Hn. simpl. apply IH. intros j Hj. apply Hin. right. assumption.
Qed.

(** A round on a tree returns, and leaves a list at least as long with
    its goal indexes in range. *)
Lemma sampling_round_returns (p : InformedRRTStar.t D State) (goal : State)
      (d : InformedRRTStar.Draw D State) (nl : list Node) (gi : list nat) :
  space_getDim <> 0 ->
  nl <> [] -> (forall j, In j gi -> j < length nl) ->
  exists nl' gi',
    InformedRRTStar.sampling_round p goal d (nl, gi) = Ok (nl', gi')
    /\ nl' <> [] /\ (forall j, In j gi' -> j < length nl').
Proof.
  intros Hdim Hne Hgi. unfold InformedRRTStar.sampling_round.
  destruct (best_cost_loop_returns nl gi dmax Hgi) as (best_cost & Hbest).
  rewrite Hbest. simpl.
  assert (Hsample : exists sampled,
             InformedRRTStar.sample_node p goal best_cost d = Ok sampled).
  { unfold InformedRRTStar.sample_node.
    destruct (dltb _ _); [|eauto].
    destruct (deqb best_cost dmax); simpl.
    - destruct (is_NOENTRY _); eauto.
    - unfold InformedRRTStar.sampleUnitNBall.
      destruct (Nat.eqb space_getDim 0) eqn:E;
        [apply Nat.eqb_eq in E; contradiction|].
      simpl. destruct (is_NOENTRY _); eauto. }
  destruct Hsample as (sampled & Hsample). rewrite Hsample. simpl.
  destruct sampled as [rand_node|]; [|eauto].
  pose proof (star_nearest_lt rand_node nl Hne) as Hnear.
  destruct (at_index_lt nl _ Hnear) as (nearest & Hnearest).
  rewrite Hnearest. simpl.
  destruct (checkCollision _ _); [|eauto].
  set (new_node := InformedRRTStar.generateSteerNode _ nearest rand_node _).
  set (near := InformedRRTStar.findNearNodes _ new_node nl).
  assert (Hin : forall j, In j near -> j < length nl)
    by (intros j; apply findNearNodes_lt).
  destruct (chooseParentNode_loop_returns new_node nl near
              (InformedRRTStar.parent new_node, dmax) Hin) as (acc & Hacc).
  assert (Hchosen : exists chosen,
             InformedRRTStar.chooseParentNode new_node nl near = Ok chosen).
  { unfold InformedRRTStar.chooseParentNode. rewrite Hacc. simpl.
    destruct (negb _); eauto. }
  destruct Hchosen as (chosen & Hchosen). rewrite Hchosen. simpl.
  assert (Hrewire : exists nl1,
             InformedRRTStar.rewireNearNodes (nl ++ [chosen]) near = Ok nl1
             /\ length nl1 = length nl + 1).
  { unfold InformedRRTStar.rewireNearNodes.
    destruct (nl ++ [chosen]) as [|n0 l0] eqn:E;
      [destruct nl; discriminate|].
    rewrite <- E.
    assert (Hlen : length (nl ++ [chosen]) = length nl + 1)
      by (rewrite length_app; reflexivity).
    destruct (rewire_loop_returns near (nl ++ [chosen])
                                  (length (nl ++ [chosen]) - 1))
      as (nl1 & Hnl1).
    - intros j Hj. apply Hin in Hj. lia.
    - lia.
    - exists nl1. split; [assumption|].
      apply rewire_loop_length in Hnl1. lia. }
  destruct Hrewire as (nl1 & Hrewire & Hlen1). rewrite Hrewire. simpl.
  assert (Hne1 : nl1 <> []) by (destruct nl1; [simpl in Hlen1; lia|discriminate]).
  destruct (dltb _ _); exists nl1; eexists; (split; [reflexivity|]);
    (split; [assumption|]); intros j Hj.
  - apply in_app_or in Hj. destruct Hj as [Hj|[<-|[]]];
      [apply Hgi in Hj|]; lia.
  - apply Hgi in Hj. lia.
Qed.

Lemma sampling_returns (p : InformedRRTStar.t D State) (goal : State) :
  space_getDim <> 0 ->
  forall n draws (nl : list Node) gi,
    n <= length draws ->
    nl <> [] -> (forall j, In j gi -> j < length nl) ->
    exists nl' gi',
      InformedRRTStar.sampling p goal n draws (nl, gi) = Ok (nl', gi')
      /\ nl' <> [].
Proof.
  intros Hdim. induction n as [|n IH]; intros draws nl gi Hlen Hne Hgi;
    cbn [InformedRRTStar.sampling]; [eauto|].
  destruct draws as [|d draws]; [simpl in Hlen; lia|].
  destruct (sampling_round_returns p goal d nl gi Hdim Hne Hgi)
    as (nl1 & gi1 & Hround & Hne1 & Hgi1).
  rewrite Hround. cbn [bind]. apply IH; [simpl in Hlen; lia|assumption..].
Qed.

Lemma getBestNodeIndex_from_range (target_state : State) (radius : D) :
  forall (l : list Node) i best_index min_cost,
    let r := InformedRRTStar.getBestNodeIndex_from target_state radius l i
                                                   best_index min_cost in
    r = best_index \/ (Z.of_nat i <= r < Z.of_nat (i + length l))%Z.
Proof.
  induction l as [|n l IH]; intros i best_index min_cost; simpl; [auto|].
  destruct (dltb _ radius); [destruct (dltb _ min_cost)|].
  - destruct (IH (S i) (Z.of_nat i) (InformedRRTStar.cost n)) as [H|H];
      simpl in H; right; lia.
  - destruct (IH (S i) best_index min_cost) as [H|H]; simpl in H;
      [auto|right; lia].
  - destruct (IH (S i) best_index min_cost) as [H|H]; simpl in H;
      [auto|right; lia].
Qed.

Lemma star_walk_parents_returns (nl : list Node) :
  one_root nl ->
  forall k i fuel acc,
    ancestor nl k i = Some 0 -> k < fuel ->
    exists path, InformedRRTStar.walk_parents fuel nl i acc = Ok path.
Proof.
  intros [(r & Hr & Hrp) _].
  induction k as [|k IH]; intros i fuel acc Hk Hfuel;
    (destruct fuel as [|fuel]; [lia|]); simpl.
  - inversion Hk; subst i. unfold at_index. rewrite Hr. simpl.
    rewrite Hrp. eauto.
  - apply ancestor_S_inv in Hk. destruct Hk as (n & q & Hn & Hq & Hk).
    unfold at_index. rewrite Hn. simpl. rewrite Hq.
    apply (IH q); [assumption|lia].
Qed.

(** With NaN-free arithmetic, [expand_dist] not negative, [start], [goal]
    and the space of one dimension, at least 2, and a draw for every
    round, InformedRRTStar::solve returns: no exception, no index into
    the node list out of range, and the walk along the parents ends.
    The space has the dimension of the states: the sampled state and the
    steering loop are taken as given here, and their accesses
    [state.vals[i]], [i < space.getDim()], are in range only then. *)
Theorem star_solve_returns (p : InformedRRTStar.t D State)
        (start goal : State) (draws : list (InformedRRTStar.Draw D State)) :
  dleb dzero (InformedRRTStar.expand_dist_ p) = true ->
  getDim start = getDim goal -> 2 <= getDim start ->
  space_getDim = getDim start ->
  InformedRRTStar.max_sampling_num_ p <= length draws ->
  exists b p', InformedRRTStar.solve p start goal draws = Ok (b, p').
Proof.
  intros He Hdims Hdim2 Hspace_dim Hdraws.
  assert (Hspace : space_getDim <> 0) by lia.
  unfold InformedRRTStar.solve.
  unfold InformedRRTStar.calcRotationToWorldFlame.
  rewrite <- Hdims, Nat.eqb_refl. simpl negb.
  destruct (Nat.ltb (getDim start) 2) eqn:E;
    [apply Nat.ltb_lt in E; lia|]. simpl.
  destruct (sampling_returns p goal Hspace
              (InformedRRTStar.max_sampling_num_ p) draws
              [InformedRRTStar.mkNode start None dzero] [])
    as (nl & gi & Hs & Hne); [assumption|discriminate|intros j []|].
  rewrite Hs. simpl.
  destruct (_ <? 0)%Z eqn:Hbest; [eauto|]. apply Z.ltb_ge in Hbest.
  assert (Hinv : tree_inv nl).
  { eapply tree_inv_sampling; [exact He|apply tree_inv_init|exact Hs]. }
  set (best := InformedRRTStar.getBestNodeIndex goal _ nl) in *.
  assert (Hrange : Z.to_nat best < length nl).
  { unfold best, InformedRRTStar.getBestNodeIndex in *.
    destruct (getBestNodeIndex_from_range goal (InformedRRTStar.expand_dist_ p)
                nl 0 (-1)%Z dmax) as [H|H]; simpl in H; lia. }
  destruct (at_index_lt nl _ Hrange) as (result_node & Hnode).
  rewrite Hnode. simpl.
  destruct Hinv as (Hroot & _ & Hrooted).
  destruct (Hrooted _ Hrange) as (k & Hk).
  pose proof (depth_bound nl k _ Hroot Hk) as Hbound.
  destruct (star_walk_parents_returns nl Hroot k _ (length nl)
              (if negb (state_eqb (InformedRRTStar.state result_node) goal)
               then [goal] else []) Hk Hbound) as (path & Hpath).
  rewrite Hpath. simpl. eauto.
Qed.

End Returns.

(** ** The laws hold of the rational numbers *)

Section ExactLaws.

Local Open Scope Q_scope.

Lemma Qle_bool_false (a b : Q) : Qle_bool a b = false <-> b < a.
Proof.
  split; intros H.
  - apply Qnot_le_lt. intros Hle. apply Qle_bool_iff in Hle. congruence.
  - destruct (Qle_bool a b) eqn:E; [|reflexivity].
    apply Qle_bool_iff in E. apply Qlt_not_le in H. contradiction.
Qed.

Lemma negb_Qle_bool (a b : Q) : negb (Qle_bool a b) = true <-> b < a.
Proof. rewrite negb_true_iff. apply Qle_bool_false. Qed.

Lemma exact_arith_laws : @ArithLaws Q Exact.arith.
Proof.
  constructor; cbn [dzero dadd dltb dleb deqb Exact.arith].
  - intros a. apply negb_false_iff. apply Qle_bool_iff. apply Qle_refl.
  - intros a b c Hab Hbc. apply negb_Qle_bool in Hab, Hbc.
    apply negb_Qle_bool. exact (Qlt_trans _ _ _ Hab Hbc).
  - intros a b. symmetry. apply negb_involutive.
  - intros a b c Hab Hbc. apply Qle_bool_iff in Hab, Hbc.
    apply Qle_bool_iff. exact (Qle_trans _ _ _ Hab Hbc).
  - intros a. apply Qeq_bool_iff. reflexivity.
  - intros a b Hab. apply negb_Qle_bool in Hab.
    destruct (Qeq_bool a b) eqn:E; [|reflexivity].
    apply Qeq_bool_iff in E. rewrite E in Hab.
    exfalso. exact (Qlt_irrefl _ Hab).
  - intros a d Hd. apply Qle_bool_iff in Hd. apply Qle_bool_iff.
    apply Qle_trans with (a + d).
    + rewrite <- (Qplus_0_r a) at 1.
      apply Qplus_le_compat; [apply Qle_refl|assumption].
    + apply Qle_lteq. right. symmetry. apply Qred_correct.
Qed.

Lemma exact_sqdist_sym (a : Exact.State) :
  forall b, Exact.sqdist a b == Exact.sqdist b a.
Proof.
  induction a as [|x a IH]; intros [|y b]; simpl; try reflexivity.
  rewrite IH. ring.
Qed.

Lemma exact_Q_eqb_eq (x y : Q) : Exact.Q_eqb x y = true -> x = y.
Proof.
  destruct x as [xn xd], y as [yn yd]. unfold Exact.Q_eqb. simpl.
  intros H. apply andb_true_iff in H. destruct H as [Hn Hd].
  apply Z.eqb_eq in Hn. apply Pos.eqb_eq in Hd. congruence.
Qed.

Lemma exact_eqb_eq (a : Exact.State) :
  forall b, Exact.eqb a b = true -> a = b.
Proof.
  induction a as [|x a IH]; intros [|y b] H; simpl in H;
    try discriminate; [reflexivity|].
  apply andb_true_iff in H. destruct H as [Hx Hab].
  apply exact_Q_eqb_eq in Hx. apply IH in Hab. congruence.
Qed.

Lemma exact_state_laws :
  @StateLaws Exact.State Q Exact.arith Exact.state_ops.
Proof.
  constructor;
    cbn [dzero dleb Exact.arith distanceFrom state_eqb Exact.state_ops].
  - intros a b. apply Qle_bool_iff. unfold Exact.Qsqrt.
    eapply Qle_trans; [|apply Qle_lteq; right; symmetry; apply Qred_correct].
    unfold Qle. simpl. rewrite Z.mul_1_r. apply Z.sqrt_nonneg.
  - intros a b. f_equal. apply Qred_complete. apply exact_sqdist_sym.
  - apply exact_eqb_eq.
Qed.

End ExactLaws.

(** ** The budget of RRT *)

Section Budget.

Context {D State : Type} {AD : Arith D} {SO : StateOps State D}
        {CN : Constraint State} {NM : Numerics State D}.

Lemma rrt_nearest_from_range (target_node : RRT.Node State) :
  forall l i idx md,
    let r := RRT.getNearestNodeIndex_from target_node l i idx md in
    r = idx \/ (i <= r < i + length l).
Proof.
  induction l as [|n l IH]; intros i idx md; simpl; [auto|].
  destruct (dltb _ md).
  - destruct (IH (S i) i (distanceFrom (RRT.state n) (RRT.state target_node)))
      as [H|H]; simpl in H; right; lia.
  - destruct (IH (S i) idx md) as [H|H]; simpl in H; [auto|right; lia].
Qed.

Lemma rrt_nearest_lt (target_node : RRT.Node State)
      (nl : list (RRT.Node State)) :
  nl <> [] -> RRT.getNearestNodeIndex target_node nl < length nl.
Proof.
  intros Hne. unfold RRT.getNearestNodeIndex.
  destruct (rrt_nearest_from_range target_node nl 0 0 dmax) as [H|H];
    simpl in H; [|lia].
  rewrite H. destruct nl; [contradiction|simpl; lia].
Qed.


Lemma rrt_parents_below_push (nl : list (RRT.Node State))
      (x : RRT.Node State) (q : nat) :
  parents_below nl -> RRT.parent x = Some q -> q < length nl ->
  parents_below (nl ++ [x]).
Proof.
  intros Hinv Hx Hq j n q' Hn Hp.
  destruct (Nat.lt_ge_cases j (length nl)) as [Hlt|Hge].
  - rewrite nth_error_app1 in Hn by assumption. eauto.
  - rewrite nth_error_app2 in Hn by assumption.
    destruct (j - length nl) as [|k] eqn:E; simpl in Hn;
      [|destruct k; discriminate].
    inversion Hn; subst n. rewrite Hx in Hp. inversion Hp. lia.
Qed.

Lemma rrt_walk_parents_returns (nl : list (RRT.Node State)) :
  parents_below nl ->
  forall fuel ptr acc,
    ptr < length nl -> ptr < fuel ->
    exists path, RRT.walk_parents fuel nl ptr acc = Ok path.
Proof.
  intros Hinv. induction fuel as [|fuel IH]; intros ptr acc Hlen Hfuel;
    [lia|]. simpl.
  destruct (at_index_lt nl ptr Hlen) as (n & Hn). rewrite Hn. simpl.
  destruct (RRT.parent n) as [q|] eqn:Hq; [|eauto].
  apply at_index_Ok in Hn. pose proof (Hinv _ _ _ Hn Hq).
  apply IH; lia.
Qed.

Variable p : RRT.t D State.
Variable goal : State.

Hypothesis ratio_ends : ratio_leaves RRT.ratio_fuel dzero = true.
Hypothesis budget_range : (1 <= RRT.max_sampling_num_ p < 2 ^ 32)%Z.


End Budget.

(** ** The segments of the tree are checked *)

Section Segments.

Context {D State : Type} {AD : Arith D} {SO : StateOps State D}
        {CN : Constraint State} {NM : Numerics State D}.

Lemma all_adjacent_snoc {A} (P : A -> A -> Prop) (l : list A) (a b : A) :
  all_adjacent P (l ++ [a]) -> P a b -> all_adjacent P ((l ++ [a]) ++ [b]).
Proof.
  intros Hl Hab. induction l as [|x l IH]; simpl; [auto|].
  simpl in Hl. destruct (l ++ [a]) as [|y l'] eqn:E;
    [destruct l; discriminate|].
  simpl. destruct Hl as [Hxy Hl]. split; [assumption|]. apply IH. assumption.
Qed.

(** *** RRT *)

Lemma rrt_checkCollision_states (n m : RRT.Node State) :
  RRT.checkCollision n m
  = RRT.checkCollision (RRT.mkNode (RRT.state n) None)
                       (RRT.mkNode (RRT.state m) None).
Proof. reflexivity. Qed.

Lemma rrt_edges_checked_push (nl : list (RRT.Node State))
      (x m : RRT.Node State) (q : nat) :
  rrt_edges_checked nl ->
  RRT.parent x = Some q -> nth_error nl q = Some m ->
  rrt_segment_checked (RRT.state m) (RRT.state x) ->
  rrt_edges_checked (nl ++ [x]).
Proof.
  intros Hinv Hx Hm Hc j n q' Hn Hp.
  assert (Hold : forall k y, nth_error nl k = Some y ->
                             nth_error (nl ++ [x]) k = Some y).
  { intros k y Hk. rewrite nth_error_app1; [assumption|].
    apply nth_error_Some. congruence. }
  destruct (Nat.lt_ge_cases j (length nl)) as [Hlt|Hge].
  - rewrite nth_error_app1 in Hn by assumption.
    destruct (Hinv _ _ _ Hn Hp) as (m' & Hm' & Hc'). eauto.
  - rewrite nth_error_app2 in Hn by assumption.
    destruct (j - length nl) as [|k]; simpl in Hn;
      [|destruct k; discriminate].
    inversion Hn; subst n. rewrite Hx in Hp. inversion Hp; subst q'. eauto.
Qed.

(** Leaving the loop by [break]: the goal node is appended to a tree
    whose segments all passed the check. *)
Lemma rrt_sampling_break_checked (p : RRT.t D State) (goal : State) :
  forall draws nl cnt nl' cnt',
    rrt_edges_checked nl ->
    RRT.sampling p goal draws nl cnt = Ok (Some nl', cnt') ->
    exists nl1 last_node,
      nl' = nl1 ++ [RRT.mkNode goal (Some (length nl1 - 1))]
      /\ nth_error nl1 (length nl1 - 1) = Some last_node
      /\ rrt_edges_checked nl1.
Proof.
  induction draws as [|d draws IH]; intros nl cnt nl' cnt' Hinv H;
    simpl in H; [discriminate|].
  destruct (RRT.sample_node p goal d) as [rand_node|]; [|eauto].
  cbv zeta in H. bind_inv H as nearest Hnearest. bind_inv H as free Hfree.
  apply at_index_Ok in Hnearest.
  set (new_node := RRT.generateSteerNode
                     (RRT.getNearestNodeIndex rand_node nl) nearest
                     rand_node (RRT.expand_dist_ p)) in *.
  assert (Hnl1 : rrt_edges_checked (if free then nl ++ [new_node] else nl)).
  { destruct free; [|assumption].
    eapply rrt_edges_checked_push; [assumption| |exact Hnearest|].
    - unfold new_node, RRT.generateSteerNode.
      destruct (dltb _ _); reflexivity.
    - unfold rrt_segment_checked. rewrite <- rrt_checkCollision_states.
      assumption. }
  destruct free; simpl andb in H.
  - destruct (dleb _ _).
    + inversion H; subst nl' cnt'. exists (nl ++ [new_node]), new_node.
      split; [reflexivity|]. split; [|assumption].
      rewrite length_app. simpl. rewrite nth_error_app2 by lia.
      replace (length nl + 1 - 1 - length nl) with 0 by lia. reflexivity.
    + destruct (_ =? _)%Z; [discriminate|]. eauto.
  - destruct (_ =? _)%Z; [discriminate|]. eauto.
Qed.

(** The walk, from a node below [k] of a list whose first [k] nodes have
    checked segments to their parents. *)
Lemma rrt_walk_parents_checked (nl : list (RRT.Node State)) (k : nat) :
  (forall i n q, i < k -> nth_error nl i = Some n -> RRT.parent n = Some q ->
                 q < k
                 /\ exists m, nth_error nl q = Some m
                              /\ rrt_segment_checked (RRT.state m)
                                                     (RRT.state n)) ->
  forall fuel ptr acc path n,
    ptr < k ->
    RRT.walk_parents fuel nl ptr acc = Ok path ->
    nth_error nl ptr = Some n ->
    exists pre, path = pre ++ RRT.state n :: acc
                /\ all_adjacent rrt_segment_checked (pre ++ [RRT.state n]).
Proof.
  intros Hinv. induction fuel as [|fuel IH]; intros ptr acc path n Hk H Hn;
    simpl in H; [discriminate|].
  bind_inv H as n' Hn'. apply at_index_Ok in Hn'.
  rewrite Hn in Hn'. inversion Hn'; subst n'. cbv zeta in H.
  destruct (RRT.parent n) as [q|] eqn:Hq.
  - destruct (Hinv _ _ _ Hk Hn Hq) as (Hqk & m & Hm & Hc).
    destruct (IH _ _ _ _ Hqk H Hm) as (pre & -> & Hadj).
    exists (pre ++ [RRT.state m]). split.
    + rewrite <- app_assoc. reflexivity.
    + apply all_adjacent_snoc; assumption.
  - inversion H; subst path. exists []. split; [reflexivity|exact I].
Qed.

(** The result path of a successful RRT::solve is a path through the
    tree, each of whose segments passed RRT::checkCollision, followed by
    the goal. *)
Theorem rrt_tree_segments_checked (p p' : RRT.t D State) (start goal : State)
        (draws : list (RRT.Draw D State)) :
  RRT.solve p start goal draws = Ok (true, p') ->
  exists body, RRT.result_ p' = body ++ [goal]
               /\ all_adjacent rrt_segment_checked body.
Proof.
  unfold RRT.solve. intros H. bind_inv H as r Hr.
  destruct r as [[nl'|] cnt']; simpl fst in H; [|discriminate].
  bind_inv H as result Hwalk. inversion H; subst p'. simpl. clear H.
  apply rrt_sampling_break_checked in Hr.
  - destruct Hr as (nl1 & last_node & -> & Hlast & Hinv).
    set (g := RRT.mkNode goal (Some (length nl1 - 1))) in *.
    assert (Hlt : length nl1 - 1 < length nl1)
      by (apply nth_error_Some; congruence).
    assert (Hlen : length (nl1 ++ [g]) = S (length nl1))
      by (rewrite length_app; simpl; lia).
    rewrite Hlen in Hwalk. simpl in Hwalk.
    replace (length nl1 - 0) with (length nl1) in Hwalk by lia.
    unfold at_index in Hwalk. rewrite nth_error_app2 in Hwalk by lia.
    rewrite Nat.sub_diag in Hwalk. simpl in Hwalk.
    destruct (rrt_walk_parents_checked (nl1 ++ [g]) (length nl1))
      with (fuel := length nl1) (ptr := length nl1 - 1) (acc := [goal])
           (path := result) (n := last_node)
      as (pre & -> & Hadj); try assumption.
    + intros i n q Hi Hn Hq. rewrite nth_error_app1 in Hn by assumption.
      destruct (Hinv _ _ _ Hn Hq) as (m & Hm & Hc).
      assert (q < length nl1) by (apply nth_error_Some; congruence).
      split; [assumption|]. exists m. split; [|assumption].
      rewrite nth_error_app1; assumption.
    + rewrite nth_error_app1; assumption.
    + exists (pre ++ [RRT.state last_node]). split; [|assumption].
      rewrite <- app_assoc. reflexivity.
  - intros [|i] n q Hn Hq; [inversion Hn; subst; discriminate|].
    destruct i; discriminate.
Qed.

(** *** Informed RRT* *)

Local Abbreviation sNode := (InformedRRTStar.Node D State).
Local Abbreviation sstate := InformedRRTStar.state.
Local Abbreviation sparent := InformedRRTStar.parent.

Lemma star_loop_checked (target_node : sNode) (nl : list sNode)
      (near : list nat) :
  forall p0 c0 p c,
    InformedRRTStar.chooseParentNode_loop target_node nl near (p0, c0)
    = Ok (p, c) ->
    p = p0
    \/ exists i n, p = Some i /\ nth_error nl i = Some n
                   /\ checkCollision (sstate target_node) (sstate n) = true.
Proof.
  induction near as [|i rest IH]; intros p0 c0 p c H; simpl in H.
  - inversion H. auto.
  - bind_inv H as n Hn. apply at_index_Ok in Hn. cbv zeta in H.
    simpl snd in H.
    destruct (dltb _ c0);
      [destruct (checkCollision (sstate target_node) (sstate n)) eqn:Hc|];
      apply IH in H; auto.
    destruct H as [->|H]; [|auto]. right. exists i, n. auto.
Qed.

Lemma star_chosen_checked (target_node chosen : sNode) (nl : list sNode)
      (near : list nat) :
  InformedRRTStar.chooseParentNode target_node nl near = Ok chosen ->
  sstate chosen = sstate target_node
  /\ (sparent chosen = sparent target_node
      \/ exists i n, sparent chosen = Some i /\ nth_error nl i = Some n
                     /\ checkCollision (sstate target_node) (sstate n)
                        = true).
Proof.
  unfold InformedRRTStar.chooseParentNode. intros H.
  bind_inv H as acc Hacc. destruct acc as [p c].
  apply star_loop_checked in Hacc. simpl fst in H. simpl snd in H.
  destruct (negb _); inversion H; subst chosen; simpl; auto.
Qed.

Lemma edges_checked_push (nl : list sNode) (x m : sNode) (q : nat) :
  edges_checked nl ->
  sparent x = Some q -> nth_error nl q = Some m ->
  segment_checked (sstate m) (sstate x) ->
  edges_checked (nl ++ [x]).
Proof.
  intros Hinv Hx Hm Hc j n q' Hn Hp.
  assert (Hold : forall k y, nth_error nl k = Some y ->
                             nth_error (nl ++ [x]) k = Some y).
  { intros k y Hk. rewrite nth_error_app1; [assumption|].
    apply nth_error_Some. congruence. }
  destruct (Nat.lt_ge_cases j (length nl)) as [Hlt|Hge].
  - rewrite nth_error_app1 in Hn by assumption.
    destruct (Hinv _ _ _ Hn Hp) as (m' & Hm' & Hc'). eauto.
  - rewrite nth_error_app2 in Hn by assumption.
    destruct (j - length nl) as [|k]; simpl in Hn;
      [|destruct k; discriminate].
    inversion Hn; subst n. rewrite Hx in Hp. inversion Hp; subst q'. eauto.
Qed.

Lemma edges_checked_rewire_step (nl nl' : list sNode) (new_ptr i : nat) :
  edges_checked nl ->
  InformedRRTStar.rewire_step nl new_ptr i = Ok nl' ->
  edges_checked nl'.
Proof.
  intros Hinv H. unfold InformedRRTStar.rewire_step in H.
  bind_inv H as near_node Hnear. bind_inv H as new_node Hnew.
  apply at_index_Ok in Hnear, Hnew. cbv zeta in H.
  destruct (dltb _ _); [|inversion H; subst; assumption].
  destruct (checkCollision (sstate new_node) (sstate near_node)) eqn:Hc;
    inversion H; subst nl'; [|assumption]. clear H.
  set (x := InformedRRTStar.mkNode (sstate near_node) (Some new_ptr) _).
  assert (Hilt : i < length nl) by (apply nth_error_Some; congruence).
  (* the states of the list are those of before *)
  assert (Hst : forall k y, nth_error nl k = Some y ->
                  exists y', nth_error (set_index nl i x) k = Some y'
                             /\ sstate y' = sstate y).
  { intros k y Hk. destruct (Nat.eq_dec k i) as [->|Hki].
    - rewrite set_index_same by assumption. exists x.
      split; [reflexivity|]. simpl. congruence.
    - rewrite set_index_other by assumption. eauto. }
  intros j n q Hn Hq. destruct (Nat.eq_dec j i) as [->|Hji].
  - rewrite set_index_same in Hn by assumption. inversion Hn; subst n.
    simpl in Hq. inversion Hq; subst q.
    destruct (Hst _ _ Hnew) as (y' & Hy' & Hs). exists y'.
    split; [assumption|]. simpl. rewrite Hs. left. assumption.
  - rewrite set_index_other in Hn by assumption.
    destruct (Hinv _ _ _ Hn Hq) as (m & Hm & Hcm).
    destruct (Hst _ _ Hm) as (y' & Hy' & Hs). exists y'.
    split; [assumption|]. rewrite Hs. assumption.
Qed.

Lemma edges_checked_rewire_loop (near : list nat) :
  forall (nl nl' : list sNode) new_ptr,
    edges_checked nl ->
    InformedRRTStar.rewire_loop nl new_ptr near = Ok nl' ->
    edges_checked nl'.
Proof.
  induction near as [|i rest IH]; intros nl nl' new_ptr Hinv H; simpl in H.
  - inversion H; subst. assumption.
  - bind_inv H as nl1 Hstep. apply (IH nl1 nl' new_ptr); [|assumption].
    eapply edges_checked_rewire_step; eassumption.
Qed.

Lemma edges_checked_round (p : InformedRRTStar.t D State) (goal : State)
      (d : InformedRRTStar.Draw D State) (nl nl' : list sNode)
      (gi gi' : list nat) :
  edges_checked nl ->
  InformedRRTStar.sampling_round p goal d (nl, gi) = Ok (nl', gi') ->
  edges_checked nl'.
Proof.
  intros Hinv H. unfold InformedRRTStar.sampling_round in H.
  bind_inv H as best_cost Hbest. bind_inv H as sampled Hsampled.
  destruct sampled as [rand_node|]; [|inversion H; subst; assumption].
  cbv zeta in H. bind_inv H as nearest Hnearest.
  apply at_index_Ok in Hnearest.
  destruct (checkCollision (sstate nearest) _) eqn:Hfree;
    [|inversion H; subst; assumption].
  bind_inv H as chosen Hchosen. bind_inv H as nl1 Hrewire.
  assert (Hnl1 : edges_checked nl1).
  { unfold InformedRRTStar.rewireNearNodes in Hrewire.
    destruct (nl ++ [chosen]) as [|n0 l0] eqn:E;
      [destruct nl; discriminate|].
    rewrite <- E in Hrewire.
    eapply edges_checked_rewire_loop; [|eassumption].
    apply star_chosen_checked in Hchosen.
    destruct Hchosen as [Hs [Hp|(i & n & Hp & Hn & Hc)]].
    - eapply edges_checked_push; [assumption| |exact Hnearest|].
      + rewrite Hp. apply generateSteerNode_parent.
      + rewrite Hs. left. assumption.
    - eapply edges_checked_push; [assumption|exact Hp|exact Hn|].
      rewrite Hs. right. assumption. }
  destruct (dltb _ _); inversion H; subst; assumption.
Qed.

Lemma edges_checked_sampling (p : InformedRRTStar.t D State) (goal : State) :
  forall n draws nl gi nl' gi',
    edges_checked nl ->
    InformedRRTStar.sampling p goal n draws (nl, gi) = Ok (nl', gi') ->
    edges_checked nl'.
Proof.
  induction n as [|n IH]; intros draws nl gi nl' gi' Hinv H; simpl in H.
  - inversion H; subst. assumption.
  - destruct draws as [|d draws]; [discriminate|].
    bind_inv H as s1 Hround. destruct s1 as [nl1 gi1].
    eapply IH; [|eassumption]. eapply edges_checked_round; eassumption.
Qed.

Lemma star_walk_parents_checked (nl : list sNode) :
  edges_checked nl ->
  forall fuel ptr acc path n,
    InformedRRTStar.walk_parents fuel nl ptr acc = Ok path ->
    nth_error nl ptr = Some n ->
    exists pre, path = pre ++ sstate n :: acc
                /\ all_adjacent segment_checked (pre ++ [sstate n]).
Proof.
  intros Hinv. induction fuel as [|fuel IH]; intros ptr acc path n H Hn;
    simpl in H; [discriminate|].
  bind_inv H as n' Hn'. apply at_index_Ok in Hn'.
  rewrite Hn in Hn'. inversion Hn'; subst n'. cbv zeta in H.
  destruct (sparent n) as [q|] eqn:Hq.
  - destruct (Hinv _ _ _ Hn Hq) as (m & Hm & Hc).
    destruct (IH _ _ _ _ H Hm) as (pre & -> & Hadj).
    exists (pre ++ [sstate m]). split.
    + rewrite <- app_assoc. reflexivity.
    + apply all_adjacent_snoc; assumption.
  - inversion H; subst path. exists []. split; [reflexivity|exact I].
Qed.

(** The result path of a successful InformedRRTStar::solve is a path
    through the tree, each of whose segments passed checkCollision in one
    order of its ends or the other, followed by the goal unless the path
    ends on it. *)
Theorem star_tree_segments_checked (p p' : InformedRRTStar.t D State)
        (start goal : State) (draws : list (InformedRRTStar.Draw D State)) :
  InformedRRTStar.solve p start goal draws = Ok (true, p') ->
  exists body,
    (InformedRRTStar.result_ p' = body
     \/ InformedRRTStar.result_ p' = body ++ [goal])
    /\ all_adjacent segment_checked body.
Proof.
  unfold InformedRRTStar.solve. intros H.
  bind_inv H as u Hrot. bind_inv H as s Hs. destruct s as [nl gi].
  cbv zeta in H. simpl fst in H.
  destruct (_ <? 0)%Z; [discriminate|].
  bind_inv H as result_node Hnode. bind_inv H as result Hwalk.
  inversion H; subst p'. simpl. clear H. apply at_index_Ok in Hnode.
  assert (Hinv : edges_checked nl).
  { eapply edges_checked_sampling; [|exact Hs].
    intros [|i] n q Hn Hq; [inversion Hn; subst; discriminate|].
    destruct i; discriminate. }
  destruct (star_walk_parents_checked nl Hinv _ _ _ _ _ Hwalk Hnode)
    as (pre & -> & Hadj).
  exists (pre ++ [sstate result_node]). split; [|assumption].
  destruct (negb _); [right; rewrite <- app_assoc|left]; reflexivity.
Qed.

End Segments.

(** ** Configuration and failed solves *)

Section Configuration.

Context {D State : Type} {AD : Arith D} {SO : StateOps State D}
        {CN : Constraint State} {NM : Numerics State D}.

(** A solve of Informed RRT* that returns false leaves an empty result
    path. *)
Lemma star_failed_solve_clears_result (p p' : InformedRRTStar.t D State)
      (start goal : State) (draws : list (InformedRRTStar.Draw D State)) :
  InformedRRTStar.solve p start goal draws = Ok (false, p') ->
  InformedRRTStar.result_ p' = [].
Proof.
  unfold InformedRRTStar.solve. intros H.
  bind_inv H as u Hrot. bind_inv H as s Hs. cbv zeta in H.
  destruct (_ <? 0)%Z.
  - inversion H. reflexivity.
  - bind_inv H as result_node Hnode. bind_inv H as result Hwalk.
    discriminate.
Qed.

(** A solve of RRT that returns false leaves the planner as it was, the
    result path of an earlier solve included. *)
Lemma rrt_failed_solve_keeps_planner (p p' : RRT.t D State)
      (start goal : State) (draws : list (RRT.Draw D State)) :
  RRT.solve p start goal draws = Ok (false, p') -> p' = p.
Proof.
  unfold RRT.solve. intros H. bind_inv H as r Hr.
  destruct (fst r).
  - bind_inv H as result Hwalk. discriminate.
  - inversion H. reflexivity.
Qed.

End Configuration.

(** ** Nearest node *)

Section Nearest.

Context {D State : Type} {AD : Arith D} {SO : StateOps State D}
        {CN : Constraint State} {AL : ArithLaws D}.

Lemma star_nearest_is_scan (target_node : InformedRRTStar.Node D State) :
  forall l i idx md,
    InformedRRTStar.getNearestNodeIndex_from target_node l i idx md
    = nearest_scan
        (map (fun n => distanceFrom (InformedRRTStar.state n)
                                    (InformedRRTStar.state target_node)) l)
        i idx md.
Proof.
  induction l as [|n l IH]; intros i idx md; simpl; [reflexivity|].
  destruct (dltb _ md); apply IH.
Qed.

Lemma rrt_nearest_is_scan (target_node : RRT.Node State) :
  forall l i idx md,
    RRT.getNearestNodeIndex_from target_node l i idx md
    = nearest_scan
        (map (fun n => distanceFrom (RRT.state n) (RRT.state target_node)) l)
        i idx md.
Proof.
  induction l as [|n l IH]; intros i idx md; simpl; [reflexivity|].
  destruct (dltb _ md); apply IH.
Qed.

(** The scan keeps its index when no distance is below [min_dist], and
    otherwise ends on the first least distance. *)
Lemma nearest_scan_spec :
  forall (ds : list D) i idx md,
    (nearest_scan ds i idx md = idx
     /\ forall k d, nth_error ds k = Some d -> dleb md d = true)
    \/ (exists k d,
           nearest_scan ds i idx md = i + k
           /\ nth_error ds k = Some d
           /\ dltb d md = true
           /\ (forall k' d', nth_error ds k' = Some d' -> dleb d d' = true)
           /\ (forall k' d', k' < k -> nth_error ds k' = Some d' ->
                             dltb d d' = true)).
Proof.
  induction ds as [|x ds IH]; intros i idx md; simpl.
  - left. split; [reflexivity|]. intros [|k] d H; discriminate.
  - destruct (dltb x md) eqn:Hx.
    + right. destruct (IH (S i) i x) as [[Hr Hmin]|(k & d & Hr & Hd & Hlt & Hmin & Hfirst)].
      * exists 0, x. rewrite Hr, Nat.add_0_r.
        split; [reflexivity|]. split; [reflexivity|]. split; [assumption|].
        split.
        -- intros [|k'] d' Hd'; simpl in Hd'.
           ++ inversion Hd'; subst. apply dleb_refl.
           ++ eauto.
        -- intros k' d' Hk'. lia.
      * exists (S k), d. rewrite Hr.
        split; [lia|]. split; [assumption|].
        split; [exact (dltb_trans _ _ _ Hlt Hx)|]. split.
        -- intros [|k'] d' Hd'; simpl in Hd'.
           ++ inversion Hd'; subst. apply dltb_dleb. assumption.
           ++ eauto.
        -- intros [|k'] d' Hk' Hd'; simpl in Hd'.
           ++ inversion Hd'; subst. assumption.
           ++ apply (Hfirst k'); [lia|assumption].
    + destruct (IH (S i) idx md) as [[Hr Hmin]|(k & d & Hr & Hd & Hlt & Hmin & Hfirst)].
      * left. split; [assumption|].
        intros [|k'] d' Hd'; simpl in Hd'.
        -- inversion Hd'; subst. apply dltb_false. assumption.
        -- eauto.
      * right. exists (S k), d. rewrite Hr.
        split; [lia|]. split; [assumption|]. split; [assumption|]. split.
        -- intros [|k'] d' Hd'; simpl in Hd'.
           ++ inversion Hd'; subst. apply dltb_dleb.
              apply dltb_dleb_trans with (b := md); [assumption|].
              apply dltb_false. assumption.
           ++ eauto.
        -- intros [|k'] d' Hk' Hd'; simpl in Hd'.
           ++ inversion Hd'; subst.
              apply dltb_dleb_trans with (b := md); [assumption|].
              apply dltb_false. assumption.
           ++ apply (Hfirst k'); [lia|assumption].
Qed.

Lemma nearest_scan_first_least (ds : list D) :
  ds <> [] ->
  (forall k d, nth_error ds k = Some d -> dltb d dmax = true) ->
  exists d,
    nth_error ds (nearest_scan ds 0 0 dmax) = Some d
    /\ (forall k' d', nth_error ds k' = Some d' -> dleb d d' = true)
    /\ (forall k' d', k' < nearest_scan ds 0 0 dmax ->
                      nth_error ds k' = Some d' -> dltb d d' = true).
Proof.
  intros Hne Hfin.
  destruct (nearest_scan_spec ds 0 0 dmax)
    as [[_ Hmin]|(k & d & Hr & Hd & _ & Hmin & Hfirst)].
  - destruct ds as [|x ds]; [contradiction|].
    specialize (Hmin 0 x eq_refl). specialize (Hfin 0 x eq_refl).
    apply dleb_dltb_false in Hmin. congruence.
  - rewrite Hr. simpl. eauto.
Qed.

(** getNearestNodeIndex, of Informed RRT* and of RRT, returns the index
    of a node nearest to the target, and the lowest such index; the
    distances are below [DBL_MAX] and the list is not empty.  On an empty
    list it returns 0. *)
Theorem getNearestNodeIndex_spec
        (target_node : InformedRRTStar.Node D State)
        (node_list : list (InformedRRTStar.Node D State))
        (rtarget_node : RRT.Node State) (rnode_list : list (RRT.Node State)) :
  (node_list <> [] ->
   (forall k n, nth_error node_list k = Some n ->
                dltb (distanceFrom (InformedRRTStar.state n)
                                   (InformedRRTStar.state target_node))
                     dmax = true) ->
   let dist n := distanceFrom (InformedRRTStar.state n)
                              (InformedRRTStar.state target_node) in
   let idx := InformedRRTStar.getNearestNodeIndex target_node node_list in
   exists nearest,
     nth_error node_list idx = Some nearest
     /\ (forall k n, nth_error node_list k = Some n ->
                     dleb (dist nearest) (dist n) = true)
     /\ (forall k n, k < idx -> nth_error node_list k = Some n ->
                     dltb (dist nearest) (dist n) = true))
  /\ (rnode_list <> [] ->
      (forall k n, nth_error rnode_list k = Some n ->
                   dltb (distanceFrom (RRT.state n) (RRT.state rtarget_node))
                        dmax = true) ->
      let dist n := distanceFrom (RRT.state n) (RRT.state rtarget_node) in
      let idx := RRT.getNearestNodeIndex rtarget_node rnode_list in
      exists nearest,
        nth_error rnode_list idx = Some nearest
        /\ (forall k n, nth_error rnode_list k = Some n ->
                        dleb (dist nearest) (dist n) = true)
        /\ (forall k n, k < idx -> nth_error rnode_list k = Some n ->
                        dltb (dist nearest) (dist n) = true))
  /\ InformedRRTStar.getNearestNodeIndex target_node [] = 0
  /\ RRT.getNearestNodeIndex rtarget_node [] = 0.
Proof.
  split; [|split; [|split; reflexivity]].
  - intros Hne Hfin. cbv zeta.
    unfold InformedRRTStar.getNearestNodeIndex.
    rewrite star_nearest_is_scan.
    set (f := fun n : InformedRRTStar.Node D State =>
                distanceFrom (InformedRRTStar.state n)
                             (InformedRRTStar.state target_node)).
    destruct (nearest_scan_first_least (map f node_list))
      as (d & Hd & Hmin & Hfirst).
    + destruct node_list; [contradiction|discriminate].
    + intros k d Hk. rewrite nth_error_map in Hk.
      destruct (nth_error node_list k) as [n|] eqn:Hn; [|discriminate].
      inversion Hk; subst d. eauto.
    + rewrite nth_error_map in Hd.
      destruct (nth_error node_list _) as [nearest|] eqn:Hn; [|discriminate].
      inversion Hd; subst d. exists nearest. split; [reflexivity|]. split.
      * intros k n Hk. apply (Hmin k). rewrite nth_error_map, Hk. reflexivity.
      * intros k n Hlt Hk. apply (Hfirst k); [assumption|].
        rewrite nth_error_map, Hk. reflexivity.
  - intros Hne Hfin. cbv zeta.
    unfold RRT.getNearestNodeIndex.
    rewrite rrt_nearest_is_scan.
    set (f := fun n : RRT.Node State =>
                distanceFrom (RRT.state n) (RRT.state rtarget_node)).
    destruct (nearest_scan_first_least (map f rnode_list))
      as (d & Hd & Hmin & Hfirst).
    + destruct rnode_list; [contradiction|discriminate].
    + intros k d Hk. rewrite nth_error_map in Hk.
      destruct (nth_error rnode_list k) as [n|] eqn:Hn; [|discriminate].
      inversion Hk; subst d. eauto.
    + rewrite nth_error_map in Hd.
      destruct (nth_error rnode_list _) as [nearest|] eqn:Hn; [|discriminate].
      inversion Hd; subst d. exists nearest. split; [reflexivity|]. split.
      * intros k n Hk. apply (Hmin k). rewrite nth_error_map, Hk. reflexivity.
      * intros k n Hlt Hk. apply (Hfirst k); [assumption|].
        rewrite nth_error_map, Hk. reflexivity.
Qed.

End Nearest.

(** ** Near nodes *)

Section Near.

Context {D State : Type} {AD : Arith D} {SO : StateOps State D}
        {CN : Constraint State} {NM : Numerics State D}.

Local Abbreviation Node := (InformedRRTStar.Node D State).
Local Abbreviation state := InformedRRTStar.state.
Local Abbreviation cost := InformedRRTStar.cost.

Lemma findNearNodes_from_In (target_node : Node) (radius : D) :
  forall l i j,
    In j (InformedRRTStar.findNearNodes_from target_node l i radius)
    <-> exists k n, j = i + k /\ nth_error l k = Some n
                    /\ dltb (distanceFrom (state n) (state target_node))
                            radius = true.
Proof.
  induction l as [|x l IH]; intros i j; simpl.
  - split; [intros []|]. intros ([|k] & n & _ & H & _); discriminate.
  - destruct (dltb (distanceFrom (state x) (state target_node)) radius)
      eqn:Hx; simpl; rewrite IH; split.
    + intros [<-|(k & n & -> & Hn & Hd)].
      * exists 0, x. rewrite Nat.add_0_r. auto.
      * exists (S k), n. split; [lia|auto].
    + intros ([|k] & n & -> & Hn & Hd); simpl in Hn.
      * left. lia.
      * right. exists k, n. split; [lia|auto].
    + intros (k & n & -> & Hn & Hd). exists (S k), n. split; [lia|auto].
    + intros ([|k] & n & -> & Hn & Hd); simpl in Hn.
      * inversion Hn; subst. congruence.
      * exists k, n. split; [lia|auto].
Qed.

Lemma findNearNodes_from_sorted (target_node : Node) (radius : D) :
  forall l i,
    StronglySorted lt
      (InformedRRTStar.findNearNodes_from target_node l i radius).
Proof.
  induction l as [|x l IH]; intros i; simpl; [constructor|].
  destruct (dltb _ radius); [|apply IH].
  constructor; [apply IH|]. apply Forall_forall. intros j Hj.
  apply findNearNodes_from_In in Hj. destruct Hj as (k & n & -> & _). lia.
Qed.

Lemma StronglySorted_lt_NoDup (l : list nat) : StronglySorted lt l -> NoDup l.
Proof.
  induction 1 as [|a l Hl IH Ha]; constructor; [|assumption].
  intros Hin. rewrite Forall_forall in Ha. specialize (Ha a Hin). lia.
Qed.

Lemma findNearNodes_In (R : D) (target_node : Node) (nl : list Node) (j : nat) :
  In j (InformedRRTStar.findNearNodes R target_node nl)
  <-> exists n, nth_error nl j = Some n
                /\ dltb (distanceFrom (state n) (state target_node))
                        (near_radius R (length nl) space_getDim) = true.
Proof.
  unfold InformedRRTStar.findNearNodes.
  destruct (Nat.eqb (length nl) 0) eqn:E.
  - apply Nat.eqb_eq in E. destruct nl; [|discriminate].
    split; [intros []|]. intros (n & Hn & _). destruct j; discriminate.
  - rewrite findNearNodes_from_In. split.
    + intros (k & n & -> & Hn & Hd). eauto.
    + intros (n & Hn & Hd). exists j, n. auto.
Qed.

Lemma findNearNodes_NoDup (R : D) (target_node : Node) (nl : list Node) :
  NoDup (InformedRRTStar.findNearNodes R target_node nl).
Proof.
  apply StronglySorted_lt_NoDup. unfold InformedRRTStar.findNearNodes.
  destruct (Nat.eqb _ 0); [constructor|apply findNearNodes_from_sorted].
Qed.

(** findNearNodes returns, in increasing order and each once, exactly the
    indexes of the nodes whose distance to the target is strictly below
    the radius [R * pow(log(N) / N, 1 / dim)]; none for an empty list. *)
Theorem findNearNodes_spec (R : D) (target_node : Node) (nl : list Node) :
  let near := InformedRRTStar.findNearNodes R target_node nl in
  (forall j,
      In j near
      <-> exists n, nth_error nl j = Some n
                    /\ dltb (distanceFrom (state n) (state target_node))
                            (near_radius R (length nl) space_getDim) = true)
  /\ StronglySorted lt near
  /\ NoDup near
  /\ InformedRRTStar.findNearNodes R target_node [] = [].
Proof.
  cbv zeta. split; [intros j; apply findNearNodes_In|].
  split; [|split; [apply findNearNodes_NoDup|reflexivity]].
  unfold InformedRRTStar.findNearNodes.
  destruct (Nat.eqb _ 0); [constructor|apply findNearNodes_from_sorted].
Qed.

(** The near indexes of a tree are looked up, the candidate is appended
    and the near nodes are rewired, as the sampling loop does: the call
    returns, the appended node is left as it is, and a node of the tree
    is put under it exactly when it is within the radius, the cost through
    the appended node is strictly less than its own and checkCollision
    holds from the appended node to it. *)
Theorem rewire_after_findNearNodes (R : D) (target_node new_node : Node)
        (nl : list Node) :
  let radius := near_radius R (length nl) space_getDim in
  exists nl',
    InformedRRTStar.rewireNearNodes
      (nl ++ [new_node]) (InformedRRTStar.findNearNodes R target_node nl)
    = Ok nl'
    /\ length nl' = length nl + 1
    /\ nth_error nl' (length nl) = Some new_node
    /\ forall j n,
        nth_error nl j = Some n ->
        let new_cost :=
          dadd (cost new_node) (distanceFrom (state n) (state new_node)) in
        nth_error nl' j
        = Some (if dltb (distanceFrom (state n) (state target_node)) radius
                   && dltb new_cost (cost n)
                   && checkCollision (state new_node) (state n)
                then InformedRRTStar.mkNode (state n) (Some (length nl))
                                            new_cost
                else n).
Proof.
  cbv zeta.
  set (near := InformedRRTStar.findNearNodes R target_node nl).
  assert (Hin : forall j, In j near -> j < length nl).
  { intros j Hj. apply findNearNodes_In in Hj. destruct Hj as (n & Hn & _).
    apply nth_error_Some. congruence. }
  assert (Hlen : length (nl ++ [new_node]) = length nl + 1)
    by (rewrite length_app; reflexivity).
  assert (Hlast : nth_error (nl ++ [new_node]) (length nl) = Some new_node).
  { rewrite nth_error_app2 by lia. rewrite Nat.sub_diag. reflexivity. }
  destruct (rewire_loop_returns near (nl ++ [new_node]) (length nl))
    as (nl' & Hnl').
  { intros j Hj. apply Hin in Hj. lia. }
  { lia. }
  assert (Hnew : ~ In (length nl) near).
  { intros H. apply Hin in H. lia. }
  assert (Hcall : InformedRRTStar.rewireNearNodes (nl ++ [new_node]) near
                  = Ok nl').
  { unfold InformedRRTStar.rewireNearNodes.
    destruct (nl ++ [new_node]) as [|n0 l0] eqn:E;
      [destruct nl; discriminate|].
    rewrite <- E in *. rewrite Hlen.
    replace (length nl + 1 - 1) with (length nl) by lia. assumption. }
  exists nl'. split; [assumption|].
  split; [rewrite <- Hlen; eapply rewire_loop_length; eassumption|].
  pose proof (rewire_loop_spec new_node (length nl) near _ _ Hnl'
                (findNearNodes_NoDup R target_node nl) Hnew Hlast) as Hspec.
  split.
  - rewrite (Hspec _ _ Hlast).
    replace (existsb (Nat.eqb (length nl)) near) with false; [reflexivity|].
    symmetry. destruct (existsb _ near) eqn:E; [|reflexivity].
    apply existsb_exists in E. destruct E as (x & Hx & E).
    apply Nat.eqb_eq in E. subst x. contradiction.
  - intros j n Hn.
    assert (Hn' : nth_error (nl ++ [new_node]) j = Some n).
    { rewrite nth_error_app1; [assumption|].
      apply nth_error_Some. congruence. }
    rewrite (Hspec _ _ Hn'). f_equal.
    replace (existsb (Nat.eqb j) near)
      with (dltb (distanceFrom (state n) (state target_node))
                 (near_radius R (length nl) space_getDim)); [reflexivity|].
    destruct (existsb (Nat.eqb j) near) eqn:E.
    + apply existsb_exists in E. destruct E as (x & Hx & E).
      apply Nat.eqb_eq in E. subst x. apply findNearNodes_In in Hx.
      destruct Hx as (n' & Hn'' & Hd). congruence.
    + destruct (dltb _ _) eqn:Hd; [|reflexivity].
      assert (Hj : In j near) by (apply findNearNodes_In; eauto).
      assert (existsb (Nat.eqb j) near = true).
      { apply existsb_exists. exists j. split; [assumption|].
        apply Nat.eqb_refl. }
      congruence.
Qed.

End Near.

(** ** Best node *)

Section Best.

Context {D State : Type} {AD : Arith D} {SO : StateOps State D}
        {CN : Constraint State} {NM : Numerics State D}.

Local Abbreviation Node := (InformedRRTStar.Node D State).
Local Abbreviation state := InformedRRTStar.state.
Local Abbreviation cost := InformedRRTStar.cost.

(** An index that the scan of getBestNodeIndex sets is that of a node
    within the radius. *)
Lemma getBestNodeIndex_from_within (target_state : State) (radius : D) :
  forall (l : list Node) i best_index min_cost,
    let r := InformedRRTStar.getBestNodeIndex_from target_state radius l i
                                                   best_index min_cost in
    r = best_index
    \/ exists k n, r = Z.of_nat (i + k) /\ nth_error l k = Some n
                   /\ dltb (distanceFrom target_state (state n)) radius
                      = true.
Proof.
  induction l as [|x l IH]; intros i best_index min_cost; simpl; [auto|].
  destruct (dltb (distanceFrom target_state (state x)) radius) eqn:Hx;
    [destruct (dltb (cost x) min_cost)|].
  - right. destruct (IH (S i) (Z.of_nat i) (cost x)) as [H|(k & n & H & Hn & Hd)];
      simpl in H.
    + exists 0, x. rewrite H, Nat.add_0_r. auto.
    + exists (S k), n. rewrite H. split; [f_equal; lia|auto].
  - destruct (IH (S i) best_index min_cost) as [H|(k & n & H & Hn & Hd)];
      simpl in H; [auto|].
    right. exists (S k), n. rewrite H. split; [f_equal; lia|auto].
  - destruct (IH (S i) best_index min_cost) as [H|(k & n & H & Hn & Hd)];
      simpl in H; [auto|].
    right. exists (S k), n. rewrite H. split; [f_equal; lia|auto].
Qed.

Context {AL : ArithLaws D}.

Lemma getBestNodeIndex_from_spec (target_state : State) (radius : D) :
  forall (l : list Node) i best_index min_cost,
    let within n := dltb (distanceFrom target_state (state n)) radius in
    let r := InformedRRTStar.getBestNodeIndex_from target_state radius l i
                                                   best_index min_cost in
    (r = best_index
     /\ forall k n, nth_error l k = Some n -> within n = true ->
                    dleb min_cost (cost n) = true)
    \/ (exists k n,
           r = Z.of_nat (i + k) /\ nth_error l k = Some n
           /\ within n = true /\ dltb (cost n) min_cost = true
           /\ (forall k' n', nth_error l k' = Some n' -> within n' = true ->
                             dleb (cost n) (cost n') = true)
           /\ (forall k' n', k' < k -> nth_error l k' = Some n' ->
                             within n' = true ->
                             dltb (cost n) (cost n') = true)).
Proof.
  induction l as [|x l IH]; intros i best_index min_cost; cbv zeta; simpl.
  - left. split; [reflexivity|]. intros [|k] n H; discriminate.
  - destruct (dltb (distanceFrom target_state (state x)) radius) eqn:Hw;
      [destruct (dltb (cost x) min_cost) eqn:Hx|].
    + right.
      destruct (IH (S i) (Z.of_nat i) (cost x))
        as [[Hr Hmin]|(k & n & Hr & Hn & Hwn & Hlt & Hmin & Hfirst)];
        cbv zeta in *.
      * exists 0, x. rewrite Hr, Nat.add_0_r.
        repeat (split; [solve [auto]|]). split.
        -- intros [|k'] n' Hn' Hw'; simpl in Hn'.
           ++ inversion Hn'; subst. apply dleb_refl.
           ++ eauto.
        -- intros k' n' Hk'. lia.
      * exists (S k), n. rewrite Hr.
        split; [f_equal; lia|]. split; [assumption|]. split; [assumption|].
        split; [exact (dltb_trans _ _ _ Hlt Hx)|]. split.
        -- intros [|k'] n' Hn' Hw'; simpl in Hn'.
           ++ inversion Hn'; subst. apply dltb_dleb. assumption.
           ++ eauto.
        -- intros [|k'] n' Hk' Hn' Hw'; simpl in Hn'.
           ++ inversion Hn'; subst. assumption.
           ++ apply (Hfirst k'); [lia|assumption..].
    + destruct (IH (S i) best_index min_cost)
        as [[Hr Hmin]|(k & n & Hr & Hn & Hwn & Hlt & Hmin & Hfirst)];
        cbv zeta in *.
      * left. split; [assumption|].
        intros [|k'] n' Hn' Hw'; simpl in Hn'.
        -- inversion Hn'; subst. apply dltb_false. assumption.
        -- eauto.
      * right. exists (S k), n. rewrite Hr.
        split; [f_equal; lia|]. repeat (split; [assumption|]). split.
        -- intros [|k'] n' Hn' Hw'; simpl in Hn'.
           ++ inversion Hn'; subst. apply dltb_dleb.
              apply dltb_dleb_trans with (b := min_cost); [assumption|].
              apply dltb_false. assumption.
           ++ eauto.
        -- intros [|k'] n' Hk' Hn' Hw'; simpl in Hn'.
           ++ inversion Hn'; subst.
              apply dltb_dleb_trans with (b := min_cost); [assumption|].
              apply dltb_false. assumption.
           ++ apply (Hfirst k'); [lia|assumption..].
    + destruct (IH (S i) best_index min_cost)
        as [[Hr Hmin]|(k & n & Hr & Hn & Hwn & Hlt & Hmin & Hfirst)];
        cbv zeta in *.
      * left. split; [assumption|].
        intros [|k'] n' Hn' Hw'; simpl in Hn'.
        -- inversion Hn'; subst. congruence.
        -- eauto.
      * right. exists (S k), n. rewrite Hr.
        split; [f_equal; lia|]. repeat (split; [assumption|]). split.
        -- intros [|k'] n' Hn' Hw'; simpl in Hn'.
           ++ inversion Hn'; subst. congruence.
           ++ eauto.
        -- intros [|k'] n' Hk' Hn' Hw'; simpl in Hn'.
           ++ inversion Hn'; subst. congruence.
           ++ apply (Hfirst k'); [lia|assumption..].
Qed.

(** getBestNodeIndex returns -1 exactly when no node lies within the
    radius of the target, and otherwise the index of a node of least cost
    among those that do, the lowest such index; the costs of the nodes
    within the radius are finite. *)
Theorem getBestNodeIndex_spec (target_state : State) (radius : D)
        (node_list : list Node) :
  let within n := dltb (distanceFrom target_state (state n)) radius in
  let best := InformedRRTStar.getBestNodeIndex target_state radius node_list in
  (forall k n, nth_error node_list k = Some n -> within n = true ->
               dltb (cost n) dmax = true) ->
  (best = (-1)%Z
   <-> forall k n, nth_error node_list k = Some n -> within n = false)
  /\ (best <> (-1)%Z ->
      exists n,
        (0 <= best)%Z
        /\ nth_error node_list (Z.to_nat best) = Some n
        /\ within n = true
        /\ (forall k' n', nth_error node_list k' = Some n' ->
                          within n' = true ->
                          dleb (cost n) (cost n') = true)
        /\ (forall k' n', k' < Z.to_nat best ->
                          nth_error node_list k' = Some n' ->
                          within n' = true ->
                          dltb (cost n) (cost n') = true)).
Proof.
  cbv zeta. intros Hfin. unfold InformedRRTStar.getBestNodeIndex.
  destruct (getBestNodeIndex_from_spec target_state radius node_list 0
              (-1)%Z dmax)
    as [[Hr Hmin]|(k & n & Hr & Hn & Hw & Hlt & Hmin & Hfirst)];
    cbv zeta in *; rewrite Hr.
  - split; [|congruence]. split; [|reflexivity].
    intros _ k n Hn.
    destruct (dltb (distanceFrom target_state (state n)) radius) eqn:Hw;
      [|reflexivity].
    specialize (Hmin _ _ Hn Hw). specialize (Hfin _ _ Hn Hw).
    apply dleb_dltb_false in Hmin. congruence.
  - simpl Nat.add. split.
    + split; [lia|]. intros Hnone. specialize (Hnone _ _ Hn). congruence.
    + intros _. exists n. rewrite Nat2Z.id.
      split; [lia|]. repeat (split; [assumption|]). assumption.
Qed.

End Best.

(** ** The growth of the tree and the goal region *)

Section Growth.

Context {D State : Type} {AD : Arith D} {SO : StateOps State D}
        {CN : Constraint State} {NM : Numerics State D}.

Local Abbreviation Node := (InformedRRTStar.Node D State).
Local Abbreviation state := InformedRRTStar.state.
Local Abbreviation cost := InformedRRTStar.cost.

Lemma map_state_set_index (nl : list Node) (i : nat) (x y : Node) :
  nth_error nl i = Some y -> state x = state y ->
  map state (set_index nl i x) = map state nl.
Proof.
  revert i. induction nl as [|z nl IH]; intros [|i] Hy Hs; simpl in *;
    try discriminate.
  - inversion Hy; subst. rewrite Hs. reflexivity.
  - f_equal. apply IH; assumption.
Qed.

Lemma rewire_loop_states (near : list nat) :
  forall (nl nl' : list Node) new_ptr,
    InformedRRTStar.rewire_loop nl new_ptr near = Ok nl' ->
    map state nl' = map state nl.
Proof.
  induction near as [|i rest IH]; intros nl nl' new_ptr H; simpl in H.
  - inversion H. reflexivity.
  - bind_inv H as nl1 Hstep. apply IH in H. rewrite H.
    apply rewire_step_spec in Hstep.
    destruct Hstep as (near_node & new_node & Hi & _ & ->).
    destruct (_ && _); [|reflexivity].
    eapply map_state_set_index; [exact Hi|reflexivity].
Qed.

(** A round leaves the tree and the goal indexes as they are, or appends
    one node, whose index joins the goal indexes when its state is within
    [goal_region_radius_] of the goal; the states already in the tree stay. *)
Lemma sampling_round_shape (p : InformedRRTStar.t D State) (goal : State)
      (d : InformedRRTStar.Draw D State) (nl nl' : list Node)
      (gi gi' : list nat) :
  InformedRRTStar.sampling_round p goal d (nl, gi) = Ok (nl', gi') ->
  (nl' = nl /\ gi' = gi)
  \/ exists s,
      map state nl' = map state nl ++ [s]
      /\ gi' = if dltb (distanceFrom s goal)
                       (InformedRRTStar.goal_region_radius_ p)
               then gi ++ [length nl] else gi.
Proof.
  intros H. unfold InformedRRTStar.sampling_round in H.
  bind_inv H as best_cost Hbest. bind_inv H as sampled Hsampled.
  destruct sampled as [rand_node|]; [|inversion H; auto].
  cbv zeta in H. bind_inv H as nearest Hnearest.
  destruct (checkCollision _ _); [|inversion H; auto].
  bind_inv H as chosen Hchosen. bind_inv H as nl1 Hrewire.
  right. exists (state chosen).
  unfold InformedRRTStar.rewireNearNodes in Hrewire.
  destruct (nl ++ [chosen]) as [|n0 l0] eqn:E; [discriminate|].
  rewrite <- E in Hrewire.
  pose proof (rewire_loop_length _ _ _ _ Hrewire) as Hlen.
  apply rewire_loop_states in Hrewire.
  rewrite map_app in Hrewire. simpl in Hrewire.
  rewrite length_app in Hlen. simpl in Hlen.
  replace (length nl1 - 1) with (length nl) in H by lia.
  destruct (dltb _ _); inversion H; subst; auto.
Qed.

Lemma sampling_shape (p : InformedRRTStar.t D State) (goal : State) :
  forall n draws (nl nl' : list Node) gi gi',
    InformedRRTStar.sampling p goal n draws (nl, gi) = Ok (nl', gi') ->
    exists added,
      map state nl' = map state nl ++ added /\ length added <= n.
Proof.
  induction n as [|n IH]; intros draws nl nl' gi gi' H; simpl in H.
  - inversion H; subst. exists []. rewrite app_nil_r. auto.
  - destruct draws as [|d draws]; [discriminate|].
    bind_inv H as s1 Hround. destruct s1 as [nl1 gi1].
    apply IH in H. destruct H as (added & Hmap & Hlen).
    apply sampling_round_shape in Hround.
    destruct Hround as [[-> ->]|(s & Hs & _)].
    + exists added. split; [assumption|lia].
    + exists (s :: added). rewrite Hmap, Hs, <- app_assoc.
      split; [reflexivity|simpl; lia].
Qed.

(** The tree of Informed RRT* only grows at its end: after [n] rounds the
    states of the nodes are those before, in place, followed by at most
    [n] new ones; counted from the start of a solve, [start] and at most
    [n] more. *)
Theorem node_list_append_only (p : InformedRRTStar.t D State)
        (start goal : State) (n : nat)
        (draws : list (InformedRRTStar.Draw D State))
        (nl nl' : list Node) (gi gi' : list nat) :
  (InformedRRTStar.sampling p goal n draws (nl, gi) = Ok (nl', gi') ->
   exists added,
     map state nl' = map state nl ++ added /\ length added <= n)
  /\ (InformedRRTStar.sampling p goal n draws
        ([InformedRRTStar.mkNode start None dzero], []) = Ok (nl', gi') ->
      exists added,
        map state nl' = start :: added /\ length nl' <= 1 + n).
Proof.
  split; [apply sampling_shape|].
  intros H. apply sampling_shape in H. destruct H as (added & Hmap & Hlen).
  exists added. split; [assumption|].
  rewrite <- (length_map state), Hmap. simpl. lia.
Qed.

(** The invariant of the goal indexes. *)
Lemma goal_indexes_round (p : InformedRRTStar.t D State) (goal : State)
      (d : InformedRRTStar.Draw D State) (nl nl' : list Node)
      (gi gi' : list nat) :
  let within s :=
    dltb (distanceFrom s goal) (InformedRRTStar.goal_region_radius_ p) in
  nl <> [] ->
  StronglySorted lt gi ->
  (forall j, In j gi <-> 1 <= j /\ exists s, nth_error (map state nl) j = Some s
                                             /\ within s = true) ->
  InformedRRTStar.sampling_round p goal d (nl, gi) = Ok (nl', gi') ->
  nl' <> [] /\ StronglySorted lt gi'
  /\ (forall j, In j gi' <-> 1 <= j /\ exists s, nth_error (map state nl') j = Some s
                                                 /\ within s = true).
Proof.
  cbv zeta. intros Hne Hsorted Hgi H. apply sampling_round_shape in H.
  destruct H as [[-> ->]|(s & Hs & ->)]; [auto|].
  assert (Hlen : length (map state nl) = length nl) by apply length_map.
  assert (Hpos : 1 <= length nl) by (destruct nl; [contradiction|simpl; lia]).
  split; [intros ->; destruct (map state nl); discriminate|].
  assert (Hold : forall j, In j gi -> j < length nl).
  { intros j Hj. apply Hgi in Hj. destruct Hj as (_ & s' & Hs' & _).
    rewrite <- Hlen. apply nth_error_Some. congruence. }
  rewrite Hs.
  assert (Hnth : forall j s',
             nth_error (map state nl ++ [s]) j = Some s'
             <-> nth_error (map state nl) j = Some s'
                 \/ (j = length nl /\ s' = s)).
  { intros j s'. destruct (Nat.lt_ge_cases j (length nl)) as [Hlt|Hge].
    - rewrite nth_error_app1 by lia. split; [auto|].
      intros [H|[H _]]; [assumption|lia].
    - rewrite nth_error_app2 by lia. rewrite Hlen. split.
      + destruct (j - length nl) as [|k] eqn:E; simpl;
          [|destruct k; discriminate].
        intros H. inversion H. right. split; [lia|reflexivity].
      + intros [H|[-> ->]].
        * assert (j < length (map state nl)) by (apply nth_error_Some; congruence).
          lia.
        * rewrite Nat.sub_diag. reflexivity. }
  destruct (dltb (distanceFrom s goal) _) eqn:Hw.
  - split.
    + clear Hgi. induction Hsorted as [|a l Hl IH Ha]; simpl.
      * repeat constructor.
      * constructor.
        -- apply IH. intros j Hj. apply Hold. right. assumption.
        -- apply Forall_app. split; [assumption|].
           constructor; [|constructor]. apply Hold. left. reflexivity.
    + intros j. rewrite in_app_iff. rewrite Hgi. split.
      * intros [(Hj & s' & Hs' & Hw')|[<-|[]]].
        -- split; [assumption|]. exists s'. rewrite Hnth. auto.
        -- split; [assumption|]. exists s. rewrite Hnth. auto.
      * intros (Hj & s' & Hs' & Hw'). apply Hnth in Hs'.
        destruct Hs' as [Hs'|[-> ->]]; [left; eauto|right; left; reflexivity].
  - split; [assumption|]. intros j. rewrite Hgi. split.
    + intros (Hj & s' & Hs' & Hw'). split; [assumption|].
      exists s'. rewrite Hnth. auto.
    + intros (Hj & s' & Hs' & Hw'). apply Hnth in Hs'.
      destruct Hs' as [Hs'|[-> ->]]; [eauto|congruence].
Qed.

Lemma goal_indexes_sampling (p : InformedRRTStar.t D State) (goal : State) :
  let within s :=
    dltb (distanceFrom s goal) (InformedRRTStar.goal_region_radius_ p) in
  forall n draws (nl nl' : list Node) gi gi',
    nl <> [] ->
    StronglySorted lt gi ->
    (forall j, In j gi <-> 1 <= j /\ exists s, nth_error (map state nl) j = Some s
                                               /\ within s = true) ->
    InformedRRTStar.sampling p goal n draws (nl, gi) = Ok (nl', gi') ->
    StronglySorted lt gi'
    /\ (forall j, In j gi' <-> 1 <= j /\ exists s, nth_error (map state nl') j = Some s
                                                   /\ within s = true).
Proof.
  cbv zeta. induction n as [|n IH]; intros draws nl nl' gi gi' Hne Hs Hgi H;
    simpl in H.
  - inversion H; subst. auto.
  - destruct draws as [|d draws]; [discriminate|].
    bind_inv H as s1 Hround. destruct s1 as [nl1 gi1].
    destruct (goal_indexes_round p goal d nl nl1 gi gi1 Hne Hs Hgi Hround)
      as (Hne1 & Hs1 & Hgi1).
    eapply IH; eassumption.
Qed.

(** The goal indexes that the sampling loop keeps are, in increasing
    order, exactly the indexes of the nodes other than the root whose
    state is within [goal_region_radius_] of the goal: the root is never
    one of them, however near the goal [start] is. *)
Theorem goal_node_indexes_spec (p : InformedRRTStar.t D State)
        (start goal : State) (n : nat)
        (draws : list (InformedRRTStar.Draw D State))
        (nl : list Node) (gi : list nat) :
  InformedRRTStar.sampling p goal n draws
    ([InformedRRTStar.mkNode start None dzero], []) = Ok (nl, gi) ->
  StronglySorted lt gi
  /\ forall j,
      In j gi
      <-> 1 <= j
          /\ exists nd, nth_error nl j = Some nd
                        /\ dltb (distanceFrom (state nd) goal)
                                (InformedRRTStar.goal_region_radius_ p)
                           = true.
Proof.
  intros H.
  assert (Hne : [InformedRRTStar.mkNode start None (dzero : D)] <> [])
    by discriminate.
  assert (Hinit : forall j,
             In j (@nil nat)
             <-> 1 <= j
                 /\ exists s,
                     nth_error
                       (map state [InformedRRTStar.mkNode start None (dzero : D)]) j
                     = Some s
                     /\ dltb (distanceFrom s goal)
                             (InformedRRTStar.goal_region_radius_ p) = true).
  { intros j. split; [intros []|].
    intros (Hj & s & Hs & _). destruct j as [|[|j]]; [lia|discriminate..]. }
  destruct (goal_indexes_sampling p goal n draws _ _ _ _
              Hne (SSorted_nil lt) Hinit H) as [Hsorted Hgi].
  split; [assumption|]. intros j. rewrite Hgi. split.
  - intros (Hj & s & Hs & Hw). split; [assumption|].
    rewrite nth_error_map in Hs.
    destruct (nth_error nl j) as [nd|]; [|discriminate].
    inversion Hs; subst s. eauto.
  - intros (Hj & nd & Hnd & Hw). split; [assumption|].
    exists (state nd). rewrite nth_error_map, Hnd. auto.
Qed.

End Growth.

(** ** What a solve can end in *)

Section Outcome.

Context {D State : Type} {AD : Arith D} {SO : StateOps State D}
        {CN : Constraint State} {NM : Numerics State D}.

Local Abbreviation sNode := (InformedRRTStar.Node D State).
Local Abbreviation sstate := InformedRRTStar.state.
Local Abbreviation sparent := InformedRRTStar.parent.

(** *** Informed RRT* *)

Lemma sample_node_outcome (p : InformedRRTStar.t D State) (goal : State)
      (best_cost : D) (d : InformedRRTStar.Draw D State) :
  (exists sampled, InformedRRTStar.sample_node p goal best_cost d = Ok sampled)
  \/ (InformedRRTStar.sample_node p goal best_cost d = Throw invalid_argument
      /\ space_getDim = 0
      /\ deqb best_cost dmax = false).
Proof.
  unfold InformedRRTStar.sample_node.
  destruct (dltb _ _); [|eauto].
  destruct (deqb best_cost dmax); simpl.
  - destruct (is_NOENTRY _); eauto.
  - unfold InformedRRTStar.sampleUnitNBall.
    destruct (Nat.eqb space_getDim 0) eqn:E; simpl.
    + apply Nat.eqb_eq in E. auto.
    + destruct (is_NOENTRY _); eauto.
Qed.

Lemma star_sampling_round_outcome (p : InformedRRTStar.t D State)
      (goal : State) (d : InformedRRTStar.Draw D State)
      (nl : list sNode) (gi : list nat) :
  nl <> [] -> (forall j, In j gi -> j < length nl) ->
  (exists nl' gi',
      InformedRRTStar.sampling_round p goal d (nl, gi) = Ok (nl', gi')
      /\ nl' <> [] /\ (forall j, In j gi' -> j < length nl'))
  \/ (InformedRRTStar.sampling_round p goal d (nl, gi)
      = Throw invalid_argument
      /\ space_getDim = 0).
Proof.
  intros Hne Hgi. unfold InformedRRTStar.sampling_round.
  destruct (best_cost_loop_returns nl gi dmax Hgi) as (best_cost & Hbest).
  rewrite Hbest. simpl.
  destruct (sample_node_outcome p goal best_cost d)
    as [(sampled & Hsample)|(Hsample & Hdim & _)];
    rewrite Hsample; simpl; [|auto].
  left. destruct sampled as [rand_node|]; [|eauto].
  pose proof (star_nearest_lt rand_node nl Hne) as Hnear.
  destruct (at_index_lt nl _ Hnear) as (nearest & Hnearest).
  rewrite Hnearest. simpl.
  destruct (checkCollision _ _); [|eauto].
  set (new_node := InformedRRTStar.generateSteerNode _ nearest rand_node _).
  set (near := InformedRRTStar.findNearNodes _ new_node nl).
  assert (Hin : forall j, In j near -> j < length nl)
    by (intros j; apply findNearNodes_lt).
  destruct (chooseParentNode_loop_returns new_node nl near
              (InformedRRTStar.parent new_node, dmax) Hin) as (acc & Hacc).
  assert (Hchosen : exists chosen,
             InformedRRTStar.chooseParentNode new_node nl near = Ok chosen).
  { unfold InformedRRTStar.chooseParentNode. rewrite Hacc. simpl.
    destruct (negb _); eauto. }
  destruct Hchosen as (chosen & Hchosen). rewrite Hchosen. simpl.
  assert (Hrewire : exists nl1,
             InformedRRTStar.rewireNearNodes (nl ++ [chosen]) near = Ok nl1
             /\ length nl1 = length nl + 1).
  { unfold InformedRRTStar.rewireNearNodes.
    destruct (nl ++ [chosen]) as [|n0 l0] eqn:E;
      [destruct nl; discriminate|].
    rewrite <- E.
    assert (Hlen : length (nl ++ [chosen]) = length nl + 1)
      by (rewrite length_app; reflexivity).
    destruct (rewire_loop_returns near (nl ++ [chosen])
                                  (length (nl ++ [chosen]) - 1))
      as (nl1 & Hnl1).
    - intros j Hj. apply Hin in Hj. lia.
    - lia.
    - exists nl1. split; [assumption|].
      apply rewire_loop_length in Hnl1. lia. }
  destruct Hrewire as (nl1 & Hrewire & Hlen1). rewrite Hrewire. simpl.
  assert (Hne1 : nl1 <> [])
    by (destruct nl1; [simpl in Hlen1; lia|discriminate]).
  destruct (dltb _ _); exists nl1; eexists; (split; [reflexivity|]);
    (split; [assumption|]); intros j Hj.
  - apply in_app_or in Hj. destruct Hj as [Hj|[<-|[]]];
      [apply Hgi in Hj|]; lia.
  - apply Hgi in Hj. lia.
Qed.

Lemma star_sampling_outcome (p : InformedRRTStar.t D State) (goal : State) :
  forall n draws (nl : list sNode) gi,
    nl <> [] -> (forall j, In j gi -> j < length nl) ->
    (exists nl' gi',
        InformedRRTStar.sampling p goal n draws (nl, gi) = Ok (nl', gi')
        /\ nl' <> [])
    \/ (InformedRRTStar.sampling p goal n draws (nl, gi) = NeedDraw
        /\ length draws < n)
    \/ (InformedRRTStar.sampling p goal n draws (nl, gi)
        = Throw invalid_argument
        /\ space_getDim = 0).
Proof.
  induction n as [|n IH]; intros draws nl gi Hne Hgi;
    cbn [InformedRRTStar.sampling]; [eauto|].
  destruct draws as [|d draws]; [right; left; simpl; split; [reflexivity|lia]|].
  destruct (star_sampling_round_outcome p goal d nl gi Hne Hgi)
    as [(nl1 & gi1 & Hround & Hne1 & Hgi1)|[Hround Hdim]];
    rewrite Hround; cbn [bind]; [|auto].
  destruct (IH draws nl1 gi1 Hne1 Hgi1) as [H|[[H Hlen]|H]]; auto.
  right. left. split; [assumption|simpl; lia].
Qed.

Lemma star_walk_parents_outcome (nl : list sNode) :
  edges_checked nl ->
  forall fuel ptr acc,
    ptr < length nl ->
    (exists path, InformedRRTStar.walk_parents fuel nl ptr acc = Ok path)
    \/ InformedRRTStar.walk_parents fuel nl ptr acc = OutOfFuel.
Proof.
  intros Hinv. induction fuel as [|fuel IH]; intros ptr acc Hptr; simpl;
    [auto|].
  destruct (at_index_lt nl ptr Hptr) as (n & Hn). rewrite Hn. simpl.
  apply at_index_Ok in Hn.
  destruct (sparent n) as [q|] eqn:Hq; [|eauto].
  destruct (Hinv _ _ _ Hn Hq) as (m & Hm & _).
  apply IH. apply nth_error_Some. congruence.
Qed.

Lemma star_solve_outcome (p : InformedRRTStar.t D State)
      (start goal : State) (draws : list (InformedRRTStar.Draw D State)) :
  (exists b p', InformedRRTStar.solve p start goal draws = Ok (b, p'))
  \/ (InformedRRTStar.solve p start goal draws = NeedDraw
      /\ length draws < InformedRRTStar.max_sampling_num_ p)
  \/ InformedRRTStar.solve p start goal draws = OutOfFuel
  \/ (InformedRRTStar.solve p start goal draws = Throw invalid_argument
      /\ (getDim start <> getDim goal \/ getDim start < 2
          \/ space_getDim = 0)).
Proof.
  unfold InformedRRTStar.solve, InformedRRTStar.calcRotationToWorldFlame.
  destruct (Nat.eqb (getDim start) (getDim goal)) eqn:Hdims; simpl negb;
    cbn [orb];
    [|apply Nat.eqb_neq in Hdims; right; right; right; simpl; auto].
  destruct (Nat.ltb (getDim start) 2) eqn:Hdim2;
    [apply Nat.ltb_lt in Hdim2; right; right; right; simpl; auto|].
  cbn [bind].
  destruct (star_sampling_outcome p goal
              (InformedRRTStar.max_sampling_num_ p) draws
              [InformedRRTStar.mkNode start None dzero] [])
    as [(nl & gi & Hs & Hne)|[[Hs Hlen]|[Hs Hdim]]];
    [discriminate|intros j []| | |]; rewrite Hs; cbn [bind];
    [|auto|right; right; right; auto].
  cbv zeta. simpl fst.
  destruct (_ <? 0)%Z eqn:Hbest; [eauto|]. apply Z.ltb_ge in Hbest.
  set (best := InformedRRTStar.getBestNodeIndex goal _ nl) in *.
  assert (Hrange : Z.to_nat best < length nl).
  { unfold best, InformedRRTStar.getBestNodeIndex in *.
    destruct (getBestNodeIndex_from_range goal (InformedRRTStar.expand_dist_ p)
                nl 0 (-1)%Z dmax) as [H|H]; simpl in H; lia. }
  destruct (at_index_lt nl _ Hrange) as (result_node & Hnode).
  rewrite Hnode. cbn [bind].
  assert (Hinv : edges_checked nl).
  { eapply edges_checked_sampling; [|exact Hs].
    intros [|i] n q Hn Hq; [inversion Hn; subst; discriminate|].
    destruct i; discriminate. }
  destruct (star_walk_parents_outcome nl Hinv (length nl) _
              (if negb (state_eqb (sstate result_node) goal)
               then [goal] else []) Hrange) as [(path & Hpath)|Hpath];
    rewrite Hpath; cbn [bind]; eauto.
Qed.

(** *** RRT *)

Lemma rrt_checkCollision_from_outcome (src vec : State) :
  forall fuel ratio_i,
    (exists b, RRT.checkCollision_from fuel src vec ratio_i = Ok b)
    \/ RRT.checkCollision_from fuel src vec ratio_i = OutOfFuel.
Proof.
  induction fuel as [|fuel IH]; intros ratio_i; simpl;
    (destruct (dltb ratio_i done); [|eauto]); [auto|].
  destruct (is_NOENTRY _); [eauto|apply IH].
Qed.

Lemma rrt_sampling_outcome (p : RRT.t D State) (goal : State) :
  forall draws nl cnt,
    nl <> [] -> parents_below nl ->
    (exists r cnt',
        RRT.sampling p goal draws nl cnt = Ok (r, cnt')
        /\ (forall nl', r = Some nl' -> nl' <> [] /\ parents_below nl'))
    \/ RRT.sampling p goal draws nl cnt = NeedDraw
    \/ RRT.sampling p goal draws nl cnt = OutOfFuel.
Proof.
  induction draws as [|d draws IH]; intros nl cnt Hne Hinv; simpl; [auto|].
  destruct (RRT.sample_node p goal d) as [rand_node|]; [|apply IH; assumption].
  cbv zeta.
  pose proof (rrt_nearest_lt rand_node nl Hne) as Hnear.
  destruct (at_index_lt nl _ Hnear) as (nearest & Hnearest).
  rewrite Hnearest. cbn [bind].
  set (new_node := RRT.generateSteerNode
                     (RRT.getNearestNodeIndex rand_node nl) nearest
                     rand_node (RRT.expand_dist_ p)).
  unfold RRT.checkCollision.
  destruct (rrt_checkCollision_from_outcome
              (RRT.state nearest)
              (state_sub (RRT.state new_node) (RRT.state nearest))
              RRT.ratio_fuel dzero) as [(free & Hfree)|Hfree];
    rewrite Hfree; cbn [bind]; [|auto].
  set (nl1 := if free then nl ++ [new_node] else nl).
  assert (Hne1 : nl1 <> []).
  { unfold nl1. destruct free; [destruct nl; discriminate|assumption]. }
  assert (Hinv1 : parents_below nl1).
  { unfold nl1. destruct free; [|assumption].
    eapply rrt_parents_below_push; [assumption| |exact Hnear].
    unfold new_node, RRT.generateSteerNode.
    destruct (dltb _ _); reflexivity. }
  destruct (free && _).
  - left. eexists _, cnt. split; [reflexivity|].
    intros nl' Hnl'. inversion Hnl'; subst nl'. split.
    + destruct nl1; discriminate.
    + eapply rrt_parents_below_push; [assumption|reflexivity|].
      destruct nl1; [contradiction|simpl; lia].
  - destruct (_ =? _)%Z; [|apply IH; assumption].
    left. eexists None, _. split; [reflexivity|]. discriminate.
Qed.

Lemma rrt_solve_outcome (p : RRT.t D State) (start goal : State)
      (draws : list (RRT.Draw D State)) :
  (exists b p', RRT.solve p start goal draws = Ok (b, p'))
  \/ RRT.solve p start goal draws = NeedDraw
  \/ RRT.solve p start goal draws = OutOfFuel.
Proof.
  unfold RRT.solve.
  destruct (rrt_sampling_outcome p goal draws [RRT.mkNode start None] 0%Z)
    as [(r & cnt & Hr & Hnl)|[Hr|Hr]]; [discriminate| | |
      rewrite Hr; auto|rewrite Hr; auto].
  { intros [|i] n q Hn Hq; [inversion Hn; subst; discriminate|].
    destruct i; discriminate. }
  rewrite Hr. cbn [bind fst]. destruct r as [nl'|]; [|eauto].
  destruct (Hnl nl' eq_refl) as [Hne Hinv].
  destruct (rrt_walk_parents_returns nl' Hinv (length nl')
              (length nl' - 1) []) as (path & Hpath).
  - destruct nl'; [contradiction|simpl; lia].
  - destruct nl'; [contradiction|simpl; lia].
  - rewrite Hpath. cbn [bind]. eauto.
Qed.

(** Neither solve ever indexes its node list out of range, whatever the
    arithmetic does.  RRT::solve throws nothing: it returns, runs on, or
    hangs in the loop of checkCollision.  InformedRRTStar::solve throws
    only [invalid_argument], and only when the dimensions of [start] and
    [goal] differ, are below 2, or the space has dimension 0; it asks for
    a draw only while rounds are left. *)
Theorem solve_never_out_of_range :
  (forall (p : RRT.t D State) (start goal : State)
          (draws : list (RRT.Draw D State)),
      (exists b p', RRT.solve p start goal draws = Ok (b, p'))
      \/ RRT.solve p start goal draws = NeedDraw
      \/ RRT.solve p start goal draws = OutOfFuel)
  /\ (forall (p : InformedRRTStar.t D State) (start goal : State)
             (draws : list (InformedRRTStar.Draw D State)),
         (exists b p', InformedRRTStar.solve p start goal draws = Ok (b, p'))
         \/ (InformedRRTStar.solve p start goal draws = NeedDraw
             /\ length draws < InformedRRTStar.max_sampling_num_ p)
         \/ InformedRRTStar.solve p start goal draws = OutOfFuel
         \/ (InformedRRTStar.solve p start goal draws = Throw invalid_argument
             /\ (getDim start <> getDim goal \/ getDim start < 2
                 \/ space_getDim = 0))).
Proof.
  split; [apply rrt_solve_outcome|apply star_solve_outcome].
Qed.

End Outcome.

(** ** The last hop of the result path *)

Section LastHop.

Context {D State : Type} {AD : Arith D} {SO : StateOps State D}
        {CN : Constraint State} {NM : Numerics State D}.

Local Abbreviation sNode := (InformedRRTStar.Node D State).
Local Abbreviation sstate := InformedRRTStar.state.
Local Abbreviation scost := InformedRRTStar.cost.

Lemma star_walk_parents_tail (nl : list sNode) :
  forall fuel ptr acc path n,
    InformedRRTStar.walk_parents fuel nl ptr acc = Ok path ->
    nth_error nl ptr = Some n ->
    exists pre, path = pre ++ sstate n :: acc.
Proof.
  induction fuel as [|fuel IH]; intros ptr acc path n H Hn; simpl in H;
    [discriminate|].
  bind_inv H as n' Hn'. apply at_index_Ok in Hn'.
  rewrite Hn in Hn'. inversion Hn'; subst n'. cbv zeta in H.
  destruct (InformedRRTStar.parent n) as [q|].
  - destruct fuel as [|fuel']; [discriminate|].
    assert (Hq : exists m, nth_error nl q = Some m).
    { simpl in H. destruct (at_index nl q) as [m| | | |] eqn:E;
        try discriminate. apply at_index_Ok in E. eauto. }
    destruct Hq as (m & Hm).
    destruct (IH _ _ _ _ H Hm) as (pre & ->).
    exists (pre ++ [sstate m]). rewrite <- app_assoc. reflexivity.
  - inversion H; subst path. exists []. reflexivity.
Qed.

(** The path of a successful InformedRRTStar::solve ends at a node of the
    stored tree that lies within [expand_dist_] of the goal, followed by
    the goal unless the state of that node equals it; [result_cost_] is
    the cost of that node plus its distance to the goal. *)
Theorem star_solve_result (p p' : InformedRRTStar.t D State)
        (start goal : State) (draws : list (InformedRRTStar.Draw D State)) :
  InformedRRTStar.solve p start goal draws = Ok (true, p') ->
  exists i n pre,
    nth_error (InformedRRTStar.node_list_ p') i = Some n
    /\ dltb (distanceFrom goal (sstate n)) (InformedRRTStar.expand_dist_ p)
       = true
    /\ InformedRRTStar.result_cost_ p'
       = dadd (scost n) (distanceFrom (sstate n) goal)
    /\ InformedRRTStar.result_ p'
       = pre ++ sstate n
             :: (if state_eqb (sstate n) goal then [] else [goal]).
Proof.
  unfold InformedRRTStar.solve. intros H.
  bind_inv H as u Hrot. bind_inv H as s Hs. destruct s as [nl gi].
  cbv zeta in H. simpl fst in H.
  destruct (_ <? 0)%Z eqn:Hbest; [discriminate|]. apply Z.ltb_ge in Hbest.
  bind_inv H as result_node Hnode. bind_inv H as result Hwalk.
  inversion H; subst p'. simpl. clear H. apply at_index_Ok in Hnode.
  destruct (star_walk_parents_tail nl _ _ _ _ _ Hwalk Hnode) as (pre & ->).
  exists (Z.to_nat (InformedRRTStar.getBestNodeIndex
                      goal (InformedRRTStar.expand_dist_ p) nl)),
    result_node, pre.
  split; [assumption|]. split; [|split; [reflexivity|]].
  - unfold InformedRRTStar.getBestNodeIndex in *.
    destruct (getBestNodeIndex_from_within
                goal (InformedRRTStar.expand_dist_ p) nl 0 (-1)%Z dmax)
      as [E|(k & n & E & Hn & Hw)]; simpl in E.
    + rewrite E in Hbest. lia.
    + rewrite E, Nat2Z.id in Hnode. rewrite Hn in Hnode.
      inversion Hnode; subst n. assumption.
  - destruct (state_eqb (sstate result_node) goal); reflexivity.
Qed.

(** *** RRT *)

Lemma rrt_walk_parents_tail (nl : list (RRT.Node State)) :
  forall fuel ptr acc path n,
    RRT.walk_parents fuel nl ptr acc = Ok path ->
    nth_error nl ptr = Some n ->
    exists pre, path = pre ++ RRT.state n :: acc.
Proof.
  induction fuel as [|fuel IH]; intros ptr acc path n H Hn; simpl in H;
    [discriminate|].
  bind_inv H as n' Hn'. apply at_index_Ok in Hn'.
  rewrite Hn in Hn'. inversion Hn'; subst n'. cbv zeta in H.
  destruct (RRT.parent n) as [q|].
  - destruct fuel as [|fuel']; [discriminate|].
    assert (Hq : exists m, nth_error nl q = Some m).
    { simpl in H. destruct (at_index nl q) as [m| | | |] eqn:E;
        try discriminate. apply at_index_Ok in E. eauto. }
    destruct Hq as (m & Hm).
    destruct (IH _ _ _ _ H Hm) as (pre & ->).
    exists (pre ++ [RRT.state m]). rewrite <- app_assoc. reflexivity.
  - inversion H; subst path. exists []. reflexivity.
Qed.

(** Leaving the loop by [break]: the goal node hangs under the node
    appended last, which is within [expand_dist_] of the goal. *)
Lemma rrt_sampling_break_hop (p : RRT.t D State) (goal : State) :
  forall draws nl cnt nl' cnt',
    RRT.sampling p goal draws nl cnt = Ok (Some nl', cnt') ->
    exists nl0 last_node,
      nl' = (nl0 ++ [last_node])
              ++ [RRT.mkNode goal (Some (length (nl0 ++ [last_node]) - 1))]
      /\ dleb (distanceFrom (RRT.state last_node) goal) (RRT.expand_dist_ p)
         = true.
Proof.
  induction draws as [|d draws IH]; intros nl cnt nl' cnt' H;
    simpl in H; [discriminate|].
  destruct (RRT.sample_node p goal d) as [rand_node|]; [|eauto].
  cbv zeta in H. bind_inv H as nearest Hnearest. bind_inv H as free Hfree.
  set (new_node := RRT.generateSteerNode
                     (RRT.getNearestNodeIndex rand_node nl) nearest
                     rand_node (RRT.expand_dist_ p)) in *.
  destruct free; simpl andb in H.
  - destruct (dleb _ _) eqn:Hd.
    + inversion H; subst nl' cnt'. exists nl, new_node. auto.
    + destruct (_ =? _)%Z; [discriminate|]. eauto.
  - destruct (_ =? _)%Z; [discriminate|]. eauto.
Qed.

(** The path of a successful RRT::solve ends with a state of the tree
    within [expand_dist_] of the goal, and then the goal: it has two
    states at least, and the goal is appended even when the tree has
    reached it. *)
Theorem rrt_solve_last_hop (p p' : RRT.t D State) (start goal : State)
        (draws : list (RRT.Draw D State)) :
  RRT.solve p start goal draws = Ok (true, p') ->
  exists pre x,
    RRT.result_ p' = pre ++ [x; goal]
    /\ dleb (distanceFrom x goal) (RRT.expand_dist_ p) = true.
Proof.
  unfold RRT.solve. intros H.
  bind_inv H as r Hr. destruct r as [[nl'|] cnt]; simpl fst in H;
    [|discriminate].
  bind_inv H as result Hwalk. inversion H; subst p'. simpl. clear H.
  apply rrt_sampling_break_hop in Hr.
  destruct Hr as (nl0 & last_node & -> & Hd).
  set (nl1 := nl0 ++ [last_node]) in *.
  assert (Hlen : length nl1 = S (length nl0))
    by (unfold nl1; rewrite length_app; simpl; lia).
  assert (Hlast : nth_error (nl1 ++ [RRT.mkNode goal (Some (length nl1 - 1))])
                            (length nl1 - 1) = Some last_node).
  { rewrite nth_error_app1 by lia.
    replace (length nl1 - 1) with (length nl0) by lia. unfold nl1.
    rewrite nth_error_app2 by lia. rewrite Nat.sub_diag. reflexivity. }
  rewrite length_app in Hwalk. simpl length in Hwalk.
  replace (length nl1 + 1) with (S (length nl1)) in Hwalk by lia.
  replace (S (length nl1) - 1) with (length nl1) in Hwalk by lia.
  cbn [RRT.walk_parents] in Hwalk.
  unfold at_index in Hwalk at 1.
  rewrite nth_error_app2 in Hwalk by lia.
  rewrite Nat.sub_diag in Hwalk. simpl in Hwalk.
  destruct (rrt_walk_parents_tail _ _ _ _ _ _ Hwalk Hlast) as (pre & ->).
  exists pre, (RRT.state last_node). auto.
Qed.

End LastHop.

(** ** The root of the tree *)

Section Root.

Context {D State : Type} {AD : Arith D} {SO : StateOps State D}
        {CN : Constraint State} {NM : Numerics State D}
        {AL : ArithLaws D} {SL : StateLaws State D}.

Local Abbreviation Node := (InformedRRTStar.Node D State).
Local Abbreviation state := InformedRRTStar.state.
Local Abbreviation cost := InformedRRTStar.cost.
Local Abbreviation parent := InformedRRTStar.parent.
Local Abbreviation mkNode := InformedRRTStar.mkNode.

Lemma root_kept_rewire_step (nl nl' : list Node) (new_ptr i : nat) :
  tree_inv nl -> new_ptr < length nl ->
  InformedRRTStar.rewire_step nl new_ptr i = Ok nl' ->
  nth_error nl' 0 = nth_error nl 0.
Proof.
  intros Hinv Hnew H.
  pose proof (tree_inv_rewire_step nl nl' new_ptr i Hinv Hnew H) as Hinv'.
  apply rewire_step_spec in H.
  destruct H as (near_node & new_node & Hi & _ & ->).
  destruct (_ && _); [|reflexivity].
  destruct (Nat.eq_dec i 0) as [->|Hi0]; [|apply set_index_other; auto].
  destruct Hinv' as ([(r & Hr & Hrp) _] & _).
  rewrite set_index_same in Hr by (apply nth_error_Some; congruence).
  inversion Hr; subst r. discriminate.
Qed.

Lemma root_kept_rewire_loop (near : list nat) :
  forall (nl nl' : list Node) (new_ptr : nat),
    tree_inv nl -> new_ptr < length nl ->
    InformedRRTStar.rewire_loop nl new_ptr near = Ok nl' ->
    nth_error nl' 0 = nth_error nl 0.
Proof.
  induction near as [|i rest IH]; intros nl nl' new_ptr Hinv Hnew H;
    simpl in H.
  - inversion H; subst. reflexivity.
  - bind_inv H as nl1 Hstep.
    rewrite (IH nl1 nl' new_ptr); [| | |assumption].
    + eapply root_kept_rewire_step; eassumption.
    + eapply tree_inv_rewire_step; eassumption.
    + erewrite rewire_step_length; eassumption.
Qed.

Lemma root_kept_round (p : InformedRRTStar.t D State) (goal : State)
      (d : InformedRRTStar.Draw D State) (nl nl' : list Node)
      (gi gi' : list nat) :
  tree_inv nl -> dleb dzero (InformedRRTStar.expand_dist_ p) = true ->
  InformedRRTStar.sampling_round p goal d (nl, gi) = Ok (nl', gi') ->
  nth_error nl' 0 = nth_error nl 0.
Proof.
  intros Hinv He H. unfold InformedRRTStar.sampling_round in H.
  bind_inv H as best_cost Hbest. bind_inv H as sampled Hsampled.
  destruct sampled as [rand_node|]; [|inversion H; subst; reflexivity].
  cbv zeta in H. bind_inv H as nearest Hnearest.
  apply at_index_Ok in Hnearest.
  destruct (checkCollision _ _); [|inversion H; subst; reflexivity].
  bind_inv H as chosen Hchosen. bind_inv H as nl1 Hrewire.
  assert (Hnl1 : nth_error nl1 0 = nth_error nl 0).
  { unfold InformedRRTStar.rewireNearNodes in Hrewire.
    destruct (nl ++ [chosen]) as [|n0 l0] eqn:E;
      [destruct nl; discriminate|].
    rewrite <- E in Hrewire.
    apply root_kept_rewire_loop in Hrewire.
    - rewrite Hrewire. apply nth_error_app1.
      apply nth_error_Some. destruct Hinv as ([(r & Hr & _) _] & _).
      congruence.
    - apply chooseParentNode_cases in Hchosen.
      destruct Hchosen as [_ [->|(i & n & Hn & Hp & Hc)]].
      + eapply tree_inv_push; eauto using generateSteerNode_parent,
                              generateSteerNode_cost.
      + eapply tree_inv_push; eauto. rewrite Hc. unfold cost_via.
        apply dadd_increases. apply distanceFrom_nonneg.
    - rewrite length_app. simpl. lia. }
  destruct (dltb _ _); inversion H; subst; assumption.
Qed.

Lemma root_kept_sampling (p : InformedRRTStar.t D State) (goal : State) :
  dleb dzero (InformedRRTStar.expand_dist_ p) = true ->
  forall n draws nl gi nl' gi',
    tree_inv nl ->
    InformedRRTStar.sampling p goal n draws (nl, gi) = Ok (nl', gi') ->
    nth_error nl' 0 = nth_error nl 0.
Proof.
  intros He. induction n as [|n IH]; intros draws nl gi nl' gi' Hinv H;
    simpl in H.
  - inversion H; subst. reflexivity.
  - destruct draws as [|d draws]; [discriminate|].
    bind_inv H as s1 Hround. destruct s1 as [nl1 gi1].
    rewrite (IH _ _ _ _ _ (tree_inv_round _ _ _ _ _ _ _ Hinv He Hround) H).
    eapply root_kept_round; eassumption.
Qed.

(** With NaN-free arithmetic and [expand_dist] not negative, the sampling
    loop of Informed RRT* never touches the root: node 0 stays [start]
    with a null parent and cost 0, whatever is rewired; and no node costs
    less than the root. *)
Theorem root_is_kept (p : InformedRRTStar.t D State) (start goal : State)
        (n : nat) (draws : list (InformedRRTStar.Draw D State))
        (nl : list Node) (gi : list nat) :
  dleb dzero (InformedRRTStar.expand_dist_ p) = true ->
  InformedRRTStar.sampling p goal n draws ([mkNode start None dzero], [])
  = Ok (nl, gi) ->
  nth_error nl 0 = Some (mkNode start None dzero)
  /\ forall i m, nth_error nl i = Some m -> dleb dzero (cost m) = true.
Proof.
  intros He H.
  assert (Hroot : nth_error nl 0 = Some (mkNode start None dzero))
    by (rewrite (root_kept_sampling p goal He _ _ _ _ _ _
                   (tree_inv_init start) H); reflexivity).
  split; [assumption|].
  intros i m Hm.
  destruct (tree_inv_sampling p goal He _ _ _ _ _ _ (tree_inv_init start) H)
    as (_ & Hord & Hrooted).
  destruct (Hrooted i) as (k & Hk); [apply nth_error_Some; congruence|].
  destruct (ancestor_cost nl Hord _ _ _ _ Hk Hm) as (r & Hr & Hle).
  rewrite Hroot in Hr. inversion Hr; subst r. assumption.
Qed.


End Root.

(** ** The sampled check of RRT *)

Section SampledCheck.

Context {D State : Type} {AD : Arith D} {SO : StateOps State D}
        {CN : Constraint State}.

Lemma rrt_checkCollision_from_spec (src vec : State) :
  forall fuel ratio_i,
    ratio_leaves fuel ratio_i = true ->
    RRT.checkCollision_from fuel src vec ratio_i
    = Ok (forallb (point_free src vec) (ratio_points fuel ratio_i)).
Proof.
  induction fuel as [|fuel IH]; intros ratio_i H; simpl in *;
    destruct (dltb ratio_i done); try discriminate; try reflexivity.
  unfold point_free at 1. simpl.
  destruct (is_NOENTRY _); simpl; [reflexivity|]. apply IH. assumption.
Qed.

Lemma ratio_points_below (fuel : nat) :
  forall ratio_i,
    Forall (fun r => dltb r done = true) (ratio_points fuel ratio_i).
Proof.
  induction fuel as [|fuel IH]; intros ratio_i; simpl;
    destruct (dltb ratio_i done) eqn:E; constructor; auto.
Qed.

(** When the counter of its loop leaves [[0, 1)], RRT::checkCollision
    returns true exactly when none of the sampled points of the segment
    is NOENTRY.  The points are at the ratios [0, 0 + 0.1, ...], each
    strictly below 1 as the arithmetic compares; the point of the last
    ratio can still be the destination once products are rounded, as on
    binary64. *)
Theorem rrt_checkCollision_spec (src_node dst_node : RRT.Node State) :
  ratio_leaves RRT.ratio_fuel (dzero : D) = true ->
  let vec := state_sub (RRT.state dst_node) (RRT.state src_node) in
  let ratios := ratio_points RRT.ratio_fuel (dzero : D) in
  RRT.checkCollision src_node dst_node
  = Ok (forallb (point_free (RRT.state src_node) vec) ratios)
  /\ Forall (fun r => dltb r done = true) ratios
  /\ (RRT.checkCollision src_node dst_node = Ok true
      <-> forall r, In r ratios ->
                    checkConstraintType
                      (state_add (RRT.state src_node) (state_mul vec r))
                    <> NOENTRY).
Proof.
  intros H vec ratios.
  assert (Hc : RRT.checkCollision src_node dst_node
               = Ok (forallb (point_free (RRT.state src_node) vec) ratios))
    by (apply rrt_checkCollision_from_spec; assumption).
  split; [assumption|]. split; [apply ratio_points_below|].
  rewrite Hc. split.
  - intros E r Hr. inversion E as [E'].
    rewrite forallb_forall in E'. specialize (E' r Hr).
    unfold point_free in E'.
    destruct (checkConstraintType _); [discriminate|discriminate E'].
  - intros Hall. f_equal. apply forallb_forall. intros r Hr.
    specialize (Hall r Hr). unfold point_free.
    destruct (checkConstraintType _); [reflexivity|contradiction].
Qed.

End SampledCheck.

(** ** Which sample a round draws *)

Section SamplingMode.

Context {D State : Type} {AD : Arith D} {SO : StateOps State D}
        {CN : Constraint State} {NM : Numerics State D}
        {AL : ArithLaws D}.

Local Abbreviation Node := (InformedRRTStar.Node D State).
Local Abbreviation cost := InformedRRTStar.cost.
Local Abbreviation mkNode := InformedRRTStar.mkNode.

Lemma best_cost_loop_below (nl : list Node) :
  forall gi best_cost,
    (forall j, In j gi ->
               exists n, nth_error nl j = Some n
                         /\ dltb (cost n) dmax = true) ->
    dltb best_cost dmax = true ->
    exists c, InformedRRTStar.best_cost_loop nl gi best_cost = Ok c
              /\ dltb c dmax = true.
Proof.
  induction gi as [|g gi IH]; intros best_cost Hgi Hb; simpl; [eauto|].
  destruct (Hgi g) as (n & Hn & Hc); [left; reflexivity|].
  apply at_index_Ok in Hn. rewrite Hn. simpl.
  apply IH; [intros j Hj; apply Hgi; right; assumption|].
  unfold dmin. destruct (dltb (cost n) best_cost); assumption.
Qed.

(** A round whose draw exceeds [goal_sampling_rate_] samples the bounds
    of the space while no node of the goal region is known, and the
    heuristic domain from the first such node on (costs being below
    [DBL_MAX]), where a space of dimension 0 makes it throw
    [invalid_argument]; the sample is sent back when it is NOENTRY. *)
Theorem informed_sampling_mode (p : InformedRRTStar.t D State) (goal : State)
        (d : InformedRRTStar.Draw D State) (nl : list Node) (gi : list nat) :
  (forall j, In j gi ->
             exists n, nth_error nl j = Some n
                       /\ dltb (cost n) dmax = true) ->
  dltb (InformedRRTStar.goal_sampling_rate_ p)
       (InformedRRTStar.sample_restriction d) = true ->
  let sent st :=
    if is_NOENTRY (checkConstraintType st)
    then None else Some (mkNode st None dzero) in
  exists best_cost,
    InformedRRTStar.best_cost_loop nl gi dmax = Ok best_cost
    /\ InformedRRTStar.sample_node p goal best_cost d
       = match gi with
         | [] => Ok (sent (InformedRRTStar.uniform_state d))
         | _ :: _ =>
             if Nat.eqb space_getDim 0
             then Throw invalid_argument
             else Ok (sent (InformedRRTStar.informed_state d))
         end.
Proof.
  intros Hgi Hrate sent. unfold InformedRRTStar.sample_node.
  rewrite Hrate. destruct gi as [|g gi].
  - exists dmax. split; [reflexivity|]. rewrite deqb_refl. simpl.
    unfold sent. destruct (is_NOENTRY _); reflexivity.
  - simpl. destruct (Hgi g) as (n & Hn & Hc); [left; reflexivity|].
    apply at_index_Ok in Hn. rewrite Hn. simpl.
    destruct (best_cost_loop_below nl gi (dmin dmax (cost n)))
      as (c & Hloop & Hlt).
    + intros j Hj. apply Hgi. right. assumption.
    + unfold dmin. rewrite Hc. assumption.
    + exists c. split; [assumption|].
      rewrite (dltb_neq _ _ Hlt). unfold InformedRRTStar.sampleUnitNBall.
      destruct (Nat.eqb space_getDim 0); simpl; [reflexivity|].
      unfold sent. destruct (is_NOENTRY _); reflexivity.
Qed.

End SamplingMode.

(** ** The size of the result *)

Section Size.

Context {D State : Type} {AD : Arith D} {SO : StateOps State D}
        {CN : Constraint State} {NM : Numerics State D}.

Lemma star_walk_parents_length (nl : list (InformedRRTStar.Node D State)) :
  forall fuel ptr acc path,
    InformedRRTStar.walk_parents fuel nl ptr acc = Ok path ->
    length acc < length path <= fuel + length acc.
Proof.
  induction fuel as [|fuel IH]; intros ptr acc path H; simpl in H;
    [discriminate|].
  bind_inv H as n Hn. cbv zeta in H.
  destruct (InformedRRTStar.parent n) as [q|].
  - apply IH in H. simpl in H. lia.
  - inversion H; subst path. simpl. lia.
Qed.

(** A successful InformedRRTStar::solve stores a tree of at most
    [max_sampling_num_ + 1] nodes, and a path of at least one state and
    at most one state more than the tree has nodes. *)
Theorem star_result_size (p p' : InformedRRTStar.t D State)
        (start goal : State) (draws : list (InformedRRTStar.Draw D State)) :
  InformedRRTStar.solve p start goal draws = Ok (true, p') ->
  1 <= length (InformedRRTStar.node_list_ p')
    <= InformedRRTStar.max_sampling_num_ p + 1
  /\ 1 <= length (InformedRRTStar.result_ p')
       <= length (InformedRRTStar.node_list_ p') + 1.
Proof.
  unfold InformedRRTStar.solve. intros H.
  bind_inv H as u Hrot. bind_inv H as s Hs. destruct s as [nl gi].
  cbv zeta in H. simpl fst in H.
  destruct (_ <? 0)%Z; [discriminate|].
  bind_inv H as result_node Hnode. bind_inv H as result Hwalk.
  inversion H; subst p'. simpl. clear H.
  apply sampling_shape in Hs. destruct Hs as (added & Hmap & Hlen).
  apply (f_equal (@length State)) in Hmap.
  rewrite length_map in Hmap. simpl in Hmap.
  apply star_walk_parents_length in Hwalk.
  destruct (negb _); simpl in Hwalk; lia.
Qed.

End Size.

(** ** The parent chosen among the near nodes *)

Section ChooseAmongNear.

Context {D State : Type} {AD : Arith D} {SO : StateOps State D}
        {CN : Constraint State} {NM : Numerics State D}
        {AL : ArithLaws D}.

Local Abbreviation Node := (InformedRRTStar.Node D State).
Local Abbreviation state := InformedRRTStar.state.
Local Abbreviation cost := InformedRRTStar.cost.
Local Abbreviation parent := InformedRRTStar.parent.

(** chooseParentNode, called as the sampling loop calls it on the near
    indexes of findNearNodes, returns the candidate with its state kept:
    unchanged when no node within the near radius passes checkCollision,
    and otherwise under a node within the radius that passes it, at the
    least cost through such a node; these costs are below [DBL_MAX]. *)
Theorem chooseParent_after_findNearNodes (R : D) (target_node : Node)
        (nl : list Node) :
  let radius := near_radius R (length nl) space_getDim in
  let near n := dltb (distanceFrom (state n) (state target_node)) radius in
  let free n := checkCollision (state target_node) (state n) in
  (forall i n, nth_error nl i = Some n -> near n = true ->
               dltb (cost_via target_node n) dmax = true) ->
  exists chosen,
    InformedRRTStar.chooseParentNode
      target_node nl (InformedRRTStar.findNearNodes R target_node nl)
    = Ok chosen
    /\ state chosen = state target_node
    /\ ((forall i n, nth_error nl i = Some n -> near n = true ->
                     free n = false) ->
        chosen = target_node)
    /\ ((exists i n, nth_error nl i = Some n /\ near n = true
                     /\ free n = true) ->
        exists i n,
          nth_error nl i = Some n /\ near n = true /\ free n = true
          /\ parent chosen = Some i
          /\ cost chosen = cost_via target_node n
          /\ forall j m, nth_error nl j = Some m -> near m = true ->
                         free m = true ->
                         dleb (cost chosen) (cost_via target_node m) = true).
Proof.
  intros radius near free Hfin.
  set (idx := InformedRRTStar.findNearNodes R target_node nl).
  assert (Hidx : forall j, In j idx
                           <-> exists n, nth_error nl j = Some n
                                         /\ near n = true)
    by (intros j; apply findNearNodes_In).
  assert (Hin : forall j, In j idx -> j < length nl).
  { intros j Hj. apply Hidx in Hj. destruct Hj as (n & Hn & _).
    apply nth_error_Some. congruence. }
  destruct (chooseParentNode_loop_returns target_node nl idx
              (parent target_node, dmax) Hin) as ([p c] & Hacc).
  unfold InformedRRTStar.chooseParentNode. rewrite Hacc. cbn [bind fst snd].
  apply chooseParentNode_loop_spec in Hacc.
  destruct Hacc
    as [[Heq Hmin]|(i & n & Hi & Hn & Hfree & -> & -> & Hlt & Hmin)].
  - inversion Heq; subst p c. rewrite deqb_refl. simpl.
    exists target_node. split; [reflexivity|]. split; [reflexivity|].
    split; [reflexivity|].
    intros (i & n & Hn & Hnear & Hfree). exfalso.
    assert (Hi : In i idx) by (apply Hidx; eauto).
    specialize (Hmin i n Hi Hn Hfree). specialize (Hfin i n Hn Hnear).
    apply dleb_dltb_false in Hmin. congruence.
  - rewrite (dltb_neq _ _ Hlt). simpl. eexists. split; [reflexivity|].
    simpl. split; [reflexivity|].
    pose proof (proj1 (Hidx i) Hi) as (n' & Hn' & Hnear).
    rewrite Hn in Hn'. inversion Hn'; subst n'. split.
    + intros Hnone. specialize (Hnone i n Hn Hnear).
      unfold free in Hnone. congruence.
    + intros _. exists i, n. repeat (split; [assumption || reflexivity|]).
      intros j m Hm Hnm Hfm. apply (Hmin j m); [|assumption..].
      apply Hidx. eauto.
Qed.

End ChooseAmongNear.

(** ** The best cost of the goal region *)

Section BestCost.

Context {D State : Type} {AD : Arith D} {SO : StateOps State D}
        {CN : Constraint State} {NM : Numerics State D}
        {AL : ArithLaws D}.

Local Abbreviation Node := (InformedRRTStar.Node D State).
Local Abbreviation state := InformedRRTStar.state.
Local Abbreviation cost := InformedRRTStar.cost.

Lemma dmin_le_l (a b : D) : dleb (dmin a b) a = true.
Proof.
  unfold dmin. destruct (dltb b a) eqn:E;
    [apply dltb_dleb; assumption|apply dleb_refl].
Qed.

Lemma dmin_le_r (a b : D) : dleb (dmin a b) b = true.
Proof.
  unfold dmin. destruct (dltb b a) eqn:E;
    [apply dleb_refl|apply dltb_false; assumption].
Qed.

(** The loop over the goal indexes returns the least of its start value
    and the costs of the goal nodes. *)
Lemma best_cost_loop_min (nl : list Node) :
  forall gi best_cost c,
    InformedRRTStar.best_cost_loop nl gi best_cost = Ok c ->
    dleb c best_cost = true
    /\ (forall j n, In j gi -> nth_error nl j = Some n ->
                    dleb c (cost n) = true)
    /\ (c = best_cost
        \/ exists j n, In j gi /\ nth_error nl j = Some n /\ c = cost n).
Proof.
  induction gi as [|g gi IH]; intros best_cost c H; simpl in H.
  - inversion H; subst c. split; [apply dleb_refl|].
    split; [intros j n []|auto].
  - bind_inv H as n0 Hn0. apply at_index_Ok in Hn0.
    apply IH in H. destruct H as (Hle & Hall & Hex).
    split; [exact (dleb_trans _ _ _ Hle (dmin_le_l _ _))|]. split.
    + intros j n [<-|Hj] Hn; [|eauto].
      rewrite Hn0 in Hn. inversion Hn; subst n.
      exact (dleb_trans _ _ _ Hle (dmin_le_r _ _)).
    + destruct Hex as [->|(j & n & Hj & Hn & ->)].
      * unfold dmin. destruct (dltb _ _); [|auto].
        right. exists g, n0. split; [left; reflexivity|auto].
      * right. exists j, n. split; [right; assumption|auto].
Qed.

(** A round keeps the goal indexes and raises the cost of no node. *)
Lemma sampling_round_costs (p : InformedRRTStar.t D State) (goal : State)
      (d : InformedRRTStar.Draw D State) (nl nl' : list Node)
      (gi gi' : list nat) :
  InformedRRTStar.sampling_round p goal d (nl, gi) = Ok (nl', gi') ->
  incl gi gi'
  /\ forall j n, nth_error nl j = Some n ->
                 exists n', nth_error nl' j = Some n'
                            /\ dleb (cost n') (cost n) = true.
Proof.
  intros H. unfold InformedRRTStar.sampling_round in H.
  assert (Hsame : incl gi gi
                  /\ forall j n, nth_error nl j = Some n ->
                                 exists n', nth_error nl j = Some n'
                                            /\ dleb (cost n') (cost n) = true).
  { split; [apply incl_refl|]. intros j n Hn. exists n.
    split; [assumption|apply dleb_refl]. }
  bind_inv H as best_cost Hbest. bind_inv H as sampled Hsampled.
  destruct sampled as [rand_node|]; [|inversion H; subst; assumption].
  cbv zeta in H. bind_inv H as nearest Hnearest.
  destruct (checkCollision _ _); [|inversion H; subst; assumption].
  bind_inv H as chosen Hchosen. bind_inv H as nl1 Hrewire.
  unfold InformedRRTStar.rewireNearNodes in Hrewire.
  destruct (nl ++ [chosen]) as [|n0 l0] eqn:E; [discriminate|].
  rewrite <- E in Hrewire. clear E.
  assert (Hcosts : forall j n, nth_error nl j = Some n ->
                               exists n', nth_error nl1 j = Some n'
                                          /\ dleb (cost n') (cost n) = true).
  { intros j n Hn.
    assert (Hj : j < length nl) by (apply nth_error_Some; congruence).
    pose proof (rewire_loop_length _ _ _ _ Hrewire) as Hlen.
    rewrite length_app in Hlen. simpl in Hlen.
    destruct (nth_error nl1 j) as [n'|] eqn:Hn';
      [|apply nth_error_None in Hn'; lia].
    exists n'. split; [reflexivity|].
    assert (Hn2 : nth_error (nl ++ [chosen]) j = Some n)
      by (rewrite nth_error_app1; assumption).
    destruct (rewire_loop_decreases _ _ _ _ _ _ _ Hrewire Hn2 Hn')
      as [_ [->|Hlt]]; [apply dleb_refl|apply dltb_dleb; assumption]. }
  destruct (dltb _ _); inversion H; subst; (split; [|assumption]).
  - apply incl_appl, incl_refl.
  - apply incl_refl.
Qed.

Lemma sampling_costs (p : InformedRRTStar.t D State) (goal : State) :
  forall n draws (nl nl' : list Node) gi gi',
    InformedRRTStar.sampling p goal n draws (nl, gi) = Ok (nl', gi') ->
    incl gi gi'
    /\ forall j m, nth_error nl j = Some m ->
                   exists m', nth_error nl' j = Some m'
                              /\ dleb (cost m') (cost m) = true.
Proof.
  induction n as [|n IH]; intros draws nl nl' gi gi' H; simpl in H.
  - inversion H; subst. split; [apply incl_refl|].
    intros j m Hm. exists m. split; [assumption|apply dleb_refl].
  - destruct draws as [|d draws]; [discriminate|].
    bind_inv H as s1 Hround. destruct s1 as [nl1 gi1].
    apply sampling_round_costs in Hround. destruct Hround as [Hi1 Hc1].
    apply IH in H. destruct H as [Hi2 Hc2]. split.
    + exact (incl_tran Hi1 Hi2).
    + intros j m Hm. destruct (Hc1 j m Hm) as (m1 & Hm1 & Hle1).
      destruct (Hc2 j m1 Hm1) as (m2 & Hm2 & Hle2).
      exists m2. split; [assumption|].
      exact (dleb_trans _ _ _ Hle2 Hle1).
Qed.

(** With NaN-free arithmetic, the rounds of the sampling loop of Informed
    RRT* never raise the cost of a node nor the best cost of the goal
    region, and never drop a goal index: once the best cost is below
    [DBL_MAX], so that informed samples are drawn, it stays below. *)
Theorem best_cost_never_increases (p : InformedRRTStar.t D State)
        (goal : State) (n : nat) (draws : list (InformedRRTStar.Draw D State))
        (nl nl' : list Node) (gi gi' : list nat) (c c' : D) :
  InformedRRTStar.sampling p goal n draws (nl, gi) = Ok (nl', gi') ->
  InformedRRTStar.best_cost_loop nl gi dmax = Ok c ->
  InformedRRTStar.best_cost_loop nl' gi' dmax = Ok c' ->
  dleb c' c = true
  /\ (dltb c dmax = true -> dltb c' dmax = true)
  /\ incl gi gi'
  /\ forall j m, nth_error nl j = Some m ->
                 exists m', nth_error nl' j = Some m'
                            /\ dleb (cost m') (cost m) = true.
Proof.
  intros Hs Hc Hc'. apply sampling_costs in Hs. destruct Hs as [Hincl Hcosts].
  apply best_cost_loop_min in Hc, Hc'.
  destruct Hc as (_ & _ & Hex). destruct Hc' as (Hle' & Hall' & _).
  assert (Hle : dleb c' c = true).
  { destruct Hex as [->|(j & m & Hj & Hm & ->)]; [assumption|].
    destruct (Hcosts j m Hm) as (m' & Hm' & Hmm).
    exact (dleb_trans _ _ _ (Hall' j m' (Hincl j Hj) Hm') Hmm). }
  split; [assumption|]. split; [|split; assumption].
  intros Hlt. exact (dleb_dltb_trans _ _ _ Hle Hlt).
Qed.

End BestCost.

(** ** Samples that are sent back *)

Section Rejected.

Context {D State : Type} {AD : Arith D} {SO : StateOps State D}
        {CN : Constraint State} {NM : Numerics State D}.

(** A sample sent back as NOENTRY is drawn again: the loop goes on with
    the next draw on the same node list and the same counter. *)
Lemma rrt_sampling_skips_rejected (p : RRT.t D State) (goal : State)
      (d : RRT.Draw D State) (rest : list (RRT.Draw D State))
      (nl : list (RRT.Node State)) (cnt : Z) :
  counted p goal d = false ->
  RRT.sampling p goal (d :: rest) nl cnt = RRT.sampling p goal rest nl cnt.
Proof.
  unfold counted. simpl.
  destruct (RRT.sample_node p goal d); [discriminate|reflexivity].
Qed.




(** While every sample is sent back the loop is still drawing when the
    draws run out. *)
Lemma rrt_sampling_rejected_need (p : RRT.t D State) (goal : State) :
  forall draws nl cnt,
    forallb (fun d => negb (counted p goal d)) draws = true ->
    RRT.sampling p goal draws nl cnt = NeedDraw.
Proof.
  induction draws as [|d draws IH]; intros nl cnt H; [reflexivity|].
  cbn [forallb] in H. apply andb_true_iff in H. destruct H as [Hd H].
  apply negb_true_iff in Hd.
  rewrite (rrt_sampling_skips_rejected p goal d _ nl cnt Hd). auto.
Qed.

(** While every sample is sent back as NOENTRY the loop of RRT::solve
    neither returns nor changes its state: after them it goes on from the
    node list and the counter it had, whatever the budget, and when the
    draws run out it is still drawing. *)
Lemma rrt_sampling_all_rejected (p : RRT.t D State) (goal : State) :
  forall draws rest nl cnt,
    forallb (fun d => negb (counted p goal d)) draws = true ->
    RRT.sampling p goal (draws ++ rest) nl cnt
    = RRT.sampling p goal rest nl cnt
    /\ RRT.sampling p goal draws nl cnt = NeedDraw.
Proof.
  intros draws rest nl cnt H.
  split; [|apply rrt_sampling_rejected_need; assumption].
  induction draws as [|d draws IH]; [reflexivity|].
  cbn [forallb] in H. apply andb_true_iff in H. destruct H as [Hd H].
  apply negb_true_iff in Hd. rewrite <- app_comm_cons.
  rewrite (rrt_sampling_skips_rejected p goal d _ nl cnt Hd). auto.
Qed.

End Rejected.

(** ** The budget of RRT and the samples sent back *)

Section BudgetClaim.

Context {D State : Type} {AD : Arith D} {SO : StateOps State D}
        {CN : Constraint State} {NM : Numerics State D}.

Variable p : RRT.t D State.
Variable goal : State.

Hypothesis ratio_ends : ratio_leaves RRT.ratio_fuel dzero = true.
Hypothesis budget_range : (1 <= RRT.max_sampling_num_ p < 2 ^ 32)%Z.


End BudgetClaim.

(** ** The sampling rate of a planner *)

Section Calls.

Context {D State : Type} {AD : Arith D} {SO : StateOps State D}
        {CN : Constraint State} {NM : Numerics State D}.

Lemma rrt_solve_keeps_rate (p p' : RRT.t D State) (b : bool)
      (start goal : State) (draws : list (RRT.Draw D State)) :
  RRT.solve p start goal draws = Ok (b, p') ->
  RRT.goal_sampling_rate_ p' = RRT.goal_sampling_rate_ p
  /\ RRT.max_sampling_num_ p' = RRT.max_sampling_num_ p.
Proof.
  unfold RRT.solve. intros H. bind_inv H as r Hr.
  destruct (fst r).
  - bind_inv H as result Hwalk. inversion H. auto.
  - inversion H. auto.
Qed.

Lemma star_solve_keeps_rate (p p' : InformedRRTStar.t D State) (b : bool)
      (start goal : State) (draws : list (InformedRRTStar.Draw D State)) :
  InformedRRTStar.solve p start goal draws = Ok (b, p') ->
  InformedRRTStar.goal_sampling_rate_ p'
  = InformedRRTStar.goal_sampling_rate_ p.
Proof.
  unfold InformedRRTStar.solve. intros H.
  bind_inv H as u Hrot. bind_inv H as s Hs. cbv zeta in H.
  destruct (_ <? 0)%Z.
  - inversion H. reflexivity.
  - bind_inv H as result_node Hnode. bind_inv H as result Hwalk.
    inversion H. reflexivity.
Qed.

Lemma rrt_after_keeps_range (p p' : RRT.t D State) (c : rrt_call D State) :
  rate_in_range (RRT.goal_sampling_rate_ p) = true ->
  (0 <= RRT.max_sampling_num_ p < 2 ^ 32)%Z ->
  rrt_after p c = Some p' ->
  rate_in_range (RRT.goal_sampling_rate_ p') = true
  /\ (0 <= RRT.max_sampling_num_ p' < 2 ^ 32)%Z.
Proof.
  intros Hrate Hmax. unfold rrt_after.
  destruct c as [n|r|d|start goal draws]; simpl.
  - intros H. inversion H. simpl. split; [assumption|].
    unfold RRT.uint32. apply Z.mod_pos_bound. lia.
  - unfold RRT.setGoalSamplingRate. fold (rate_in_range r).
    destruct (rate_in_range r) eqn:Hr; simpl; intros H; inversion H;
      subst; simpl; auto.
  - intros H. inversion H. simpl. auto.
  - destruct (RRT.solve p start goal draws) as [[b q]| | | |] eqn:Hs;
      simpl; intros H; inversion H; subst; auto.
    apply rrt_solve_keeps_rate in Hs. destruct Hs as [-> ->]. auto.
Qed.

Lemma star_after_keeps_range (p p' : InformedRRTStar.t D State)
      (c : star_call D State) :
  rate_in_range (InformedRRTStar.goal_sampling_rate_ p) = true ->
  star_after p c = Some p' ->
  rate_in_range (InformedRRTStar.goal_sampling_rate_ p') = true.
Proof.
  intros Hrate. unfold star_after.
  destruct c as [n|r|d|r|r|start goal draws]; simpl;
    try (intros H; inversion H; assumption).
  - unfold InformedRRTStar.setGoalSamplingRate. fold (rate_in_range r).
    destruct (rate_in_range r) eqn:Hr; simpl; intros H; inversion H;
      subst; simpl; auto.
  - destruct (InformedRRTStar.solve p start goal draws)
      as [[b q]| | | |] eqn:Hs;
      simpl; intros H; inversion H; subst; auto.
    apply star_solve_keeps_rate in Hs. rewrite Hs. assumption.
Qed.

(** Whatever is called on a planner that its constructor built, setters
    that throw and solves that fail or throw included, the sampling rate
    it holds passes the test [0.0 <= rate && rate <= 1.0] of the setter,
    so it is never NaN; and the budget of RRT is a [uint32_t]. *)
Theorem goal_sampling_rate_in_range :
  (forall (max_sampling_num : Z) (goal_sampling_rate expand_dist : D)
          (p0 p : RRT.t D State) (calls : list (rrt_call D State)),
      RRT.new max_sampling_num goal_sampling_rate expand_dist = Ok p0 ->
      rrt_after_calls p0 calls = Some p ->
      rate_in_range (RRT.goal_sampling_rate_ p) = true
      /\ (0 <= RRT.max_sampling_num_ p < 2 ^ 32)%Z)
  /\ (forall (max_sampling_num : nat)
             (goal_sampling_rate expand_dist R goal_region_radius c0 : D)
             (p0 p : InformedRRTStar.t D State)
             (calls : list (star_call D State)),
         InformedRRTStar.new max_sampling_num goal_sampling_rate expand_dist
                             R goal_region_radius c0 = Ok p0 ->
         star_after_calls p0 calls = Some p ->
         rate_in_range (InformedRRTStar.goal_sampling_rate_ p) = true).
Proof.
  split.
  - intros n r e p0 p calls Hnew.
    assert (H0 : rate_in_range (RRT.goal_sampling_rate_ p0) = true
                 /\ (0 <= RRT.max_sampling_num_ p0 < 2 ^ 32)%Z).
    { unfold RRT.new, RRT.setGoalSamplingRate in Hnew.
      fold (rate_in_range r) in Hnew.
      destruct (rate_in_range r) eqn:Hr; simpl in Hnew; inversion Hnew.
      simpl. split; [assumption|].
      unfold RRT.uint32. apply Z.mod_pos_bound. lia. }
    clear Hnew. revert p0 H0.
    induction calls as [|c calls IH]; intros p0 [Hrate Hmax] H; simpl in H.
    + inversion H; subst. auto.
    + destruct (rrt_after p0 c) as [p1|] eqn:Hc; [|discriminate].
      apply (IH p1); [|assumption].
      eapply rrt_after_keeps_range; eassumption.
  - intros n r e R g c0 p0 p calls Hnew.
    assert (H0 : rate_in_range (InformedRRTStar.goal_sampling_rate_ p0)
                 = true).
    { unfold InformedRRTStar.new, InformedRRTStar.setGoalSamplingRate
        in Hnew.
      fold (rate_in_range r) in Hnew.
      destruct (rate_in_range r) eqn:Hr; simpl in Hnew; inversion Hnew.
      simpl. assumption. }
    clear Hnew. revert p0 H0.
    induction calls as [|c calls IH]; intros p0 Hrate H; simpl in H.
    + inversion H; subst. assumption.
    + destruct (star_after p0 c) as [p1|] eqn:Hc; [|discriminate].
      apply (IH p1); [|assumption].
      eapply star_after_keeps_range; eassumption.
Qed.

End Calls.

(** ** Runs of the planners on binary64 *)

Section OnBinary64.

Import Binary64 Runs64.
Local Open Scope float_scope.

(** C1 fails on the code: both planners append the goal to a path whose
    last node lies within [expand_dist] of it, without checkCollision.
    With a wall between the last node and the goal, the solve succeeds
    and the last segment of the result path is not feasible. *)
Theorem goal_segment_not_checked :
  RRT.solve rrt1 origin behind_wall [near_wall]
  = Ok (true, RRT.mk 1%Z 0 1 [origin; [0.5; 0]; behind_wall])
  /\ RRT.checkCollision (RRT.mkNode [0.5; 0] None)
                        (RRT.mkNode behind_wall None)
     = Ok false
  /\ InformedRRTStar.solve star1 origin behind_wall [star_near_wall]
     = Ok (true,
           InformedRRTStar.mk 1%nat 0 1.5 10 0.125
             [origin; [0.5; 0]; behind_wall] 1.5
             [InformedRRTStar.mkNode origin None 0;
              InformedRRTStar.mkNode [0.5; 0] (Some 0%nat) 0.5])
  /\ checkCollision [0.5; 0] behind_wall = false.
Proof. repeat split; vm_compute; reflexivity. Qed.

(** C2 fails on the code: a rate outside [[0, 1]] makes the setter and
    the constructor of RRT throw [std::runtime_error], where those of
    Informed RRT* throw [std::invalid_argument]. *)
Theorem rrt_rate_runtime_error :
  RRT.setGoalSamplingRate rrt1 1.5 = Throw runtime_error
  /\ RRT.new (State := State) 1%Z 1.5 1 = Throw runtime_error
  /\ InformedRRTStar.setGoalSamplingRate star1 1.5 = Throw invalid_argument
  /\ InformedRRTStar.new (State := State) 1%nat 1.5 1.5 10 0.125 0
     = Throw invalid_argument.
Proof. repeat split; vm_compute; reflexivity. Qed.

(** C3 fails on the code: RRT::solve returns false from inside the loop,
    before [result_.clear()]; the path of an earlier solve is still
    stored. *)
Theorem rrt_failed_solve_keeps_result :
  RRT.solve rrt1 origin before_wall [quarter] = Ok (true, rrt1_solved)
  /\ RRT.solve rrt1_solved origin far_away [quarter]
     = Ok (false, rrt1_solved)
  /\ RRT.result_ rrt1_solved = [origin; [0.25; 0]; before_wall].
Proof. repeat split; vm_compute; reflexivity. Qed.


(** Three samples in the wall: the loop asks for a fourth, and before a
    sample that counts they leave it as it was. *)
Lemma rrt_sampling_all_rejected_witness :
  RRT.sampling rrt1 behind_wall
               ([in_the_wall; in_the_wall; in_the_wall] ++ [quarter])
               [RRT.mkNode origin None] 0%Z
  = RRT.sampling rrt1 behind_wall [quarter] [RRT.mkNode origin None] 0%Z
  /\ RRT.sampling rrt1 behind_wall [in_the_wall; in_the_wall; in_the_wall]
                  [RRT.mkNode origin None] 0%Z
     = NeedDraw.
Proof.
  apply (rrt_sampling_all_rejected
           rrt1 behind_wall [in_the_wall; in_the_wall; in_the_wall]
           [quarter] [RRT.mkNode origin None] 0%Z).
  vm_compute. reflexivity.
Defined.

(** The loop of RRT::checkCollision makes eleven rounds on binary64: ten
    additions of 0.1 give 0.9999999999999999. *)
Lemma binary64_ratio_rounds :
  ratio_leaves 10 (dzero (D := float)) = false
  /\ ratio_leaves 11 (dzero (D := float)) = true
  /\ ratio_leaves RRT.ratio_fuel (dzero (D := float)) = true.
Proof. repeat split; vm_compute; reflexivity. Qed.

(** On binary64 the eleventh ratio is the double below 1, and its point
    can be the destination: the segment from [(2, 0)] to [(1.25, 0)] on
    the edge of the wall fails the check on its end. *)
Lemma binary64_last_ratio_point :
  length (ratio_points RRT.ratio_fuel (dzero (D := float))) = 11%nat
  /\ (let r :=
        last (ratio_points RRT.ratio_fuel (dzero (D := float))) 0%float in
      dltb r done = true
      /\ state_add [2; 0]%float
                   (state_mul (state_sub [1.1875; 0]%float [2; 0]%float) r)
         = [1.1875; 0]%float
      /\ state_add [2; 0]%float
                   (state_mul (state_sub [1.25; 0]%float [2; 0]%float) r)
         = [1.25; 0]%float)
  /\ RRT.checkCollision (RRT.mkNode [2; 0]%float None)
                        (RRT.mkNode [1.25; 0]%float None)
     = Ok false
  /\ forallb (point_free [2; 0]%float
                         (state_sub [1.25; 0]%float [2; 0]%float))
             (removelast (ratio_points RRT.ratio_fuel (dzero (D := float))))
     = true.
Proof. repeat split; vm_compute; reflexivity. Qed.

End OnBinary64.

(** ** Runs of the planners on rational numbers *)

Section OnExact.

Import Exact RunsExact.
Local Open Scope Q_scope.

(** The loop of RRT::checkCollision makes ten rounds on rationals. *)
Lemma exact_ratio_rounds :
  ratio_leaves 9 (dzero (D := Q)) = false
  /\ ratio_leaves 10 (dzero (D := Q)) = true
  /\ ratio_leaves RRT.ratio_fuel (dzero (D := Q)) = true.
Proof. repeat split; vm_compute; reflexivity. Qed.

(** The solves of [rrt2] and [star3] succeed, and their paths run from
    [a] to the goal. *)
Lemma solve_endpoints_witness :
  (RRT.solve rrt2 a rrt_goal [step_half] = Ok (true, rrt2_solved)
   /\ RRT.result_ rrt2_solved <> []
   /\ hd_error (RRT.result_ rrt2_solved) = Some a
   /\ hd_error (rev (RRT.result_ rrt2_solved)) = Some rrt_goal)
  /\ (InformedRRTStar.solve star3 a c star_draws = Ok (true, star3_solved)
      /\ InformedRRTStar.result_ star3_solved <> []
      /\ hd_error (InformedRRTStar.result_ star3_solved) = Some a
      /\ hd_error (rev (InformedRRTStar.result_ star3_solved)) = Some c).
Proof.
  assert (Hrrt : RRT.solve rrt2 a rrt_goal [step_half]
                 = Ok (true, rrt2_solved))
    by (vm_compute; reflexivity).
  assert (Hstar : InformedRRTStar.solve star3 a c star_draws
                  = Ok (true, star3_solved))
    by (vm_compute; reflexivity).
  split; (split; [assumption|]).
  - exact (proj1 (solve_endpoints exact_eqb_eq) _ _ _ _ _ Hrrt).
  - exact (proj2 (solve_endpoints exact_eqb_eq) _ _ _ _ _ Hstar).
Defined.

Lemma finite_costs_ab (target_node : InformedRRTStar.Node Q State) :
  InformedRRTStar.state target_node = c ->
  forall i n, In i [0; 1]%nat -> nth_error tree_ab i = Some n ->
              dltb (cost_via target_node n) dmax = true.
Proof.
  intros Hc i n [<-|[<-|[]]] Hn; inversion Hn; subst n;
    unfold cost_via; rewrite Hc; vm_compute; reflexivity.
Qed.

(** With [a] and [b] both near, the candidate [c] steered from [b] at
    cost 7 is put under [a] at cost 5. *)
Lemma chooseParentNode_spec_witness :
  InformedRRTStar.chooseParentNode steered_c tree_ab [0; 1]%nat
  = Ok (InformedRRTStar.mkNode c (Some 0%nat) 5)
  /\ exists i n,
      In i [0; 1]%nat /\ nth_error tree_ab i = Some n
      /\ checkCollision c (InformedRRTStar.state n) = true
      /\ Some 0%nat = Some i
      /\ 5 = dadd (InformedRRTStar.cost n)
                  (distanceFrom (InformedRRTStar.state n) c)
      /\ forall j m,
          In j [0; 1]%nat -> nth_error tree_ab j = Some m ->
          checkCollision c (InformedRRTStar.state m) = true ->
          dleb 5 (dadd (InformedRRTStar.cost m)
                       (distanceFrom (InformedRRTStar.state m) c))
          = true.
Proof.
  assert (H : InformedRRTStar.chooseParentNode steered_c tree_ab [0; 1]%nat
              = Ok (InformedRRTStar.mkNode c (Some 0%nat) 5))
    by (vm_compute; reflexivity).
  split; [assumption|].
  refine (proj2 (proj2 (chooseParentNode_spec
                          (AL := exact_arith_laws) (SL := exact_state_laws)
                          steered_c tree_ab [0; 1]%nat _ _ H)) _).
  - intros i n Hi Hn.
    rewrite (distanceFrom_sym (StateLaws := exact_state_laws)).
    exact (finite_costs_ab steered_c eq_refl i n Hi Hn).
  - exists 0%nat, (InformedRRTStar.mkNode a None 0).
    repeat split; [left; reflexivity].
Defined.

(** On the same input the lazy loop and the naive reference agree. *)
Lemma chooseParentNode_lazy_is_naive_witness :
  InformedRRTStar.chooseParentNode steered_c tree_ab [0; 1]%nat
  = chooseParentNode_naive steered_c tree_ab [0; 1]%nat.
Proof.
  exact (chooseParentNode_lazy_is_naive
           (AL := exact_arith_laws) steered_c tree_ab [0; 1]%nat
           (finite_costs_ab steered_c eq_refl)).
Defined.

(** Appending [e] rewires [c], which cost 7 under [b], under [e] at cost
    5, and leaves [a] and [b] as they were. *)
Lemma rewireNearNodes_spec_witness :
  InformedRRTStar.rewireNearNodes tree_before_rewire [0; 1; 2]%nat
  = Ok star_tree
  /\ length star_tree = length tree_before_rewire
  /\ (forall j n n',
         nth_error tree_before_rewire j = Some n ->
         nth_error star_tree j = Some n' ->
         InformedRRTStar.state n' = InformedRRTStar.state n
         /\ (n' = n
             \/ dltb (InformedRRTStar.cost n') (InformedRRTStar.cost n)
                = true)
         /\ dltb (InformedRRTStar.cost n) (InformedRRTStar.cost n') = false).
Proof.
  assert (H : InformedRRTStar.rewireNearNodes tree_before_rewire
                                              [0; 1; 2]%nat
              = Ok star_tree)
    by (vm_compute; reflexivity).
  split; [assumption|].
  pose proof (rewireNearNodes_spec
                (AL := exact_arith_laws) (SL := exact_state_laws)
                tree_before_rewire star_tree [0; 1; 2]%nat H)
    as (Hlen & Hdec & _).
  split; assumption.
Defined.

(** The three rounds of [star3] leave [star_tree], in which [c] hangs
    under the later node [e]: one root, and every node within four steps
    of it. *)
Lemma node_list_is_tree_witness :
  InformedRRTStar.sampling star3 c 3 star_draws
    ([InformedRRTStar.mkNode a None 0], []) = Ok (star_tree, [2%nat])
  /\ one_root star_tree /\ reaches_root star_tree.
Proof.
  assert (H : InformedRRTStar.sampling star3 c 3 star_draws
                ([InformedRRTStar.mkNode a None 0], [])
              = Ok (star_tree, [2%nat]))
    by (vm_compute; reflexivity).
  split; [assumption|].
  refine (proj1 (node_list_is_tree
                   (AL := exact_arith_laws) (SL := exact_state_laws)
                   star3 a c star_draws _) 3%nat star_tree [2%nat] H).
  vm_compute. reflexivity.
Defined.


(** The solve of [star3] from [a] to [c] returns. *)
Lemma star_solve_returns_witness :
  exists b p', InformedRRTStar.solve star3 a c star_draws = Ok (b, p').
Proof.
  refine (star_solve_returns (AL := exact_arith_laws)
                             (SL := exact_state_laws)
                             star3 a c star_draws _ _ _ _ _);
    vm_compute; try reflexivity; discriminate.
Defined.

(** Without a round the root alone is too far from [c]: the solve fails
    and the result path is empty. *)
Lemma star_failed_solve_clears_result_witness :
  InformedRRTStar.result_ star0_failed = [].
Proof.
  apply (star_failed_solve_clears_result star0 star0_failed a c []).
  vm_compute. reflexivity.
Defined.

(** The failed solve of a solved planner leaves it solved. *)
Lemma rrt_failed_solve_keeps_planner_witness :
  RRT.solve rrt2_solved a rrt_far [in_the_wall; step_half; step_one]
  = Ok (false, rrt2_solved)
  /\ rrt2_solved = rrt2_solved.
Proof.
  assert (H : RRT.solve rrt2_solved a rrt_far
                        [in_the_wall; step_half; step_one]
              = Ok (false, rrt2_solved))
    by (vm_compute; reflexivity).
  split; [assumption|].
  exact (rrt_failed_solve_keeps_planner _ _ _ _ _ H).
Defined.

(** The paths of [rrt2] and [star3] up to the goal run over checked
    segments. *)
Lemma rrt_tree_segments_checked_witness :
  exists body, RRT.result_ rrt2_solved = body ++ [rrt_goal]
               /\ all_adjacent rrt_segment_checked body.
Proof.
  apply (rrt_tree_segments_checked rrt2 rrt2_solved a rrt_goal [step_half]).
  vm_compute. reflexivity.
Defined.

Lemma star_tree_segments_checked_witness :
  exists body,
    (InformedRRTStar.result_ star3_solved = body
     \/ InformedRRTStar.result_ star3_solved = body ++ [c])
    /\ all_adjacent segment_checked body.
Proof.
  apply (star_tree_segments_checked star3 star3_solved a c star_draws).
  vm_compute. reflexivity.
Defined.

(** Every node of a list of at most five satisfies a closed property. *)
Ltac nodes_of_list :=
  let k := fresh "k" in
  let n := fresh "n" in
  let H := fresh "H" in
  intros k n H;
  do 5 (destruct k as [|k];
        [inversion H; subst n; intros; vm_compute; reflexivity|]);
  destruct k; discriminate H.

(** In [star_tree] the node nearest to [c] is node 2, [c] itself; in the
    tree of [rrt2] the node nearest to the goal is node 1. *)
Lemma getNearestNodeIndex_spec_witness :
  InformedRRTStar.getNearestNodeIndex steered_c star_tree = 2%nat
  /\ RRT.getNearestNodeIndex
       (RRT.mkNode rrt_goal None)
       [RRT.mkNode a None; RRT.mkNode [5 # 2; 0] (Some 0%nat)] = 1%nat
  /\ (exists nearest,
         nth_error star_tree
                   (InformedRRTStar.getNearestNodeIndex steered_c star_tree)
         = Some nearest
         /\ forall k n,
             nth_error star_tree k = Some n ->
             dleb (distanceFrom (InformedRRTStar.state nearest) c)
                  (distanceFrom (InformedRRTStar.state n) c) = true).
Proof.
  split; [vm_compute; reflexivity|]. split; [vm_compute; reflexivity|].
  destruct (getNearestNodeIndex_spec
              (AL := exact_arith_laws) steered_c star_tree
              (RRT.mkNode rrt_goal None)
              [RRT.mkNode a None; RRT.mkNode [5 # 2; 0] (Some 0%nat)])
    as (Hstar & _).
  destruct Hstar as (nearest & Hn & Hleast & _);
    [discriminate|nodes_of_list|].
  exists nearest. split; assumption.
Defined.

(** Within [9/2] of [c] lie [b], [c] and [e] of [star_tree]; the best is
    [e], node 3, of cost [5/2]. *)
Lemma getBestNodeIndex_spec_witness :
  InformedRRTStar.getBestNodeIndex c (9 # 2) star_tree = 3%Z
  /\ (InformedRRTStar.getBestNodeIndex c (9 # 2) star_tree = (-1)%Z
      <-> forall k n, nth_error star_tree k = Some n ->
                      dltb (distanceFrom c (InformedRRTStar.state n)) (9 # 2)
                      = false).
Proof.
  split; [vm_compute; reflexivity|].
  refine (proj1 (getBestNodeIndex_spec
                   (AL := exact_arith_laws) c (9 # 2) star_tree _)).
  nodes_of_list.
Defined.

(** In the tree of [star3] only [c], node 2, is within [1/10] of the
    goal [c]. *)
Lemma goal_node_indexes_spec_witness :
  StronglySorted lt [2%nat]
  /\ forall j,
      In j [2%nat]
      <-> (1 <= j)%nat
          /\ exists nd, nth_error star_tree j = Some nd
                        /\ dltb (distanceFrom (InformedRRTStar.state nd) c)
                                (InformedRRTStar.goal_region_radius_ star3)
                           = true.
Proof.
  apply (goal_node_indexes_spec star3 a c 3 star_draws star_tree [2%nat]).
  vm_compute. reflexivity.
Defined.

(** The path of [star3] ends at [c], node 2 of the tree at cost 5, and is
    not followed by the goal. *)
Lemma star_solve_result_witness :
  exists i n pre,
    nth_error (InformedRRTStar.node_list_ star3_solved) i = Some n
    /\ dltb (distanceFrom c (InformedRRTStar.state n))
            (InformedRRTStar.expand_dist_ star3) = true
    /\ InformedRRTStar.result_cost_ star3_solved
       = dadd (InformedRRTStar.cost n)
              (distanceFrom (InformedRRTStar.state n) c)
    /\ InformedRRTStar.result_ star3_solved
       = pre ++ InformedRRTStar.state n
             :: (if state_eqb (InformedRRTStar.state n) c then [] else [c]).
Proof.
  apply (star_solve_result star3 star3_solved a c star_draws).
  vm_compute. reflexivity.
Defined.

(** The path of [rrt2] ends with [[5/2; 0]], at distance 1 of the goal,
    and the goal. *)
Lemma rrt_solve_last_hop_witness :
  exists pre x,
    RRT.result_ rrt2_solved = pre ++ [x; rrt_goal]
    /\ dleb (distanceFrom x rrt_goal) (RRT.expand_dist_ rrt2) = true.
Proof.
  apply (rrt_solve_last_hop rrt2 rrt2_solved a rrt_goal [step_half]).
  vm_compute. reflexivity.
Defined.

(** The root of [star_tree] is [a] at cost 0, although [c] was rewired. *)
Lemma root_is_kept_witness :
  nth_error star_tree 0 = Some (InformedRRTStar.mkNode a None 0)
  /\ forall i m, nth_error star_tree i = Some m ->
                 dleb 0 (InformedRRTStar.cost m) = true.
Proof.
  refine (root_is_kept (AL := exact_arith_laws) (SL := exact_state_laws)
                       star3 a c 3 star_draws star_tree [2%nat] _ _);
    vm_compute; reflexivity.
Defined.


(** On rationals the segment from [a] to [c] is sampled at ten ratios,
    [0] to [9/10], and passes. *)
Lemma rrt_checkCollision_spec_witness :
  ratio_points RRT.ratio_fuel (dzero (D := Q))
  = [0; 1 # 10; 1 # 5; 3 # 10; 2 # 5; 1 # 2; 3 # 5; 7 # 10; 4 # 5; 9 # 10]
  /\ RRT.checkCollision (RRT.mkNode a None) (RRT.mkNode c None)
     = Ok (forallb (point_free a (state_sub c a))
                   (ratio_points RRT.ratio_fuel (dzero (D := Q)))).
Proof.
  split; [vm_compute; reflexivity|].
  refine (proj1 (rrt_checkCollision_spec
                   (RRT.mkNode a None) (RRT.mkNode c None) _)).
  vm_compute. reflexivity.
Defined.

(** With the goal node 2 of [star_tree] known, the third draw of [star3]
    is the informed sample [e]. *)
Lemma informed_sampling_mode_witness :
  exists best_cost,
    InformedRRTStar.best_cost_loop star_tree [2%nat] dmax = Ok best_cost
    /\ InformedRRTStar.sample_node
         star3 c best_cost (InformedRRTStar.mkDraw (1 # 2) a e)
       = Ok (Some (InformedRRTStar.mkNode e None 0)).
Proof.
  refine (informed_sampling_mode
            (AL := exact_arith_laws) star3 c
            (InformedRRTStar.mkDraw (1 # 2) a e) star_tree [2%nat] _ _).
  - intros j [<-|[]]. eexists. split; [reflexivity|].
    vm_compute. reflexivity.
  - vm_compute. reflexivity.
Defined.

(** The solve of [star3] stores four nodes and a path of three states. *)
Lemma star_result_size_witness :
  (1 <= length (InformedRRTStar.node_list_ star3_solved)
   <= InformedRRTStar.max_sampling_num_ star3 + 1)%nat
  /\ (1 <= length (InformedRRTStar.result_ star3_solved)
      <= length (InformedRRTStar.node_list_ star3_solved) + 1)%nat.
Proof.
  apply (star_result_size star3 star3_solved a c star_draws).
  vm_compute. reflexivity.
Defined.

(** With [R = 12] both [a] and [b] are near [c]: the candidate steered
    from [b] at cost 7 is put under [a] at cost 5. *)
Lemma chooseParent_after_findNearNodes_witness :
  InformedRRTStar.findNearNodes 12 steered_c tree_ab = [0; 1]%nat
  /\ exists chosen,
      InformedRRTStar.chooseParentNode
        steered_c tree_ab (InformedRRTStar.findNearNodes 12 steered_c tree_ab)
      = Ok chosen
      /\ InformedRRTStar.state chosen = c.
Proof.
  split; [vm_compute; reflexivity|].
  destruct (chooseParent_after_findNearNodes
              (AL := exact_arith_laws) 12 steered_c tree_ab)
    as (chosen & Hc & Hs & _); [nodes_of_list|].
  exists chosen. split; assumption.
Defined.

(** The third round of [star3] rewires [c] and lowers the best cost of
    the goal region from 7 to 5. *)
Lemma best_cost_never_increases_witness :
  InformedRRTStar.sampling
    star3 c 1 [InformedRRTStar.mkDraw (1 # 2) a e]
    (tree_ab ++ [steered_c], [2%nat]) = Ok (star_tree, [2%nat])
  /\ dleb 5 7 = true
  /\ (dltb 7 dmax = true -> dltb 5 dmax = true).
Proof.
  assert (H : InformedRRTStar.sampling
                star3 c 1 [InformedRRTStar.mkDraw (1 # 2) a e]
                (tree_ab ++ [steered_c], [2%nat]) = Ok (star_tree, [2%nat]))
    by (vm_compute; reflexivity).
  split; [assumption|].
  destruct (best_cost_never_increases
              (AL := exact_arith_laws) star3 c 1
              [InformedRRTStar.mkDraw (1 # 2) a e]
              (tree_ab ++ [steered_c]) star_tree [2%nat] [2%nat] 7 5 H)
    as (Hle & Hlt & _); [vm_compute; reflexivity..|].
  split; assumption.
Defined.

(** A planner built with rate 0: a setter that throws on [3/2] and a
    solve leave a rate in range. *)
Lemma goal_sampling_rate_in_range_witness :
  rrt_after_calls rrt2 [rrt_setGoalSamplingRate (3 # 2);
                        rrt_solve a rrt_goal [step_half]]
  = Some rrt2_solved
  /\ rate_in_range (RRT.goal_sampling_rate_ rrt2_solved) = true
  /\ (0 <= RRT.max_sampling_num_ rrt2_solved < 2 ^ 32)%Z.
Proof.
  assert (H : rrt_after_calls rrt2 [rrt_setGoalSamplingRate (3 # 2);
                                    rrt_solve a rrt_goal [step_half]]
              = Some rrt2_solved)
    by (vm_compute; reflexivity).
  split; [assumption|].
  refine (proj1 goal_sampling_rate_in_range 2%Z 0 1 rrt2 rrt2_solved _ _ H).
  vm_compute. reflexivity.
Defined.

End OnExact.
